(** * dbb_buffer_mngr: the staged transfer engine and the bookkeeping
      transactions of the handoff manager

    A shallow embedding of [dbb_buffer_mngr/endpoint.py] ([Porter], [Wiper],
    [execute]) and of [lsst/dbb/buffmngrs/handoff/manager.py]
    ([Manager.__init__], [_add_files], [_add_transfers], [_update_files]),
    followed by the properties of the specification that were checked
    against them.

    Conventions.  Python [str] is [string]; Python [int] is [Z]; a [dict]
    whose iteration order matters is an association list in insertion
    order, a [dict] used for its keys only is a [gmap]; a [queue.Queue]
    seen by one thread is a list (head = next item returned by [get]).
    Code that logs, raises, talks to the remote host or to the database is
    written in a state-and-exception monad. *)

From Stdlib Require Import ZArith Ascii String.
From stdpp Require Import base option list gmap strings pretty.

Open Scope string_scope.
Open Scope list_scope.

(** ** Python runtime: exceptions, logging, the state monad *)

Inductive exn : Type :=
| ValueError (msg : string)
| OSError (msg : string)
| KeyError (key : string)
| UnicodeDecodeError (msg : string)
| SQLAlchemyError (msg : string).

(** The outcome of running a piece of code: it returns, it raises, or the
    loop bound given to the model was not enough to see it finish. *)
Inductive result (A : Type) : Type :=
| Ok (a : A)
| Raise (e : exn)
| OutOfFuel.
Arguments Ok {A} a.
Arguments Raise {A} e.
Arguments OutOfFuel {A}.

Inductive level : Type := DEBUG | INFO | WARNING | ERROR | CRITICAL.

#[global] Instance level_eq_dec : EqDecision level.
Proof. solve_decision. Defined.

Definition record : Type := level * string.

Definition M (S A : Type) : Type := S → result A * S.

Definition ret {S A} (a : A) : M S A := λ s, (Ok a, s).

Definition bind {S A B} (m : M S A) (k : A → M S B) : M S B :=
  λ s, match m s with
       | (Ok a, s') => k a s'
       | (Raise e, s') => (Raise e, s')
       | (OutOfFuel, s') => (OutOfFuel, s')
       end.

Definition raise {S A} (e : exn) : M S A := λ s, (Raise e, s).

Definition out_of_fuel {S A} : M S A := λ s, (OutOfFuel, s).

Definition gets {S A} (f : S → A) : M S A := λ s, (Ok (f s), s).

Definition modify {S} (f : S → S) : M S unit := λ s, (Ok tt, f s).

Declare Scope monad_scope.
Delimit Scope monad_scope with monad.
Notation "x <- m ;; k" := (bind m (λ x, k))
  (at level 100, m at next level, right associativity) : monad_scope.
Notation "m ;; k" := (bind m (λ _, k))
  (at level 100, right associativity) : monad_scope.
Open Scope monad_scope.

(** [try: m  except (DBAPIError, SQLAlchemyError) as ex: ...]: the error
    message on the left when [m] raised a database error. *)
Definition try_except {S A} (m : M S A) : M S (string + A) :=
  λ s, match m s with
       | (Ok a, s') => (Ok (inr a), s')
       | (Raise (SQLAlchemyError msg), s') => (Ok (inl msg), s')
       | (Raise e, s') => (Raise e, s')
       | (OutOfFuel, s') => (OutOfFuel, s')
       end.

(** [for x in xs: body(x)] *)
Fixpoint for_each {S A} (xs : list A) (body : A → M S unit) : M S unit :=
  match xs with
  | [] => ret tt
  | x :: xs' => body x ;; for_each xs' body
  end.

(** ** [os.path.join] (posixpath) *)

Module posixpath.

Definition sep : string := "/".

Definition startswith (s p : string) : bool := String.prefix p s.

Fixpoint endswith_sep (s : string) : bool :=
  match s with
  | EmptyString => false
  | String c EmptyString => Ascii.eqb c "/"
  | String _ s' => endswith_sep s'
  end.

(** One round of the loop of [join]: [path] so far, next component [b]. *)
Definition join_step (path b : string) : string :=
  if startswith b sep then b
  else if String.eqb path "" || endswith_sep path then path +:+ b
  else path +:+ sep +:+ b.

Definition join (a : string) (p : list string) : string :=
  fold_left join_step p a.

End posixpath.

(** ** [shlex.split] (POSIX mode, no comments, split on white space only) *)

Module shlex.

Inductive state : Type :=
| White                    (* state ' ' : between tokens *)
| Word                     (* state 'a' : inside a token *)
| Quote (q : ascii)        (* inside '...' or "..." *)
| Escape (back : state).   (* after a backslash; [back] is escapedstate *)

Definition is_whitespace (c : ascii) : bool :=
  Ascii.eqb c " " || Ascii.eqb c "009" || Ascii.eqb c "013" || Ascii.eqb c "010".

(** The double quote, by its code. *)
Definition dquote : ascii := "034".

Definition is_quote (c : ascii) : bool :=
  Ascii.eqb c "'" || Ascii.eqb c dquote.

Definition is_escape (c : ascii) : bool := Ascii.eqb c "\".

Definition snoc (tok : string) (c : ascii) : string :=
  tok +:+ String c EmptyString.

(** [lex cs st quoted tok acc]: characters left, lexer state, whether the
    token being read has seen a quote, the token read so far, and the
    tokens already emitted. *)
Fixpoint lex (cs : string) (st : state) (quoted : bool) (tok : string)
    (acc : list string) : result (list string) :=
  match cs with
  | EmptyString =>
      match st with
      | Quote _ => Raise (ValueError "No closing quotation")
      | Escape _ => Raise (ValueError "No escaped character")
      | White | Word =>
          if negb (String.eqb tok "") || quoted
          then Ok (acc ++ [tok]) else Ok acc
      end
  | String c cs' =>
      match st with
      | White =>
          if is_whitespace c then
            if negb (String.eqb tok "") || quoted
            then lex cs' White false "" (acc ++ [tok])
            else lex cs' White quoted tok acc
          else if is_escape c then lex cs' (Escape Word) quoted tok acc
          else if is_quote c then lex cs' (Quote c) true tok acc
          else lex cs' Word quoted (snoc tok c) acc
      | Word =>
          if is_whitespace c then
            if negb (String.eqb tok "") || quoted
            then lex cs' White false "" (acc ++ [tok])
            else lex cs' White quoted tok acc
          else if is_quote c then lex cs' (Quote c) true tok acc
          else if is_escape c then lex cs' (Escape Word) quoted tok acc
          else lex cs' Word quoted (snoc tok c) acc
      | Quote q =>
          if Ascii.eqb c q then lex cs' Word true tok acc
          else if is_escape c && Ascii.eqb q dquote
          then lex cs' (Escape (Quote q)) true tok acc
          else lex cs' (Quote q) true (snoc tok c) acc
      | Escape back =>
          let tok' :=
            match back with
            | Quote q =>
                if negb (is_escape c) && negb (Ascii.eqb c q)
                then snoc tok "\" else tok
            | _ => tok
            end in
          lex cs' back quoted (snoc tok' c) acc
      end
  end.

Definition split (s : string) : result (list string) :=
  lex s White false "" [].

End shlex.


(** ** The remote host and [subprocess.run] *)

(** What [subprocess.run] hands over for a captured stream.  With
    [text=True] the output of a child that has exited is decoded: it is
    text.  What a child had written when it was killed on a timeout is
    not decoded: [TimeoutExpired] carries bytes, or [None] when nothing
    had been read. *)
Inductive stream : Type :=
| Text (s : string)
| Bytes (b : string).

Definition captured : Type := option stream.

(** [repr] of a bytes object, which is what an f-string shows of it:
    [b'...'], in double quotes when the bytes hold an apostrophe and no
    double quote; the quote and the backslash escaped, tab, newline and
    carriage return as [\t], [\n], [\r], every other byte outside the
    printable ASCII range as [\xhh]. *)
Module bytes.

Definition squote : ascii := "'".
Definition dquote : ascii := "034".
Definition backslash : ascii := "\".

Fixpoint contains (c : ascii) (b : string) : bool :=
  match b with
  | EmptyString => false
  | String c' b' => Ascii.eqb c c' || contains c b'
  end.

Definition hexdigit (n : N) : ascii :=
  match String.get (N.to_nat n) "0123456789abcdef" with
  | Some c => c
  | None => "0"
  end.

Definition escape (quote c : ascii) : string :=
  if Ascii.eqb c quote || Ascii.eqb c backslash
  then String backslash (String c "")
  else if Ascii.eqb c "009" then "\t"
  else if Ascii.eqb c "010" then "\n"
  else if Ascii.eqb c "013" then "\r"
  else if (N_of_ascii c <? 32)%N || (127 <=? N_of_ascii c)%N
  then "\x" +:+ String (hexdigit (N_of_ascii c / 16))
                     (String (hexdigit (N_of_ascii c mod 16)) "")
  else String c "".

Fixpoint escaped (quote : ascii) (b : string) : string :=
  match b with
  | EmptyString => ""
  | String c b' => escape quote c +:+ escaped quote b'
  end.

Definition repr (b : string) : string :=
  let quote := if contains squote b && negb (contains dquote b)
               then dquote else squote in
  "b" +:+ String quote (escaped quote b) +:+ String quote "".

End bytes.

(** [f"{stream}"] *)
Definition str_captured (c : captured) : string :=
  match c with
  | Some (Text s) => s
  | Some (Bytes b) => bytes.repr b
  | None => "None"
  end.

(** What becomes of a child process started with an argument vector and an
    optional timeout (in seconds): it exits, and its output is text in
    the encoding of the locale; it is killed on the timeout; it exits,
    and its output cannot be decoded; it cannot be started. *)
Inductive child : Type :=
| Exited (returncode : Z) (stdout stderr : captured)
| TimedOut (stdout stderr : captured)
| Undecodable (msg : string)
| NotStarted (e : exn).

(** The operating system and the remote host are an oracle: starting a
    process changes the world and tells what became of the child. *)
Class Host (World : Type) : Type :=
  spawn : list string → option Z → World → child * World.

(** The order in which Python iterates over a set of strings depends on
    the hash seed of the process.  The seed is left open, and so is the
    order: the model lets a seed pick any order of the elements. *)
Class Hashing : Type := hash_seed : nat.

Definition iteration `{Hashing} (X : gset string) : list string :=
  default (elements X) (permutations (elements X) !! hash_seed).

Module errno.
Definition EREMOTEIO : Z := 121.
Definition ETIME : Z := 62.
End errno.

Module subprocess.

Inductive outcome : Type :=
| CompletedProcess (returncode : Z) (stdout stderr : captured)
| CalledProcessError (returncode : Z) (stdout stderr : captured)
| TimeoutExpired (stdout stderr : captured)
| OtherError (e : exn).

(** [subprocess.run(args, capture_output=True, timeout=timeout,
    check=check, text=True)] *)
Definition run `{Host World} (args : list string) (timeout : option Z)
    (check : bool) (w : World) : outcome * World :=
  match spawn args timeout w with
  | (Exited rc out err, w') =>
      if check && negb (rc =? 0)%Z
      then (CalledProcessError rc out err, w')
      else (CompletedProcess rc out err, w')
  | (TimedOut out err, w') => (TimeoutExpired out err, w')
  | (Undecodable msg, w') => (OtherError (UnicodeDecodeError msg), w')
  | (NotStarted e, w') => (OtherError e, w')
  end.

End subprocess.

(** ** [endpoint.py] *)

Module endpoint.

(** [Location = namedtuple("Location", ["head", "tail"])] *)
Definition Location : Type := string * string.

(** An item of the queues: [(topdir, subdir, file)]. *)
Definition item : Type := string * string * string.

(** What the code of this module acts on: the world behind [execute],
    the log, and the two queues a [Porter] is given. *)
Record site (World : Type) : Type := Site {
  world : World;
  logged : list record;
  awaiting : list item;
  completed : list item
}.
Arguments Site {World} _ _ _ _.
Arguments world {World} _.
Arguments logged {World} _.
Arguments awaiting {World} _.
Arguments completed {World} _.

Section code.
Context {World : Type} `{!Host World} `{!Hashing}.

#[local] Abbreviation site := (site World).

Definition logger (lvl : level) (msg : string) : M site unit :=
  modify (λ s, Site (world s) (logged s ++ [(lvl, msg)]) (awaiting s) (completed s)).

(** [queue.get(block=False)]; [None] stands for [queue.Empty]. *)
Definition get_nowait : M site (option item) :=
  λ s, match awaiting s with
       | [] => (Ok None, s)
       | x :: q => (Ok (Some x), Site (world s) (logged s) q (completed s))
       end.

Definition put (x : item) : M site unit :=
  modify (λ s, Site (world s) (logged s) (awaiting s) (completed s ++ [x])).

Definition empty : M site bool :=
  gets (λ s, match awaiting s with [] => true | _ => false end).

Definition lift {A} (r : result A) : M site A := λ s, (r, s).

Definition subprocess_run (args : list string) (timeout : option Z)
    : M site subprocess.outcome :=
  λ s, let '(o, w') := subprocess.run args timeout true (world s) in
       (Ok o, Site w' (logged s) (awaiting s) (completed s)).

Definition execute (cmd : string) (timeout : option Z)
    : M site (Z * captured * captured) :=
  logger DEBUG ("Executing " +:+ cmd +:+ ".") ;;
  args <- lift (shlex.split cmd) ;;
  proc <- subprocess_run args timeout ;;
  r <- match proc with
       | subprocess.CalledProcessError _ out err =>
           ret (errno.EREMOTEIO, out, err)
       | subprocess.TimeoutExpired out err =>
           ret (errno.ETIME, out, err)
       | subprocess.OtherError e => raise e
       | subprocess.CompletedProcess rc out err =>
           ret (rc, out, err)
       end ;;
  let '(status, stdout, stderr) := r in
  logger DEBUG ("Finished (status: " +:+ pretty status +:+ ", output: '"
                +:+ str_captured stdout +:+ "', errors: '"
                +:+ str_captured stderr +:+ "').") ;;
  ret (status, stdout, stderr).

Definition getitem (config : gmap string string) (key : string)
    : M site string :=
  match config !! key with
  | Some v => ret v
  | None => raise (KeyError key)
  end.

(** [f"Invalid configuration: {', '.join(missing)} not provided."],
    [missing] being a set. *)
Definition invalid_configuration (missing : gset string) : string :=
  "Invalid configuration: " +:+ String.concat ", " (iteration missing)
  +:+ " not provided.".

Definition failed_with (cmd : string) (stderr : captured) : string :=
  "Command '" +:+ cmd +:+ "' failed with error: '"
  +:+ str_captured stderr +:+ "'".

(** *** [Porter] *)

Record Porter : Type := {
  dest : string * string * string;
  temp : string;
  size : Z;
  time : option Z
}.

Definition Porter_init (config : gmap string string) (chunk_size : Z)
    (timeout : option Z) : M site Porter :=
  let required : gset string := {[ "user"; "host"; "buffer"; "staging" ]} in
  let missing := required ∖ dom config in
  if decide (missing = ∅) then
    user <- getitem config "user" ;;
    host <- getitem config "host" ;;
    buffer <- getitem config "buffer" ;;
    staging <- getitem config "staging" ;;
    ret {| dest := (user, host, buffer); temp := staging;
           size := chunk_size; time := timeout |}
  else
    logger CRITICAL (invalid_configuration missing) ;;
    raise (ValueError (invalid_configuration missing)).

(** [for _ in range(n)]: pull items until the queue reports empty. *)
Fixpoint pull (n : nat) (chunk : list item) : M site (list item) :=
  match n with
  | O => ret chunk
  | S n' =>
      x <- get_nowait ;;
      match x with
      | None => ret chunk
      | Some x => pull n' (chunk ++ [x])
      end
  end.

(** [mapping.setdefault(loc, []).append(file)] on a dict kept in
    insertion order. *)
Fixpoint setdefault_append (mapping : list (Location * list string))
    (loc : Location) (file : string) : list (Location * list string) :=
  match mapping with
  | [] => [(loc, [file])]
  | (k, files) :: rest =>
      if decide (k = loc) then (k, files ++ [file]) :: rest
      else (k, files) :: setdefault_append rest loc file
  end.

Definition group (chunk : list item) : list (Location * list string) :=
  fold_left (λ mapping '(topdir, subdir, file),
               setdefault_append mapping (topdir, subdir) file)
            chunk [].

Definition mkdir_cmd (user host dst tmp : string) : string :=
  "ssh " +:+ user +:+ "@" +:+ host +:+ " mkdir -p " +:+ dst +:+ " " +:+ tmp.

Definition scp_cmd (sources : list string) (user host tmp : string) : string :=
  "scp -BCpq " +:+ String.concat " " sources +:+ " " +:+ user +:+ "@"
  +:+ host +:+ ":" +:+ tmp.

Definition mv_cmd (user host s d : string) : string :=
  "ssh " +:+ user +:+ "@" +:+ host +:+ " mv " +:+ s +:+ " " +:+ d.

(** The innermost loop of [run]: publish the files of one group. *)
Definition move (p : Porter) (head tail dst tmp : string) (fn : string)
    : M site unit :=
  let '(user, host, _) := dest p in
  let s := posixpath.join tmp [fn] in
  let d := posixpath.join dst [fn] in
  let cmd := mv_cmd user host s d in
  r <- execute cmd (time p) ;;
  let '(status, _, stderr) := r in
  if negb (status =? 0)%Z then logger WARNING (failed_with cmd stderr)
  else put (head, tail, fn).

(** The body of [for loc, files in mapping.items()]. *)
Definition transfer (p : Porter) (entry : Location * list string)
    : M site unit :=
  let '(user, host, root) := dest p in
  let '((head, tail), files) := entry in
  let src := posixpath.join head [tail] in
  let dst := posixpath.join root [tail] in
  let tmp := posixpath.join (temp p) [tail] in
  let cmd := mkdir_cmd user host dst tmp in
  r <- execute cmd (time p) ;;
  let '(status, _, stderr) := r in
  if negb (status =? 0)%Z then logger WARNING (failed_with cmd stderr)
  else
    let sources := map (λ fn, posixpath.join src [fn]) files in
    let cmd := scp_cmd sources user host tmp in
    r <- execute cmd (time p) ;;
    let '(status, _, stderr) := r in
    if negb (status =? 0)%Z then logger WARNING (failed_with cmd stderr)
    else for_each files (move p head tail dst tmp).

(** [Porter.run]; [fuel] bounds the rounds of the [while] loop. *)
Fixpoint run (fuel : nat) (p : Porter) : M site unit :=
  match fuel with
  | O => out_of_fuel
  | S fuel' =>
      e <- empty ;;
      if e : bool then ret tt
      else
        chunk <- pull (Z.to_nat (size p)) [] ;;
        match chunk with
        | [] => run fuel' p
        | _ => for_each (group chunk) (transfer p) ;; run fuel' p
        end
  end.

(** *** [Wiper] *)

Record Wiper : Type := {
  wiper_dest : string * string * string;
  wiper_time : option Z
}.

Definition Wiper_init (config : gmap string string) (timeout : option Z)
    : M site Wiper :=
  let required : gset string := {[ "user"; "host"; "staging" ]} in
  let missing := required ∖ dom config in
  if decide (missing = ∅) then
    user <- getitem config "user" ;;
    host <- getitem config "host" ;;
    staging <- getitem config "staging" ;;
    ret {| wiper_dest := (user, host, staging); wiper_time := timeout |}
  else
    logger CRITICAL (invalid_configuration missing) ;;
    raise (ValueError (invalid_configuration missing)).

Definition find_cmd (user host path : string) : string :=
  "ssh " +:+ user +:+ "@" +:+ host +:+ " find " +:+ path
  +:+ " -type d -empty -mindepth 1 -delete".

Definition Wiper_run (wp : Wiper) : M site unit :=
  let '(user, host, path) := wiper_dest wp in
  let cmd := find_cmd user host path in
  r <- execute cmd (wiper_time wp) ;;
  let '(status, _, stderr) := r in
  if negb (status =? 0)%Z then logger WARNING (failed_with cmd stderr)
  else ret tt.

End code.

End endpoint.

(** ** [manager.py] *)

(** Values and collaborators that [manager.py] imports from modules that
    are not part of the verified sources.  Times are kept abstract: the
    manager only converts them. *)
Class Externals : Type := {
  float : Type;                              (* Python float *)
  datetime : Type;
  timedelta : Type;
  fromtimestamp : float → datetime;          (* datetime.fromtimestamp *)
  timedelta_seconds : float → timedelta;     (* timedelta(seconds=x) *)
  get_checksum : string → string;            (* utils.get_checksum *)
  FileMsg_size : Z;                          (* defaults of FileMsg *)
  FileMsg_timestamp : float;
  db_config : Type;
  handoff_config : Type;
  engine : Type;
  Finder : Type;
  Macro : Type;
  setup_db_conn : db_config → result engine; (* utils.setup_db_conn *)
  Finder_init : handoff_config → result Finder;
  cleaner_init : handoff_config → Z → result Macro  (* Mover, Eraser, Macro *)
}.

(** Modelled from the spec: [messages.FileMsg], the file item of the
    queues, {sourceRoot, relativeDir, name, sizeBytes, discoveredAt}, under
    the attribute names [manager.py] reads. *)
Module FileMsg.
Section def.
Context `{Externals}.
Record t : Type := mk {
  head : string;
  tail : string;
  name : string;
  size : Z;
  timestamp : float
}.
End def.
End FileMsg.

(** Modelled from the spec: the transfer item of the queues,
    {preStart, preDuration, transStart, transDuration, postStart,
    postDuration, totalSizeBytes, rateMBps, statusCode, errorMessage,
    files}, under the attribute names [manager.py] reads. *)
Module TransferMsg.
Section def.
Context `{Externals}.
Record t : Type := mk {
  files : list (string * string * string);
  pre_start : float;
  pre_duration : float;
  trans_start : float;
  trans_duration : float;
  post_start : float;
  post_duration : float;
  size : Z;
  rate : float;
  status : Z;
  error : string
}.
End def.
End TransferMsg.

(** Modelled from the spec: [declaratives.File],
    File(relpath, filename, checksum, size_bytes, created_on, held_on). *)
Module File.
Section def.
Context `{Externals}.
Record t : Type := mk {
  relpath : string;
  filename : string;
  checksum : string;
  size_bytes : Z;
  created_on : datetime;
  held_on : option datetime
}.
Definition key (f : t) : string * string * string :=
  (relpath f, filename f, checksum f).
Definition set_held_on (d : datetime) (f : t) : t :=
  mk (relpath f) (filename f) (checksum f) (size_bytes f) (created_on f) (Some d).
End def.
End File.

(** Modelled from the spec: [declaratives.Batch],
    Batch(pre_start_time, pre_duration, trans_start_time, trans_duration,
    post_start_time, post_duration, size_bytes, rate_mbytes_per_sec, status,
    err_msg) with a many-to-many link to File.  The link holds the
    positions of the linked rows in the File table. *)
Module Batch.
Section def.
Context `{Externals}.
Record t : Type := mk {
  pre_start_time : datetime;
  pre_duration : timedelta;
  trans_start_time : datetime;
  trans_duration : timedelta;
  post_start_time : datetime;
  post_duration : timedelta;
  size_bytes : Z;
  rate_mbytes_per_sec : float;
  status : Z;
  err_msg : string;
  files : list nat
}.
End def.
End Batch.

(** The general settings: [defaults.Defaults] as a dict, and the keys a
    configuration may override. *)
Module Settings.
Record t : Type := mk {
  num_threads : Z;
  pause : Z;
  chunk_size : Z;
  timeout : option Z;
  expiration_time : Z
}.
End Settings.

Module General.
Record t : Type := mk {
  num_threads : option Z;
  pause : option Z;
  chunk_size : option Z;
  timeout : option (option Z);
  expiration_time : option Z
}.
End General.

Module manager.

(** The queues of file items the manager owns. *)
Inductive queue_id : Type := discovered | pending | processed | completed.

#[global] Instance queue_id_eq_dec : EqDecision queue_id.
Proof. solve_decision. Defined.

Section code.
Context `{Externals}.

Record tables : Type := Tables {
  file_rows : list File.t;
  batch_rows : list Batch.t
}.

(** The contents of the four queues of file items. *)
Record queues_t : Type := Queues {
  discovered_items : list FileMsg.t;
  pending_items : list FileMsg.t;
  processed_items : list FileMsg.t;
  completed_items : list FileMsg.t
}.

Definition get_queue (q : queue_id) (qs : queues_t) : list FileMsg.t :=
  match q with
  | discovered => discovered_items qs
  | pending => pending_items qs
  | processed => processed_items qs
  | completed => completed_items qs
  end.

Definition set_queue (q : queue_id) (l : list FileMsg.t) (qs : queues_t)
    : queues_t :=
  match q with
  | discovered => Queues l (pending_items qs) (processed_items qs) (completed_items qs)
  | pending => Queues (discovered_items qs) l (processed_items qs) (completed_items qs)
  | processed => Queues (discovered_items qs) (pending_items qs) l (completed_items qs)
  | completed => Queues (discovered_items qs) (pending_items qs) (processed_items qs) l
  end.

(** What the bookkeeping acts on.  [session] is the database as the
    session sees it (committed rows and the changes made since),
    [database] the committed rows.  [query_faults] and [commit_faults]
    tell, for the queries and commits to come, which of them raise and
    with what message; past their end, none.

    The scripts stand for everything that makes a query or a commit
    raise, the session included: [manager.py] never calls
    [session.rollback()], and a session whose commit has failed refuses
    every later query and commit until it is rolled back.  The runs of
    the code are therefore those of the scripts in which, once a commit
    has failed, every later entry is a fault; a script that lets an
    operation succeed after a failed commit describes a session that
    somebody has rolled back.  Statements made for every script cover
    the runs of the code; a statement that assumes a script says so. *)
Record state : Type := State {
  session : tables;
  database : tables;
  logged : list record;
  query_faults : list (option string);
  commit_faults : list (option string);
  queues : queues_t;
  transfers : list TransferMsg.t
}.

Definition logger (lvl : level) (msg : string) : M state unit :=
  modify (λ s, State (session s) (database s) (logged s ++ [(lvl, msg)])
                     (query_faults s) (commit_faults s) (queues s) (transfers s)).

Definition put (q : queue_id) (x : FileMsg.t) : M state unit :=
  modify (λ s, State (session s) (database s) (logged s) (query_faults s)
                     (commit_faults s)
                     (set_queue q (get_queue q (queues s) ++ [x]) (queues s))
                     (transfers s)).

Definition empty (q : queue_id) : M state bool :=
  gets (λ s, match get_queue q (queues s) with [] => true | _ => false end).

Definition transfers_empty : M state bool :=
  gets (λ s, match transfers s with [] => true | _ => false end).

(** Modelled from the spec: [utils.get_chunk], which pulls a bounded
    chunk from a queue: up to [size] items, without blocking. *)
Definition get_chunk (q : queue_id) (size : Z) : M state (list FileMsg.t) :=
  λ s, (Ok (take (Z.to_nat size) (get_queue q (queues s))),
        State (session s) (database s) (logged s) (query_faults s)
              (commit_faults s)
              (set_queue q (drop (Z.to_nat size) (get_queue q (queues s)))
                         (queues s))
              (transfers s)).

(** Modelled from the spec: [utils.get_chunk] again, on the queue of
    transfer items. *)
Definition get_chunk_transfers (size : Z) : M state (list TransferMsg.t) :=
  λ s, (Ok (take (Z.to_nat size) (transfers s)),
        State (session s) (database s) (logged s) (query_faults s)
              (commit_faults s) (queues s) (drop (Z.to_nat size) (transfers s))).

(** [session.query(File).filter(...)]: the rows of the File table, as
    the session sees them, handed to [f]; or a database error. *)
Definition query {A} (f : list File.t → A) : M state A :=
  λ s, let s' := State (session s) (database s) (logged s)
                       (drop 1 (query_faults s)) (commit_faults s)
                       (queues s) (transfers s) in
       match hd None (query_faults s) with
       | Some msg => (Raise (SQLAlchemyError msg), s')
       | None => (Ok (f (file_rows (session s))), s')
       end.

(** [.first()]: the first matching row and its position. *)
Definition first (P : File.t → Prop) `{∀ f, Decision (P f)}
    (rows : list File.t) : option (nat * File.t) :=
  list_find P rows.

(** [.all()]: the positions of the matching rows. *)
Definition all (P : File.t → Prop) `{∀ f, Decision (P f)}
    (rows : list File.t) : list nat :=
  (filter (λ i_f, P (snd i_f)) (imap pair rows)).*1.

Definition add_all_files (files : list File.t) : M state unit :=
  modify (λ s, State (Tables (file_rows (session s) ++ files)
                             (batch_rows (session s)))
                     (database s) (logged s) (query_faults s)
                     (commit_faults s) (queues s) (transfers s)).

Definition add_all_batches (batches : list Batch.t) : M state unit :=
  modify (λ s, State (Tables (file_rows (session s))
                             (batch_rows (session s) ++ batches))
                     (database s) (logged s) (query_faults s)
                     (commit_faults s) (queues s) (transfers s)).

(** [rec.held_on = d] for the row at position [i]. *)
Definition set_held_on (i : nat) (d : datetime) : M state unit :=
  modify (λ s, State (Tables (alter (File.set_held_on d) i (file_rows (session s)))
                             (batch_rows (session s)))
                     (database s) (logged s) (query_faults s)
                     (commit_faults s) (queues s) (transfers s)).

(** [session.commit()]: the changes of the session become the
    database, or the commit raises and the database keeps what it had.
    What the session holds after a failed commit cannot be read without
    a rollback (see [state]); it is set to what the database has. *)
Definition commit : M state unit :=
  λ s, match hd None (commit_faults s) with
       | Some msg =>
           (Raise (SQLAlchemyError msg),
            State (database s) (database s) (logged s) (query_faults s)
                  (drop 1 (commit_faults s)) (queues s) (transfers s))
       | None =>
           (Ok tt,
            State (session s) (session s) (logged s) (query_faults s)
                  (drop 1 (commit_faults s)) (queues s) (transfers s))
       end.

(** *** [_add_files] *)

(** [File(relpath=item.tail, filename=item.name, checksum=cksm,
    size_bytes=item.size, created_on=...)]; [held_on] is not set. *)
Definition new_file (item : FileMsg.t) (cksm : string) : File.t :=
  File.mk (FileMsg.tail item) (FileMsg.name item) cksm (FileMsg.size item)
          (fromtimestamp (FileMsg.timestamp item)) None.

(** The body of [for item in items]: [files] is the list being built. *)
Definition stage_file (files : list File.t) (item : FileMsg.t)
    : M state (list File.t) :=
  let path := posixpath.join (FileMsg.head item)
                             [FileMsg.tail item; FileMsg.name item] in
  let cksm := get_checksum path in
  file_ <- query (first (λ f, File.relpath f = FileMsg.tail item
                              ∧ File.filename f = FileMsg.name item
                              ∧ File.checksum f = cksm)) ;;
  match file_ with
  | Some _ => ret files
  | None => ret (files ++ [new_file item cksm])
  end.

Fixpoint stage_files (files : list File.t) (items : list FileMsg.t)
    : M state (list File.t) :=
  match items with
  | [] => ret files
  | item :: items' =>
      files' <- stage_file files item ;; stage_files files' items'
  end.

(** The body of the [while] loop, for the chunk [items]. *)
Definition add_files_chunk (out : queue_id) (items : list FileMsg.t)
    : M state unit :=
  files <- stage_files [] items ;;
  add_all_files files ;;
  r <- try_except commit ;;
  match r with
  | inl ex => logger ERROR ("adding new files failed: " +:+ ex)
  | inr _ => for_each items (put out)
  end.

Fixpoint _add_files (fuel : nat) (inp out : queue_id) (chunk_size : Z)
    : M state unit :=
  match fuel with
  | O => out_of_fuel
  | S fuel' =>
      e <- empty inp ;;
      if e : bool then ret tt
      else
        items <- get_chunk inp chunk_size ;;
        add_files_chunk out items ;;
        _add_files fuel' inp out chunk_size
  end.

(** *** [_add_transfers] *)

Definition pairs (item : TransferMsg.t) : list (string * string) :=
  map (λ '(_, p, n), (p, n)) (TransferMsg.files item).

Definition new_batch (item : TransferMsg.t) (records : list nat) : Batch.t :=
  Batch.mk (fromtimestamp (TransferMsg.pre_start item))
           (timedelta_seconds (TransferMsg.pre_duration item))
           (fromtimestamp (TransferMsg.pre_start item))
           (timedelta_seconds (TransferMsg.pre_duration item))
           (fromtimestamp (TransferMsg.pre_start item))
           (timedelta_seconds (TransferMsg.pre_duration item))
           (TransferMsg.size item)
           (TransferMsg.rate item)
           (TransferMsg.status item)
           (TransferMsg.error item)
           records.

Definition file_msgs (item : TransferMsg.t) : list FileMsg.t :=
  map (λ '(head, tail, name),
         FileMsg.mk head tail name FileMsg_size FileMsg_timestamp)
      (TransferMsg.files item).

(** The body of [for item in items]: the batches and the messages
    built so far. *)
Definition record_transfer (acc : list Batch.t * list FileMsg.t)
    (item : TransferMsg.t) : M state (list Batch.t * list FileMsg.t) :=
  let '(batches, transferred) := acc in
  r <- try_except
         (query (all (λ f, (File.relpath f, File.filename f) ∈ pairs item))) ;;
  records <- match r with
             | inl ex =>
                 logger ERROR ("retrieving database records of files in a batch failed: " +:+ ex) ;;
                 ret []
             | inr records => ret records
             end ;;
  match records with
  | [] => ret (batches, transferred)
  | _ =>
      let batches := batches ++ [new_batch item records] in
      if (TransferMsg.status item =? 0)%Z
      then ret (batches, transferred ++ file_msgs item)
      else ret (batches, transferred)
  end.

Fixpoint record_transfers (acc : list Batch.t * list FileMsg.t)
    (items : list TransferMsg.t) : M state (list Batch.t * list FileMsg.t) :=
  match items with
  | [] => ret acc
  | item :: items' =>
      acc' <- record_transfer acc item ;; record_transfers acc' items'
  end.

Definition add_transfers_chunk (files : queue_id) (items : list TransferMsg.t)
    : M state unit :=
  acc <- record_transfers ([], []) items ;;
  let '(batches, transferred) := acc in
  add_all_batches batches ;;
  r <- try_except commit ;;
  match r with
  | inl ex => logger ERROR ("adding new transfer batches failed: " +:+ ex)
  | inr _ => for_each transferred (put files)
  end.

(** The input queue is the manager's queue of transfer items. *)
Fixpoint _add_transfers (fuel : nat) (files : queue_id) (chunk_size : Z)
    : M state unit :=
  match fuel with
  | O => out_of_fuel
  | S fuel' =>
      e <- transfers_empty ;;
      if e : bool then ret tt
      else
        items <- get_chunk_transfers chunk_size ;;
        add_transfers_chunk files items ;;
        _add_transfers fuel' files chunk_size
  end.

(** *** [_update_files] *)

Definition update_file (item : FileMsg.t) : M state unit :=
  rec <- query (first (λ f, File.relpath f = FileMsg.tail item
                            ∧ File.filename f = FileMsg.name item)) ;;
  match rec with
  | Some (i, _) => set_held_on i (fromtimestamp (FileMsg.timestamp item))
  | None => ret tt
  end.

Definition update_files_chunk (items : list FileMsg.t) : M state unit :=
  for_each items update_file ;;
  r <- try_except commit ;;
  match r with
  | inl ex => logger ERROR ("updating files' held times failed: " +:+ ex)
  | inr _ => ret tt
  end.

Fixpoint _update_files (fuel : nat) (inp : queue_id) (chunk_size : Z)
    : M state unit :=
  match fuel with
  | O => out_of_fuel
  | S fuel' =>
      e <- empty inp ;;
      if e : bool then ret tt
      else
        items <- get_chunk inp chunk_size ;;
        update_files_chunk items ;;
        _update_files fuel' inp chunk_size
  end.

(** *** [Manager.__init__] *)

Record Configuration : Type := {
  cfg_database : option db_config;
  cfg_general : option General.t;
  cfg_handoff : option handoff_config;
  cfg_endpoint : option (gmap string string)
}.

(** [settings = asdict(Defaults()); settings.update(config)] *)
Definition update (settings : Settings.t) (config : General.t) : Settings.t :=
  Settings.mk
    (default (Settings.num_threads settings) (General.num_threads config))
    (default (Settings.pause settings) (General.pause config))
    (default (Settings.chunk_size settings) (General.chunk_size config))
    (default (Settings.timeout settings) (General.timeout config))
    (default (Settings.expiration_time settings) (General.expiration_time config)).

Context {World : Type} `{!Host World} `{!Hashing}.

Record Manager : Type := {
  db_engine : engine;
  num_threads : Z;
  pause : Z;
  finder : Finder;
  cleaner : Macro;
  porter : endpoint.Porter;
  wiper : endpoint.Wiper
}.

Definition getkey {A} (key : string) (v : option A)
    : M (endpoint.site World) A :=
  match v with
  | Some a => ret a
  | None => raise (KeyError key)
  end.

Definition Manager_init (defaults : Settings.t) (configuration : Configuration)
    : M (endpoint.site World) Manager :=
  config <- getkey "database" (cfg_database configuration) ;;
  engine <- endpoint.lift (setup_db_conn config) ;;
  let settings :=
    match cfg_general configuration with
    | Some config => update defaults config
    | None => defaults
    end in
  handoff <- getkey "handoff" (cfg_handoff configuration) ;;
  finder <- endpoint.lift (Finder_init handoff) ;;
  cleaner <- endpoint.lift
               (cleaner_init handoff (Settings.expiration_time settings)) ;;
  endpoint <- getkey "endpoint" (cfg_endpoint configuration) ;;
  porter <- endpoint.Porter_init endpoint (Settings.chunk_size settings)
                                 (Settings.timeout settings) ;;
  wiper <- endpoint.Wiper_init endpoint None ;;
  ret {| db_engine := engine;
         num_threads := Settings.num_threads settings;
         pause := Settings.pause settings;
         finder := finder; cleaner := cleaner;
         porter := porter; wiper := wiper |}.

End code.

End manager.

(** ** Notions used to state the properties *)

(** The distinct elements of a list, in the order of their first
    occurrence. *)
Fixpoint first_seen `{EqDecision A} (l : list A) : list A :=
  match l with
  | [] => []
  | x :: l' => x :: filter (λ y, y ≠ x) (first_seen l')
  end.

(** The faults that the next [n] operations on the database will meet. *)
Fixpoint upcoming (n : nat) (faults : list (option string))
    : list (option string) :=
  match n with
  | O => []
  | S n' => hd None faults :: upcoming n' (drop 1 faults)
  end.

Module porter_spec.
Import endpoint.

(** The location group a transfer request belongs to. *)
Definition location (x : item) : Location := (x.1.1, x.1.2).

(** The file names a chunk holds for a location, in chunk order. *)
Definition files_at (loc : Location) (chunk : list item) : list string :=
  (filter (λ x, location x = loc) chunk).*2.

(** The requests an entry of the mapping stands for. *)
Definition members (entry : Location * list string) : list item :=
  (λ fn, (entry.1.1, entry.1.2, fn)) <$> entry.2.

(** The items of a group whose move returned status 0. *)
Definition published (head tail : string) (files : list string)
    (statuses : list Z) : list item :=
  (λ fn, (head, tail, fn)) <$> (filter (λ x, x.2 = 0%Z) (zip files statuses)).*1.

(** [moves p head tail dst tmp s files statuses s']: from [s], the move
    commands of [files] are executed one after the other, return
    [statuses], and leave the site in [s']. *)
Inductive moves `{Host World} (p : Porter) (head tail dst tmp : string)
    : site World → list string → list Z → site World → Prop :=
| moves_nil s : moves p head tail dst tmp s [] [] s
| moves_cons s fn files status out err s1 s2 s3 statuses :
    execute (mv_cmd (dest p).1.1 (dest p).1.2
                    (posixpath.join tmp [fn]) (posixpath.join dst [fn]))
            (time p) s = (Ok (status, out, err), s1) →
    move p head tail dst tmp fn s = (Ok tt, s2) →
    moves p head tail dst tmp s2 files statuses s3 →
    moves p head tail dst tmp s (fn :: files) (status :: statuses) s3.

End porter_spec.

Module manager_spec.
Import manager.

Section notions.
Context `{Externals}.

(** The de-duplication key of a discovered file. *)
Definition item_key (item : FileMsg.t) : string * string * string :=
  (FileMsg.tail item, FileMsg.name item,
   get_checksum (posixpath.join (FileMsg.head item)
                                [FileMsg.tail item; FileMsg.name item])).

(** No two items pulled in one chunk share their key, for the chunks
    that [fuel] rounds of a draining loop pull [n] at a time. *)
Fixpoint chunks_distinct (fuel n : nat) (q : list FileMsg.t) : Prop :=
  match fuel with
  | O => True
  | S fuel' =>
      match q with
      | [] => True
      | _ => NoDup (item_key <$> take n q)
             ∧ chunks_distinct fuel' n (drop n q)
      end
  end.

(** The state once the next [n] queries have been answered. *)
Definition after_queries (n : nat) (s : state) : state :=
  State (session s) (database s) (logged s) (drop n (query_faults s))
        (commit_faults s) (queues s) (transfers s).

(** The records [_add_files] stages for a chunk, given the rows the
    session sees: one for each item whose key no row has. *)
Definition staged (rows : list File.t) (items : list FileMsg.t) : list File.t :=
  (λ item, new_file item (item_key item).2)
    <$> filter (λ item, item_key item ∉ File.key <$> rows) items.

(** No two rows of the File table share their key, in the session and
    in the database. *)
Definition no_duplicate_keys (s : state) : Prop :=
  NoDup (File.key <$> file_rows (session s))
  ∧ NoDup (File.key <$> file_rows (database s)).

(** The rows a transfer item matches. *)
Definition matched (rows : list File.t) (item : TransferMsg.t) : list nat :=
  all (λ f, (File.relpath f, File.filename f) ∈ pairs item) rows.

(** What a transfer item, paired with the fault its lookup meets,
    contributes to the batches, to the forwarded messages and to the
    log. *)
Definition batch_of (rows : list File.t) (x : TransferMsg.t * option string)
    : list Batch.t :=
  match x.2, matched rows x.1 with
  | None, (_ :: _) as records => [new_batch x.1 records]
  | _, _ => []
  end.

Definition forwards (rows : list File.t) (x : TransferMsg.t * option string)
    : list FileMsg.t :=
  match x.2, matched rows x.1 with
  | None, _ :: _ =>
      if decide (TransferMsg.status x.1 = 0%Z) then file_msgs x.1 else []
  | _, _ => []
  end.

Definition errors_of (x : TransferMsg.t * option string) : list record :=
  match x.2 with
  | Some ex =>
      [(ERROR, "retrieving database records of files in a batch failed: " +:+ ex)]
  | None => []
  end.

(** The File table once [_update_files] has handled a completed item, in
    the words of the claim: when no record has the item's (relativePath,
    filename) the table is as it was; otherwise the first such record has
    the time of the item as its held time, its other fields and all other
    records being as they were. *)
Inductive held (item : FileMsg.t) (rows : list File.t) : list File.t → Prop :=
| held_no_match :
    (∀ f, f ∈ rows → ¬ (File.relpath f = FileMsg.tail item
                        ∧ File.filename f = FileMsg.name item)) →
    held item rows rows
| held_first_match (i : nat) (f : File.t) :
    rows !! i = Some f →
    File.relpath f = FileMsg.tail item →
    File.filename f = FileMsg.name item →
    (∀ j g, j < i → rows !! j = Some g →
            ¬ (File.relpath g = FileMsg.tail item
               ∧ File.filename g = FileMsg.name item)) →
    held item rows
         (<[i := File.mk (File.relpath f) (File.filename f) (File.checksum f)
                         (File.size_bytes f) (File.created_on f)
                         (Some (fromtimestamp (FileMsg.timestamp item)))]> rows).

(** The same for the items of a queue, one after the other. *)
Inductive held_all : list FileMsg.t → list File.t → list File.t → Prop :=
| held_all_nil rows : held_all [] rows rows
| held_all_cons item items rows rows1 rows2 :
    held item rows rows1 → held_all items rows1 rows2 →
    held_all (item :: items) rows rows2.

End notions.
End manager_spec.

(** ** A sample environment, for the examples *)

(** A host that plays a script: each process started meets the next
    outcome of the script; past its end every process exits with 0. *)
#[export] Instance scripted : Host (list child) :=
  λ args timeout w,
    match w with
    | [] => (Exited 0 (Some (Text "")) (Some (Text "")), [])
    | c :: w' => (c, w')
    end.

(** Times as whole seconds, the checksum of a file its path, and
    collaborators that accept everything. *)
#[export] Instance sample : Externals := {|
  float := Z;
  datetime := Z;
  timedelta := Z;
  fromtimestamp := λ t, t;
  timedelta_seconds := λ d, d;
  get_checksum := λ path, path;
  FileMsg_size := 0;
  FileMsg_timestamp := 0%Z;
  db_config := unit;
  handoff_config := unit;
  engine := unit;
  Finder := unit;
  Macro := unit;
  setup_db_conn := λ _, Ok tt;
  Finder_init := λ _, Ok tt;
  cleaner_init := λ _ _, Ok tt
|}.

(** A process whose hash seed is 0. *)
#[export] Instance seed_0 : Hashing := 0%nat.

(** A host on which every process exits with 0 and prints nothing. *)
#[export] Instance obliging : Host unit :=
  λ args timeout w, (Exited 0 (Some (Text "")) (Some (Text "")), w).

Module samples.
Import manager.

(** The file of the end-to-end scenario, as discovered and as recorded. *)
Definition data_fits : FileMsg.t :=
  FileMsg.mk "/data" "groupA" "data.fits" 2880 1600000000%Z.

Definition data_fits_row : File.t :=
  File.mk "groupA" "data.fits" "/data/groupA/data.fits" 2880 1600000000%Z None.

(** A transfer of that file that succeeded, and one that failed. *)
Definition transferred : TransferMsg.t :=
  TransferMsg.mk [("/data", "groupA", "data.fits")]
                 1%Z 10%Z 2%Z 20%Z 3%Z 30%Z 2880 5%Z 0 "".

Definition failed : TransferMsg.t :=
  TransferMsg.mk [("/data", "groupA", "data.fits")]
                 1%Z 10%Z 2%Z 20%Z 3%Z 30%Z 2880 5%Z errno.EREMOTEIO
                 "Connection refused".

Definition no_queues : queues_t := Queues [] [] [] [].

(** A database with the given rows, nothing uncommitted, no fault to
    come, and the given queues. *)
Definition store (rows : list File.t) (qs : queues_t)
    (ts : list TransferMsg.t) : state :=
  State (Tables rows []) (Tables rows []) [] [] [] qs ts.

Definition endpoint_config : gmap string string :=
  list_to_map [("user", "user"); ("host", "host");
               ("buffer", "/buf"); ("staging", "/stage")].

Definition defaults : Settings.t := Settings.mk 1 1 10 None 86400.

(** A configuration that sets a timeout of 30 seconds. *)
Definition configuration : Configuration := {|
  cfg_database := Some tt;
  cfg_general := Some (General.mk None None None (Some (Some 30%Z)) None);
  cfg_handoff := Some tt;
  cfg_endpoint := Some endpoint_config
|}.

(** A site with the given world and input queue, nothing logged, nothing
    transferred yet. *)
Definition idle {World : Type} (w : World) (todo : list endpoint.item)
    : endpoint.site World :=
  endpoint.Site w [] todo [].

(** Three files of one location; the move of the second one fails. *)
Definition second_move_fails : list child :=
  [Exited 0 (Some (Text "")) (Some (Text "")); Exited 0 (Some (Text "")) (Some (Text ""));
   Exited 0 (Some (Text "")) (Some (Text ""));
   Exited 1 (Some (Text "")) (Some (Text "mv: cannot stat '/stage/groupA/b.fits'"));
   Exited 0 (Some (Text "")) (Some (Text ""))].

Definition porter : endpoint.Porter := {|
  endpoint.dest := ("user", "host", "/buf");
  endpoint.temp := "/stage";
  endpoint.size := 1;
  endpoint.time := None
|}.

End samples.

(** ** Notions used by the further properties *)

Module words.

(** A character that [shlex] takes as part of a word: no white space, no
    quote, no backslash. *)
Definition word_char (c : ascii) : bool :=
  negb (shlex.is_whitespace c) && negb (shlex.is_quote c)
  && negb (shlex.is_escape c).

Fixpoint wordy (s : string) : bool :=
  match s with
  | EmptyString => true
  | String c s' => word_char c && wordy s'
  end.

(** A name that needs no quoting on a command line. *)
Definition token (s : string) : Prop := s ≠ "" ∧ wordy s = true.

(** A transfer request [(topdir, subdir, file)] whose names need no
    quoting; the sub-directory may be empty. *)
Definition plain (x : endpoint.item) : Prop :=
  token x.1.1 ∧ wordy x.1.2 = true ∧ token x.2.

End words.

Module manager_more.
Import manager.

Section notions.
Context `{Externals}.

(** The session holds no change that is not committed. *)
Definition clean (s : state) : Prop := session s = database s.

(** The database fails none of the operations to come. *)
Definition sound (s : state) : Prop :=
  query_faults s = [] ∧ commit_faults s = [].

(** Everything of a record but its held time. *)
Definition fixed_part (f : File.t)
    : string * string * string * Z * datetime :=
  (File.relpath f, File.filename f, File.checksum f, File.size_bytes f,
   File.created_on f).

(** [rows'] are the records [rows] with, at most, held times set or
    changed: the same records in the same order, and no held time that
    was set is missing. *)
Definition keeps_records (rows rows' : list File.t) : Prop :=
  fixed_part <$> rows' = fixed_part <$> rows
  ∧ ∀ i f, rows !! i = Some f → is_Some (File.held_on f) →
      ∃ f', rows' !! i = Some f' ∧ is_Some (File.held_on f').

End notions.
End manager_more.

(** ** More sample data *)

Module more_samples.
Import manager.

(** Three requests at two locations. *)
Definition three_requests : list endpoint.item :=
  [("/data", "groupA", "a.fits"); ("/data", "groupB", "b.fits");
   ("/data", "groupA", "c.fits")].

(** The Porter of the samples with room for ten requests in a chunk. *)
Definition roomy : endpoint.Porter := {|
  endpoint.dest := ("user", "host", "/buf");
  endpoint.temp := "/stage";
  endpoint.size := 10;
  endpoint.time := None
|}.

(** A host on which three processes exit with 0 and the fourth fails. *)
Definition three_good_commands : list child :=
  [Exited 0 (Some (Text "")) (Some (Text ""));
   Exited 0 (Some (Text "")) (Some (Text ""));
   Exited 0 (Some (Text "")) (Some (Text ""));
   Exited 1 (Some (Text "")) (Some (Text "Connection refused"))].

(** The Porter of the samples with a chunk size of 0. *)
Definition stalled : endpoint.Porter := {|
  endpoint.dest := ("user", "host", "/buf");
  endpoint.temp := "/stage";
  endpoint.size := 0;
  endpoint.time := None
|}.

Definition sweeper : endpoint.Wiper := {|
  endpoint.wiper_dest := ("user", "host", "/stage");
  endpoint.wiper_time := None
|}.

(** Another recorded version of the file of the scenario. *)
Definition later_version : File.t :=
  File.mk "groupA" "data.fits" "0a1b2c" 2881 1600000100%Z None.

(** An empty database that fails the next lookup. *)
Definition locked (qs : queues_t) : state :=
  State (Tables [] []) (Tables [] []) [] [Some "database is locked"] [] qs [].

(** A configuration without its database section. *)
Definition no_database : Configuration := {|
  cfg_database := None;
  cfg_general := None;
  cfg_handoff := Some tt;
  cfg_endpoint := Some samples.endpoint_config
|}.

End more_samples.

(** * Properties *)

#[local] Set Warnings "-clear-no-such-hyp".

(** ** The monad *)

Lemma bind_Ok {S A B} (m : M S A) (k : A → M S B) (s : S) a s' :
  m s = (Ok a, s') → bind m k s = k a s'.
Proof. unfold bind. by intros ->. Qed.

Lemma bind_Raise {S A B} (m : M S A) (k : A → M S B) (s : S) e s' :
  m s = (Raise e, s') → bind m k s = (Raise e, s').
Proof. unfold bind. by intros ->. Qed.

(** ** Grouping by location *)

Section first_seen.
Context `{EqDecision A}.
Implicit Types l : list A.

Lemma elem_of_first_seen l x : x ∈ first_seen l ↔ x ∈ l.
Proof.
  induction l as [|y l IH]; simpl; [done|].
  rewrite !elem_of_cons, list_elem_of_filter, IH.
  destruct (decide (x = y)); tauto.
Qed.

Lemma NoDup_first_seen l : NoDup (first_seen l).
Proof.
  induction l as [|y l IH]; simpl; [constructor|].
  constructor; [|by apply NoDup_filter].
  rewrite list_elem_of_filter. naive_solver.
Qed.

Lemma first_seen_snoc l x :
  first_seen (l ++ [x]) = first_seen l ++ (if decide (x ∈ l) then [] else [x]).
Proof.
  induction l as [|y l IH]; simpl.
  - done.
  - rewrite IH, filter_app. f_equal. f_equal.
    destruct (decide (x ∈ l)) as [Hin|Hin].
    + by rewrite decide_True by (by right).
    + destruct (decide (x = y)) as [->|Hne].
      * rewrite decide_True by (by left).
        by rewrite filter_cons_False by naive_solver.
      * rewrite decide_False by (rewrite elem_of_cons; naive_solver).
        by rewrite filter_cons_True by done.
Qed.
End first_seen.

Section grouping.
Import endpoint porter_spec.
Implicit Types (mapping : list (Location * list string)) (loc : Location).

Lemma keys_setdefault_append mapping loc file :
  (setdefault_append mapping loc file).*1
  = mapping.*1 ++ (if decide (loc ∈ mapping.*1) then [] else [loc]).
Proof.
  induction mapping as [|[k fs] m IH]; [done|].
  cbn [setdefault_append]. destruct (decide (k = loc)) as [->|Hne].
  - rewrite !fmap_cons. cbn [fst]. rewrite decide_True by (by left).
    by rewrite app_nil_r.
  - rewrite !fmap_cons, IH. cbn [fst]. rewrite <- app_comm_cons. f_equal. f_equal.
    destruct (decide (loc ∈ m.*1)).
    + by rewrite decide_True by (by right).
    + rewrite decide_False; [done|]. rewrite elem_of_cons. naive_solver.
Qed.

Lemma members_setdefault_append mapping loc file :
  (mapping ≫= members) ++ [(loc.1, loc.2, file)]
  ≡ₚ (setdefault_append mapping loc file ≫= members).
Proof.
  induction mapping as [|[k fs] m IH]; simpl.
  - done.
  - destruct (decide (k = loc)) as [->|Hne]; simpl.
    + unfold members at 1 3; simpl. rewrite fmap_app; simpl.
      rewrite <- !(assoc (++)). f_equiv. apply Permutation_app_comm.
    + rewrite <- IH. by rewrite <- (assoc (++)).
Qed.

Lemma elem_of_setdefault_append mapping loc file k fs :
  NoDup mapping.*1 →
  ((k, fs) ∈ setdefault_append mapping loc file) ↔
    (k ≠ loc ∧ (k, fs) ∈ mapping)
    ∨ (k = loc ∧ ((∃ fs0, (loc, fs0) ∈ mapping ∧ fs = fs0 ++ [file])
                   ∨ ((loc ∉ mapping.*1) ∧ fs = [file]))).
Proof.
  induction mapping as [|[k0 fs0] m IH]; simpl; intros Hnd.
  - rewrite list_elem_of_singleton. split.
    + intros [= -> ->]. right. split; [done|]. right. split; [apply not_elem_of_nil|done].
    + intros [[_ Hin]|[-> [(? & Hin & _)|[_ ->]]]]; try done; by apply elem_of_nil in Hin.
  - apply NoDup_cons in Hnd as [Hk0 Hnd].
    destruct (decide (k0 = loc)) as [->|Hne].
    + rewrite !elem_of_cons. split.
      * intros [[= -> ->]|Hin].
        -- right. split; [done|]. left. exists fs0. split; [by left|done].
        -- left. split; [|by right]. intros ->. apply Hk0.
           apply list_elem_of_fmap. by exists (loc, fs).
      * intros [[Hne [[= -> ->]|Hin]]|[-> [(fs1 & Hin & ->)|[Hnot ->]]]]; try done.
        -- by right.
        -- apply elem_of_cons in Hin as [[= ->]|Hin]; [by left|].
           exfalso. apply Hk0. apply list_elem_of_fmap. by exists (loc, fs1).
        -- exfalso. apply Hnot. by left.
    + rewrite !elem_of_cons, IH by done. split.
      * intros [[= -> ->]|[[Hk Hin]|[-> [(fs1 & Hin & ->)|[Hnot ->]]]]].
        -- left. split; [done|by left].
        -- left. split; [done|by right].
        -- right. split; [done|]. left. exists fs1. split; [by right|done].
        -- right. split; [done|]. right. split; [|done]. naive_solver.
      * intros [[Hk [[= -> ->]|Hin]]|[-> [(fs1 & Hin & ->)|[Hnot ->]]]].
        -- by left.
        -- right. left. done.
        -- apply elem_of_cons in Hin as [[= ->]|Hin]; [done|].
           right. right. split; [done|]. left. by exists fs1.
        -- right. right. split; [done|]. right. split; [|done].
           intros Hin. apply Hnot. by right.
Qed.

Lemma group_snoc chunk x :
  group (chunk ++ [x]) = setdefault_append (group chunk) (location x) x.2.
Proof. unfold group. rewrite fold_left_app. simpl. by destruct x as [[? ?] ?]. Qed.

Lemma files_at_snoc loc chunk x :
  files_at loc (chunk ++ [x])
  = files_at loc chunk ++ (if decide (location x = loc) then [x.2] else []).
Proof.
  unfold files_at. rewrite filter_app, fmap_app. f_equal.
  destruct (decide (location x = loc)).
  - by rewrite filter_cons_True.
  - by rewrite filter_cons_False.
Qed.

Lemma group_keys chunk : (group chunk).*1 = first_seen (location <$> chunk).
Proof.
  induction chunk as [|x chunk IH] using rev_ind; [done|].
  rewrite group_snoc, keys_setdefault_append, fmap_app.
  change (location <$> [x]) with [location x].
  rewrite first_seen_snoc, IH. f_equal. destruct (decide (location x ∈ first_seen (location <$> chunk))) as [Hin|Hin];
    rewrite elem_of_first_seen in Hin.
  - by rewrite decide_True.
  - by rewrite decide_False.
Qed.

Lemma group_entries chunk loc files :
  (loc, files) ∈ group chunk → files = files_at loc chunk ∧ files ≠ [].
Proof.
  revert loc files. induction chunk as [|x chunk IH] using rev_ind; intros loc files.
  - intros Hin. by apply elem_of_nil in Hin.
  - rewrite group_snoc, elem_of_setdefault_append, files_at_snoc
      by (rewrite group_keys; apply NoDup_first_seen).
    intros [[Hk Hin]|[-> [(fs0 & Hin & ->)|[Hnot ->]]]].
    + rewrite decide_False by done. rewrite app_nil_r. by apply IH.
    + rewrite decide_True by done. apply IH in Hin as [-> _].
      split; [done|]. by destruct (files_at _ _).
    + rewrite decide_True by done. split; [|done].
      replace (files_at (location x) chunk) with (@nil string); [done|].
      unfold files_at.
      destruct (filter _ chunk) as [|y l] eqn:E; [done|].
      exfalso. apply Hnot. rewrite group_keys, elem_of_first_seen.
      assert (y ∈ filter (λ x0, location x0 = location x) chunk) as Hy by (rewrite E; by left).
      apply list_elem_of_filter in Hy as [<- Hy]. by apply list_elem_of_fmap_2.
Qed.

Lemma group_members chunk : (group chunk ≫= members) ≡ₚ chunk.
Proof.
  induction chunk as [|x chunk IH] using rev_ind; [done|].
  rewrite group_snoc, <- members_setdefault_append, IH.
  by destruct x as [[? ?] ?].
Qed.
End grouping.

Section endpoint_facts.
Context {World : Type} `{!Host World} `{!Hashing}.
Import endpoint porter_spec.
Implicit Types s : site World.

Lemma logger_queues lvl msg s r s' :
  logger lvl msg s = (r, s') →
  r = Ok tt ∧ world s' = world s ∧ awaiting s' = awaiting s ∧ completed s' = completed s.
Proof. unfold logger, modify. by intros [= <- <-]. Qed.

(** What [execute] does, by the outcome of tokenising the command line
    and of the child process. *)
Lemma execute_unfold cmd t s :
  execute cmd t s =
    let log1 := logged s ++ [(DEBUG, "Executing " +:+ cmd +:+ ".")] in
    match shlex.split cmd with
    | Ok args =>
        let '(c, w') := spawn args t (world s) in
        let finished status out err :=
          (Ok (status, out, err),
           Site w' (log1 ++ [(DEBUG, "Finished (status: " +:+ pretty status
                                     +:+ ", output: '" +:+ str_captured out
                                     +:+ "', errors: '" +:+ str_captured err
                                     +:+ "').")])
                (awaiting s) (completed s)) in
        match c with
        | Exited rc out err =>
            if (rc =? 0)%Z then finished rc out err
            else finished errno.EREMOTEIO out err
        | TimedOut out err => finished errno.ETIME out err
        | Undecodable msg =>
            (Raise (UnicodeDecodeError msg),
             Site w' log1 (awaiting s) (completed s))
        | NotStarted e => (Raise e, Site w' log1 (awaiting s) (completed s))
        end
    | Raise e => (Raise e, Site (world s) log1 (awaiting s) (completed s))
    | OutOfFuel => (OutOfFuel, Site (world s) log1 (awaiting s) (completed s))
    end.
Proof.
  unfold execute, bind, logger, modify, lift, subprocess_run, subprocess.run, ret, raise.
  cbn [world logged awaiting completed].
  destruct (shlex.split cmd) as [args|e|]; [|done..].
  destruct (spawn args t (world s)) as [[rc out err|out err|msg|e] w']; [|done..].
  cbn [andb]. by destruct (rc =? 0)%Z.
Qed.

Lemma execute_queues cmd t s r s' :
  execute cmd t s = (r, s') →
  awaiting s' = awaiting s ∧ completed s' = completed s.
Proof.
  rewrite execute_unfold. cbv zeta.
  destruct (shlex.split cmd) as [args|e|]; [|by intros [= <- <-]..].
  destruct (spawn args t (world s)) as [[rc out err|out err|msg|e] w'];
    [destruct (rc =? 0)%Z|..]; by intros [= <- <-].
Qed.

Lemma move_unfold p head tail dst tmp fn s status out err s1 :
  execute (mv_cmd (dest p).1.1 (dest p).1.2
                  (posixpath.join tmp [fn]) (posixpath.join dst [fn]))
          (time p) s = (Ok (status, out, err), s1) →
  move p head tail dst tmp fn s =
    if decide (status = 0%Z)
    then (Ok tt, Site (world s1) (logged s1) (awaiting s1)
                      (completed s1 ++ [(head, tail, fn)]))
    else (Ok tt, Site (world s1)
                      (logged s1 ++ [(WARNING,
                         failed_with (mv_cmd (dest p).1.1 (dest p).1.2
                                        (posixpath.join tmp [fn])
                                        (posixpath.join dst [fn])) err)])
                      (awaiting s1) (completed s1)).
Proof.
  intros Hx. unfold move. destruct (dest p) as [[user host] root]. cbn [fst snd] in *.
  rewrite (bind_Ok _ _ _ _ _ Hx).
  destruct (decide (status = 0%Z)) as [->|Hne]; [done|].
  by apply Z.eqb_neq in Hne as ->.
Qed.

Lemma moves_for_each p head tail dst tmp s files statuses s' :
  moves p head tail dst tmp s files statuses s' →
  for_each files (move p head tail dst tmp) s = (Ok tt, s')
  ∧ awaiting s' = awaiting s
  ∧ completed s' = completed s ++ published head tail files statuses.
Proof.
  induction 1 as [s|s fn files status out err s1 s2 s3 statuses Hx Hmv _ (IH1 & IH2 & IH3)].
  - by rewrite app_nil_r.
  - cbn [for_each]. rewrite (bind_Ok _ _ _ _ _ Hmv). split; [done|].
    rewrite (move_unfold _ _ _ _ _ _ _ _ _ _ _ Hx) in Hmv.
    apply execute_queues in Hx as [Ha Hc].
    unfold published in *. cbn [zip zip_with].
    destruct (decide (status = 0%Z)) as [->|Hne]; injection Hmv as <-;
      cbn [awaiting completed] in *.
    + rewrite filter_cons_True by done. rewrite IH2, IH3, Ha, Hc.
      split; [done|]. by rewrite <- (assoc (++)).
    + rewrite filter_cons_False by done. by rewrite IH2, IH3, Ha, Hc.
Qed.

Lemma transfer_unfold p head tail files s st1 o1 e1 s1 :
  let cmd := mkdir_cmd (dest p).1.1 (dest p).1.2
               (posixpath.join (dest p).2 [tail]) (posixpath.join (temp p) [tail]) in
  let cmd2 := scp_cmd ((λ fn, posixpath.join (posixpath.join head [tail]) [fn]) <$> files)
                (dest p).1.1 (dest p).1.2 (posixpath.join (temp p) [tail]) in
  execute cmd (time p) s = (Ok (st1, o1, e1), s1) →
  transfer p ((head, tail), files) s =
    if decide (st1 = 0%Z) then
      bind (execute cmd2 (time p))
           (λ r, if negb (r.1.1 =? 0)%Z then logger WARNING (failed_with cmd2 r.2)
                 else for_each files (move p head tail (posixpath.join (dest p).2 [tail])
                                           (posixpath.join (temp p) [tail]))) s1
    else logger WARNING (failed_with cmd e1) s1.
Proof.
  intros cmd cmd2 Hx. unfold transfer. subst cmd cmd2.
  destruct (dest p) as [[user host] root]. cbn [fst snd] in *.
  rewrite (bind_Ok _ _ _ _ _ Hx).
  destruct (decide (st1 = 0%Z)) as [->|Hne].
  - cbn [Z.eqb negb]. unfold bind.
    destruct (execute _ _ s1) as [[[[st2 o2] e2]| |] s2]; done.
  - by apply Z.eqb_neq in Hne as ->.
Qed.

End endpoint_facts.

Section porter_properties.
Context {World : Type} `{!Host World} `{!Hashing}.
Import endpoint porter_spec.
Implicit Types s : site World.

Lemma Porter_init_ok (config : gmap string string) user host buffer staging
    chunk_size timeout s :
  config !! "user" = Some user → config !! "host" = Some host →
  config !! "buffer" = Some buffer → config !! "staging" = Some staging →
  Porter_init config chunk_size timeout s
  = (Ok {| dest := (user, host, buffer); temp := staging;
           size := chunk_size; time := timeout |}, s).
Proof.
  intros Hu Hh Hb Hs. unfold Porter_init.
  rewrite decide_True.
  - unfold getitem, bind, ret. by rewrite Hu, Hh, Hb, Hs.
  - apply (elem_of_dom_2 (D:=gset string)) in Hu, Hh, Hb, Hs. set_solver.
Qed.

Lemma pull_one n x acc s :
  awaiting s = [x] →
  pull (S n) acc s = (Ok (acc ++ [x]), Site (world s) (logged s) [] (completed s)).
Proof.
  intros Hq. cbn [pull]. unfold bind, get_nowait. rewrite Hq.
  destruct n; [done|]. cbn [pull]. unfold bind, get_nowait. done.
Qed.

Lemma pull_spec n acc s :
  pull n acc s
  = (Ok (acc ++ take n (awaiting s)),
     Site (world s) (logged s) (drop n (awaiting s)) (completed s)).
Proof.
  revert acc s. induction n as [|n IH]; intros acc s.
  - cbn. rewrite app_nil_r. by destruct s.
  - cbn [pull]. unfold bind, get_nowait.
    destruct (awaiting s) as [|x q] eqn:E.
    + cbn. rewrite app_nil_r. destruct s; cbn in *; by subst.
    + rewrite IH. cbn. by rewrite <- app_assoc.
Qed.

Lemma run_unfold fuel p s :
  run (S fuel) p s =
    match awaiting s with
    | [] => (Ok tt, s)
    | _ =>
        let n := Z.to_nat (size p) in
        let s1 := Site (world s) (logged s) (drop n (awaiting s)) (completed s) in
        match take n (awaiting s) with
        | [] => run fuel p s1
        | chunk =>
            match for_each (group chunk) (transfer p) s1 with
            | (Ok _, s2) => run fuel p s2
            | (Raise e, s2) => (Raise e, s2)
            | (OutOfFuel, s2) => (OutOfFuel, s2)
            end
        end
    end.
Proof.
  cbn [run]. unfold bind at 1, empty at 1, gets at 1.
  destruct (awaiting s) as [|x q] eqn:E; [done|].
  unfold bind at 1. rewrite pull_spec, E. cbn [app]. cbv zeta.
  destruct (take _ (x :: q)); [done|]. by unfold bind.
Qed.

(** The mapping of a chunk, entry by entry. *)
Lemma group_first_seen chunk :
  group chunk
  = (λ loc, (loc, files_at loc chunk)) <$> first_seen (location <$> chunk).
Proof.
  rewrite <- group_keys, <- list_fmap_compose.
  rewrite <- (list_fmap_id (group chunk)) at 1.
  apply Forall_fmap_ext_1, Forall_forall. intros [loc files] Hin.
  by apply group_entries in Hin as [-> _].
Qed.

(** C1: a Porter configured with buffer=/buf and staging=/stage that finds
    the single request (root, "groupA", "data.fits") on its queue issues,
    in this order, the directory creation for /buf/groupA and
    /stage/groupA, the batched copy to /stage/groupA and the move
    [ssh user@host mv /stage/groupA/data.fits /buf/groupA/data.fits]; in a
    run in which each of the three returns status 0, these are the
    commands executed, and the run ends with exactly that item added to
    the output queue. *)
Theorem C1_single_file_scenario (config : gmap string string)
    (user host root : string) (chunk_size : Z) (timeout : option Z) s
    (o1 e1 o2 e2 o3 e3 : captured) s1 s2 s3 :
  let mkdir := "ssh " +:+ user +:+ "@" +:+ host
               +:+ " mkdir -p /buf/groupA /stage/groupA" in
  let scp := "scp -BCpq "
             +:+ posixpath.join (posixpath.join root ["groupA"]) ["data.fits"]
             +:+ " " +:+ user +:+ "@" +:+ host +:+ ":/stage/groupA" in
  let mv := "ssh " +:+ user +:+ "@" +:+ host
            +:+ " mv /stage/groupA/data.fits /buf/groupA/data.fits" in
  config !! "user" = Some user → config !! "host" = Some host →
  config !! "buffer" = Some "/buf" → config !! "staging" = Some "/stage" →
  (0 < chunk_size)%Z →
  awaiting s = [(root, "groupA", "data.fits")] →
  execute mkdir timeout (Site (world s) (logged s) [] (completed s))
    = (Ok (0%Z, o1, e1), s1) →
  execute scp timeout s1 = (Ok (0%Z, o2, e2), s2) →
  execute mv timeout s2 = (Ok (0%Z, o3, e3), s3) →
  ∃ p,
    Porter_init config chunk_size timeout s = (Ok p, s)
    ∧ ∀ fuel, (2 ≤ fuel)%nat →
        run fuel p s
        = (Ok tt, Site (world s3) (logged s3) []
                       (completed s ++ [(root, "groupA", "data.fits")])).
Proof.
  intros mkdir scp mv Hu Hh Hb Hs Hsize Hq H1 H2 H3.
  set (s0 := Site (world s) (logged s) [] (completed s)) in *.
  eexists. split; [by apply Porter_init_ok|].
  intros [|[|fuel]] Hfuel; [lia..|].
  set (p := {| dest := _ |}).
  destruct (Z.to_nat chunk_size) as [|n] eqn:Hn; [lia|].
  cbn [run]. unfold empty at 1, gets at 1, bind at 1. rewrite Hq.
  change (size p) with chunk_size. rewrite Hn.
  rewrite (bind_Ok _ _ _ _ _ (pull_one n _ [] s Hq)). cbn [app].
  change (group [(root, "groupA", "data.fits")])
    with [((root, "groupA"), ["data.fits"])].
  cbn [for_each]. fold s0.
  assert (transfer p (root, "groupA", ["data.fits"]) s0
          = (Ok tt, Site (world s3) (logged s3) []
                         (completed s ++ [(root, "groupA", "data.fits")]))) as Ht.
  { rewrite (transfer_unfold p root "groupA" ["data.fits"] s0 0%Z o1 e1 s1) by exact H1.
    rewrite decide_True by done.
    rewrite (bind_Ok _ _ _ _ _ H2). cbn [fst snd Z.eqb negb for_each].
    rewrite (bind_Ok _ _ _ _ _ (eq_trans (move_unfold p root "groupA" "/buf/groupA" "/stage/groupA" "data.fits" s2 0%Z o3 e3 s3 H3) eq_refl)).
    apply execute_queues in H1 as [Ha1 Hc1], H2 as [Ha2 Hc2], H3 as [Ha3 Hc3].
    unfold ret. by rewrite Ha3, Ha2, Ha1, Hc3, Hc2, Hc1. }
  unfold bind at 1. unfold bind at 1. rewrite Ht. unfold ret at 1.
  destruct fuel; by cbn.
Qed.

(** C5: the mapping that [Porter.run] builds from a chunk is an exact
    partition of the chunk by (sourceRoot, relativeDir): its keys are
    pairwise distinct, the files of each entry are exactly the files of
    the chunk at that location (none at another location, and at least
    one), every request of the chunk is in the entry of its location, the
    requests of all entries together are the chunk up to order, and the
    entries come in the order in which their locations were first seen.
    The groups are processed in that order: a round of [Porter.run] that
    pulls the chunk transfers the locations of the chunk one after the
    other as they were first seen, each with its files, and then goes on
    with what is left of the queue. *)
Theorem C5_grouping_is_exact_partition (chunk : list item) :
  NoDup (group chunk).*1
  ∧ (∀ loc files, (loc, files) ∈ group chunk →
       files ≠ [] ∧ files = files_at loc chunk)
  ∧ (∀ x, x ∈ chunk → ∃ files, (location x, files) ∈ group chunk ∧ x.2 ∈ files)
  ∧ (group chunk ≫= members) ≡ₚ chunk
  ∧ (group chunk).*1 = first_seen (location <$> chunk)
  ∧ ∀ (p : Porter) (fuel : nat) s,
      chunk = take (Z.to_nat (size p)) (awaiting s) → chunk ≠ [] →
      run (S fuel) p s
      = (for_each ((λ loc, (loc, files_at loc chunk))
                     <$> first_seen (location <$> chunk))
                  (transfer p) ;;
         run fuel p)
          (Site (world s) (logged s)
                (drop (Z.to_nat (size p)) (awaiting s)) (completed s)).
Proof.
  split_and!.
  - rewrite group_keys. apply NoDup_first_seen.
  - intros loc files Hin. by apply group_entries in Hin as [-> ?].
  - intros x Hx.
    assert (location x ∈ (group chunk).*1) as Hk.
    { rewrite group_keys, elem_of_first_seen. by apply list_elem_of_fmap_2. }
    apply list_elem_of_fmap in Hk as ([loc files] & Hloc & Hin). simpl in Hloc. subst loc.
    exists files. split; [done|].
    apply group_entries in Hin as [-> _]. unfold files_at.
    apply list_elem_of_fmap_2, list_elem_of_filter. done.
  - apply group_members.
  - apply group_keys.
  - intros p fuel s Hchunk Hne. rewrite run_unfold. cbv zeta.
    destruct (awaiting s) as [|x q] eqn:Hq.
    { by rewrite take_nil in Hchunk. }
    rewrite <- Hchunk, <- group_first_seen.
    destruct chunk as [|y chunk]; [done|]. by unfold bind.
Qed.

(** C6: for a location group, when the directory creation or the batched
    copy returns a non-zero status nothing of the group is put on the
    output queue (and nothing goes back on the input queue); when both
    return 0, the files put on the output queue are exactly those whose
    own move returned 0, in the order of the group. *)
Theorem C6_group_failure_handling (p : Porter) (head tail : string)
    (files : list string) s st1 o1 e1 s1 st2 o2 e2 s2 statuses s3 :
  let dst := posixpath.join (dest p).2 [tail] in
  let tmp := posixpath.join (temp p) [tail] in
  let src := posixpath.join head [tail] in
  execute (mkdir_cmd (dest p).1.1 (dest p).1.2 dst tmp) (time p) s
    = (Ok (st1, o1, e1), s1) →
  (st1 = 0%Z →
   execute (scp_cmd ((λ fn, posixpath.join src [fn]) <$> files)
                    (dest p).1.1 (dest p).1.2 tmp) (time p) s1
     = (Ok (st2, o2, e2), s2)) →
  (st1 = 0%Z → st2 = 0%Z → moves p head tail dst tmp s2 files statuses s3) →
  ∃ s', transfer p ((head, tail), files) s = (Ok tt, s')
        ∧ awaiting s' = awaiting s
        ∧ completed s'
          = completed s ++ (if decide (st1 = 0%Z ∧ st2 = 0%Z)
                            then published head tail files statuses else []).
Proof.
  intros dst tmp src H1 H2 H3.
  rewrite (transfer_unfold p head tail files s st1 o1 e1 s1 H1).
  pose proof (execute_queues _ _ _ _ _ H1) as [Ha1 Hc1].
  destruct (decide (st1 = 0%Z)) as [->|Hne1].
  - specialize (H2 eq_refl). specialize (H3 eq_refl).
    rewrite (bind_Ok _ _ _ _ _ H2). cbn [fst snd].
    pose proof (execute_queues _ _ _ _ _ H2) as [Ha2 Hc2].
    destruct (decide (st2 = 0%Z)) as [->|Hne2].
    + specialize (H3 eq_refl).
      apply moves_for_each in H3 as (Hrun & Ha3 & Hc3). cbn [Z.eqb negb].
      exists s3. rewrite decide_True by done.
      split; [done|]. by rewrite Ha3, Hc3, Ha2, Hc2, Ha1, Hc1.
    + apply Z.eqb_neq in Hne2 as Hb. rewrite Hb. cbn [negb].
      eexists. split; [done|]. cbn [awaiting completed].
      rewrite decide_False by naive_solver. by rewrite app_nil_r, Ha2, Hc2, Ha1, Hc1.
  - eexists. split; [done|]. cbn [awaiting completed].
    rewrite decide_False by naive_solver. by rewrite app_nil_r.
Qed.

(** C2, corrected: for every command line that [shlex] splits into tokens
    and whose child process is started and writes what can be decoded as
    text, and for every timeout, [execute] returns a triple without
    raising, with what the child wrote to its output and error streams:
    status 0 for a child that exits with 0, the remote I/O error status
    for a child that exits with anything else, the timed-out status for a
    child that exceeds the timeout. *)
Theorem C2_process_runner_status_mapping (cmd : string) (timeout : option Z)
    s (args : list string) (c : child) (w' : World) :
  shlex.split cmd = Ok args →
  spawn args timeout (world s) = (c, w') →
  (∀ e, c ≠ NotStarted e) →
  (∀ msg, c ≠ Undecodable msg) →
  ∃ status stdout stderr s',
    execute cmd timeout s = (Ok (status, stdout, stderr), s')
    ∧ world s' = w' ∧ awaiting s' = awaiting s ∧ completed s' = completed s
    ∧ match c with
      | Exited rc out err =>
          stdout = out ∧ stderr = err
          ∧ (rc = 0%Z → status = 0%Z) ∧ (rc ≠ 0%Z → status = errno.EREMOTEIO)
      | TimedOut out err =>
          stdout = out ∧ stderr = err ∧ status = errno.ETIME
      | Undecodable _ | NotStarted _ => False
      end
    ∧ errno.EREMOTEIO ≠ 0%Z ∧ errno.ETIME ≠ 0%Z ∧ errno.EREMOTEIO ≠ errno.ETIME.
Proof.
  intros Hsplit Hspawn Hstarted Hdecoded. rewrite execute_unfold, Hsplit, Hspawn.
  destruct c as [rc out err|out err|msg|e];
    [| |by destruct (Hdecoded msg)|by destruct (Hstarted e)].
  - destruct (rc =? 0)%Z eqn:Hrc.
    + apply Z.eqb_eq in Hrc as ->. by eexists _, _, _, _.
    + apply Z.eqb_neq in Hrc. by eexists _, _, _, _.
  - by eexists _, _, _, _.
Qed.

End porter_properties.

(** ** The bookkeeping transactions *)

Section manager_facts.
Context `{Externals}.
Import manager manager_spec.
Implicit Types (s : state) (rows : list File.t).

Lemma get_set_queue q l qs : get_queue q (set_queue q l qs) = l.
Proof. by destruct q. Qed.

Lemma get_set_queue_ne q q' l qs :
  q ≠ q' → get_queue q' (set_queue q l qs) = get_queue q' qs.
Proof. by destruct q, q'. Qed.

Lemma set_set_queue q l l' qs :
  set_queue q l' (set_queue q l qs) = set_queue q l' qs.
Proof. by destruct q. Qed.

Lemma set_get_queue q qs : set_queue q (get_queue q qs) qs = qs.
Proof. by destruct q, qs. Qed.

Lemma after_queries_0 s : after_queries 0 s = s.
Proof. by destruct s. Qed.

Lemma after_queries_S n s : after_queries n (after_queries 1 s) = after_queries (S n) s.
Proof.
  unfold after_queries; cbn [session database logged query_faults commit_faults queues transfers].
  by rewrite drop_drop.
Qed.

Lemma query_unfold {A} (f : list File.t → A) s :
  query f s = match hd None (query_faults s) with
              | Some msg => (Raise (SQLAlchemyError msg), after_queries 1 s)
              | None => (Ok (f (file_rows (session s))), after_queries 1 s)
              end.
Proof. done. Qed.

(** The commit of a chunk, seen through its [try]. *)
Lemma try_commit_unfold s :
  try_except commit s =
    match hd None (commit_faults s) with
    | Some msg =>
        (Ok (inl msg),
         State (database s) (database s) (logged s) (query_faults s)
               (drop 1 (commit_faults s)) (queues s) (transfers s))
    | None =>
        (Ok (inr tt),
         State (session s) (session s) (logged s) (query_faults s)
               (drop 1 (commit_faults s)) (queues s) (transfers s))
    end.
Proof. unfold try_except, commit. by destruct (hd None (commit_faults s)). Qed.

Lemma for_each_put q items s :
  for_each items (put q) s
  = (Ok tt, State (session s) (database s) (logged s) (query_faults s)
                  (commit_faults s)
                  (set_queue q (get_queue q (queues s) ++ items) (queues s))
                  (transfers s)).
Proof.
  revert s. induction items as [|x items IH]; intros s.
  - rewrite app_nil_r, set_get_queue. by destruct s.
  - cbn [for_each]. unfold bind at 1, put at 1, modify at 1. rewrite IH.
    cbn [session database logged query_faults commit_faults queues transfers].
    by rewrite get_set_queue, set_set_queue, <- (assoc (++)).
Qed.

(** *** [_add_files] *)

Lemma first_key_None rows (item : FileMsg.t) :
  first (λ f, File.relpath f = FileMsg.tail item
              ∧ File.filename f = FileMsg.name item
              ∧ File.checksum f = (item_key item).2) rows = None
  ↔ item_key item ∉ File.key <$> rows.
Proof.
  unfold first. rewrite list_find_None, Forall_forall, list_elem_of_fmap.
  unfold item_key, File.key. cbn [fst snd]. split.
  - intros Hall (f & [= ? ? ?] & Hf). apply (Hall f Hf). done.
  - intros Hno f Hf (? & ? & ?). apply Hno. exists f. split; [|done]. congruence.
Qed.

Lemma stage_file_unfold files item s :
  stage_file files item s =
    match hd None (query_faults s) with
    | Some msg => (Raise (SQLAlchemyError msg), after_queries 1 s)
    | None => (Ok (files ++ staged (file_rows (session s)) [item]), after_queries 1 s)
    end.
Proof.
  unfold stage_file. unfold bind. rewrite query_unfold.
  destruct (hd None (query_faults s)); [done|].
  unfold staged.
  destruct (decide (item_key item ∉ File.key <$> file_rows (session s))) as [Hk|Hk].
  - rewrite filter_cons_True by done. apply first_key_None in Hk.
    cbn [snd item_key] in Hk. rewrite Hk. done.
  - rewrite filter_cons_False by done.
    destruct (first _ _) as [?|] eqn:E; [by rewrite app_nil_r|].
    exfalso. apply Hk. by apply first_key_None.
Qed.

Lemma staged_cons rows item items :
  staged rows (item :: items) = staged rows [item] ++ staged rows items.
Proof.
  unfold staged. destruct (decide (item_key item ∉ File.key <$> rows)).
  - by rewrite !filter_cons_True by done.
  - by rewrite !filter_cons_False by done.
Qed.

(** Staging a chunk only consumes answers of the database: it returns
    the staged records when no lookup fails, and raises at the first
    lookup that does. *)
Lemma stage_files_spec items files s :
  ∃ r k, stage_files files items s = (r, after_queries k s)
         ∧ r ≠ OutOfFuel
         ∧ (∀ fs, r = Ok fs → fs = files ++ staged (file_rows (session s)) items)
         ∧ (Forall (λ x, x = None) (upcoming (length items) (query_faults s)) →
            r = Ok (files ++ staged (file_rows (session s)) items)).
Proof.
  revert files s. induction items as [|item items IH]; intros files s.
  - exists (Ok files), 0%nat. rewrite after_queries_0. unfold staged.
    rewrite filter_nil, app_nil_r. naive_solver.
  - cbn [stage_files]. unfold bind. rewrite stage_file_unfold.
    destruct (hd None (query_faults s)) as [msg|] eqn:Hq.
    + exists (Raise (SQLAlchemyError msg)), 1%nat. split_and!; [done..|].
      cbn [length upcoming]. rewrite Hq. by intros [[=] _]%Forall_cons.
    + destruct (IH (files ++ staged (file_rows (session s)) [item]) (after_queries 1 s))
        as (r & k & Hrun & Hfuel & Hok & Hall).
      exists r, (S k). rewrite Hrun, after_queries_S.
      cbn [after_queries session file_rows] in *.
      rewrite <- app_assoc, <- staged_cons in Hok, Hall.
      split_and!; [done..|].
      cbn [length upcoming]. intros [_ Hf]%Forall_cons. by apply Hall.
Qed.

Lemma add_files_chunk_spec out items s :
  ∃ r k, stage_files [] items s = (r, after_queries k s)
    ∧ (Forall (λ x, x = None) (upcoming (length items) (query_faults s)) →
       r = Ok (staged (file_rows (session s)) items))
    ∧ add_files_chunk out items s =
        match r with
        | Ok files =>
            match hd None (commit_faults s) with
            | None =>
                let t := Tables (file_rows (session s)
                                 ++ staged (file_rows (session s)) items)
                                (batch_rows (session s)) in
                (Ok tt, State t t (logged s) (drop k (query_faults s))
                              (drop 1 (commit_faults s))
                              (set_queue out (get_queue out (queues s) ++ items)
                                         (queues s))
                              (transfers s))
            | Some msg =>
                (Ok tt, State (database s) (database s)
                              (logged s ++ [(ERROR, "adding new files failed: " +:+ msg)])
                              (drop k (query_faults s)) (drop 1 (commit_faults s))
                              (queues s) (transfers s))
            end
        | Raise e => (Raise e, after_queries k s)
        | OutOfFuel => (OutOfFuel, after_queries k s)
        end.
Proof.
  destruct (stage_files_spec items [] s) as (r & k & Hrun & Hfuel & Hok & Hall).
  exists r, k. split; [done|]. split; [done|].
  unfold add_files_chunk. unfold bind at 1. rewrite Hrun.
  destruct r as [files| |]; [|done..].
  rewrite (Hok files eq_refl). cbn [app].
  unfold bind at 1, add_all_files at 1, modify at 1.
  unfold bind at 1. rewrite try_commit_unfold.
  cbn [after_queries session database logged query_faults commit_faults queues transfers
       file_rows batch_rows].
  destruct (hd None (commit_faults s)); [done|].
  by rewrite for_each_put.
Qed.

Lemma chunks_distinct_S fuel n q :
  chunks_distinct (S fuel) n q ↔
    q = [] ∨ (q ≠ [] ∧ NoDup (item_key <$> take n q)
              ∧ chunks_distinct fuel n (drop n q)).
Proof. destruct q; cbn [chunks_distinct]; naive_solver. Qed.

Lemma key_new_file item : File.key (new_file item (item_key item).2) = item_key item.
Proof. done. Qed.

Lemma NoDup_staged rows items :
  NoDup (File.key <$> rows) → NoDup (item_key <$> items) →
  NoDup (File.key <$> (rows ++ staged rows items)).
Proof.
  intros Hrows Hitems. rewrite fmap_app. apply NoDup_app. split; [done|].
  unfold staged. rewrite <- list_fmap_compose.
  assert (∀ l : list FileMsg.t,
            (File.key ∘ (λ item, new_file item (item_key item).2)) <$> l
            = item_key <$> l) as ->.
  { intros l. induction l as [|x l IH]; [done|]. by rewrite !fmap_cons, IH. }
  split.
  - intros k Hk (item & -> & Hin)%list_elem_of_fmap.
    by apply list_elem_of_filter in Hin as [Hno _].
  - eapply sublist_NoDup; [exact Hitems|].
    apply fmap_sublist, sublist_filter.
Qed.

Lemma add_files_chunk_keys out items s r s' :
  no_duplicate_keys s → NoDup (item_key <$> items) →
  add_files_chunk out items s = (r, s') → no_duplicate_keys s'.
Proof.
  intros [Hs Hd] Hitems.
  destruct (add_files_chunk_spec out items s) as (r0 & k & _ & _ & ->).
  destruct r0 as [files|e|]; [|by intros [= <- <-]..].
  destruct (hd None (commit_faults s)); intros [= <- <-]; [done|].
  split; by apply NoDup_staged.
Qed.

Lemma add_files_chunk_input inp out items s r s' :
  inp ≠ out → add_files_chunk out items s = (r, s') →
  get_queue inp (queues s') = get_queue inp (queues s).
Proof.
  intros Hne. destruct (add_files_chunk_spec out items s) as (r0 & k & _ & _ & ->).
  destruct r0 as [files|e|]; [|by intros [= <- <-]..].
  destruct (hd None (commit_faults s)); intros [= <- <-]; [done|].
  cbn [queues]. by rewrite get_set_queue_ne.
Qed.

Lemma _add_files_unfold fuel inp out chunk_size s :
  _add_files (S fuel) inp out chunk_size s =
    match get_queue inp (queues s) with
    | [] => (Ok tt, s)
    | _ =>
        let n := Z.to_nat chunk_size in
        let s1 := State (session s) (database s) (logged s) (query_faults s)
                        (commit_faults s)
                        (set_queue inp (drop n (get_queue inp (queues s))) (queues s))
                        (transfers s) in
        match add_files_chunk out (take n (get_queue inp (queues s))) s1 with
        | (Ok _, s2) => _add_files fuel inp out chunk_size s2
        | (Raise e, s2) => (Raise e, s2)
        | (OutOfFuel, s2) => (OutOfFuel, s2)
        end
    end.
Proof.
  cbn [_add_files]. unfold bind at 1, empty at 1, gets at 1.
  destruct (get_queue inp (queues s)) eqn:E; [done|].
  unfold bind at 1, get_chunk at 1. rewrite E. done.
Qed.

Lemma _add_files_keys fuel inp out chunk_size s r s' :
  inp ≠ out → no_duplicate_keys s →
  chunks_distinct fuel (Z.to_nat chunk_size) (get_queue inp (queues s)) →
  _add_files fuel inp out chunk_size s = (r, s') → no_duplicate_keys s'.
Proof.
  intros Hne. revert s. induction fuel as [|fuel IH]; intros s Hinv Hchunks.
  - by intros [= <- <-].
  - rewrite _add_files_unfold.
    apply chunks_distinct_S in Hchunks as [Hq|(Hq & Hnd & Hrest)].
    + rewrite Hq. by intros [= <- <-].
    + destruct (get_queue inp (queues s)) as [|x q] eqn:E; [done|]. cbv zeta.
      set (s1 := State _ _ _ _ _ _ _).
      destruct (add_files_chunk out _ s1) as [r1 s2] eqn:Hchunk.
      assert (no_duplicate_keys s2) as Hinv2
        by (eapply add_files_chunk_keys; [| |exact Hchunk]; done).
      destruct r1 as [[]|e|]; [|by intros [= <- <-]..].
      apply IH; [done|].
      rewrite (add_files_chunk_input inp out _ _ _ _ Hne Hchunk).
      subst s1. cbn [queues]. by rewrite get_set_queue.
Qed.

Lemma add_files_chunk_fuel out items s : (add_files_chunk out items s).1 ≠ OutOfFuel.
Proof.
  destruct (stage_files_spec items [] s) as (r & k & Hrun & Hfuel & _ & _).
  destruct (add_files_chunk_spec out items s) as (r0 & k0 & Hrun0 & _ & ->).
  rewrite Hrun in Hrun0. injection Hrun0 as <- _.
  destruct r; [by destruct (hd None (commit_faults s))|done..].
Qed.

(** The loop of [_add_files] ends within as many rounds as the input
    queue has items, when the chunks it pulls are not empty. *)
Lemma _add_files_fuel fuel inp out chunk_size s :
  inp ≠ out → (0 < chunk_size)%Z →
  length (get_queue inp (queues s)) < fuel →
  (_add_files fuel inp out chunk_size s).1 ≠ OutOfFuel.
Proof.
  intros Hne Hsize. revert s. induction fuel as [|fuel IH]; intros s Hlen; [lia|].
  rewrite _add_files_unfold.
  destruct (get_queue inp (queues s)) as [|x q] eqn:E; [done|]. cbv zeta.
  set (s1 := State _ _ _ _ _ _ _).
  pose proof (add_files_chunk_fuel out (take (Z.to_nat chunk_size) (x :: q)) s1) as Hfuel.
  destruct (add_files_chunk out _ s1) as [r1 s2] eqn:Hchunk.
  destruct r1 as [[]|e|]; [|done..].
  apply IH. rewrite (add_files_chunk_input inp out _ _ _ _ Hne Hchunk).
  subst s1. cbn [queues]. rewrite get_set_queue, length_drop.
  cbn [length] in *. lia.
Qed.

(** *** [_add_transfers] *)

Lemma record_transfer_unfold bs ts item s :
  let rows := file_rows (session s) in
  let x := (item, hd None (query_faults s)) in
  record_transfer (bs, ts) item s =
    (Ok (bs ++ batch_of rows x, ts ++ forwards rows x),
     State (session s) (database s) (logged s ++ errors_of x)
           (drop 1 (query_faults s)) (commit_faults s) (queues s) (transfers s)).
Proof.
  intros rows x. unfold record_transfer, batch_of, forwards, errors_of, matched.
  subst x rows. cbn [fst snd].
  unfold bind at 1, try_except at 1. rewrite query_unfold.
  destruct (hd None (query_faults s)) as [msg|].
  - unfold bind, logger, modify, ret. cbn. by rewrite !app_nil_r.
  - unfold bind at 1, ret at 1. cbn [after_queries].
    destruct (all _ _) as [|i records]; [unfold ret; by rewrite !app_nil_r|].
    destruct (decide (TransferMsg.status item = 0%Z)) as [->|Hne].
    + unfold ret. by rewrite app_nil_r.
    + apply Z.eqb_neq in Hne as ->. unfold ret. by rewrite !app_nil_r.
Qed.

Lemma record_transfers_spec items bs ts s :
  let rows := file_rows (session s) in
  let script := zip items (upcoming (length items) (query_faults s)) in
  record_transfers (bs, ts) items s =
    (Ok (bs ++ (script ≫= batch_of rows), ts ++ (script ≫= forwards rows)),
     State (session s) (database s) (logged s ++ (script ≫= errors_of))
           (drop (length items) (query_faults s)) (commit_faults s)
           (queues s) (transfers s)).
Proof.
  revert bs ts s. induction items as [|item items IH]; intros bs ts s; cbv zeta.
  - cbn. rewrite !app_nil_r. by destruct s.
  - cbn [record_transfers]. unfold bind at 1. rewrite record_transfer_unfold.
    cbv zeta. rewrite IH.
    cbn [session database logged query_faults commit_faults queues transfers
         length upcoming zip zip_with mbind list_bind].
    by rewrite <- !app_assoc, drop_drop.
Qed.

Lemma add_transfers_chunk_spec files items s :
  let rows := file_rows (session s) in
  let script := zip items (upcoming (length items) (query_faults s)) in
  add_transfers_chunk files items s =
    (Ok tt,
     match hd None (commit_faults s) with
     | None =>
         let t := Tables rows (batch_rows (session s) ++ (script ≫= batch_of rows)) in
         State t t (logged s ++ (script ≫= errors_of))
               (drop (length items) (query_faults s)) (drop 1 (commit_faults s))
               (set_queue files
                  (get_queue files (queues s) ++ (script ≫= forwards rows))
                  (queues s))
               (transfers s)
     | Some msg =>
         State (database s) (database s)
               ((logged s ++ (script ≫= errors_of))
                ++ [(ERROR, "adding new transfer batches failed: " +:+ msg)])
               (drop (length items) (query_faults s)) (drop 1 (commit_faults s))
               (queues s) (transfers s)
     end).
Proof.
  cbv zeta. unfold add_transfers_chunk. unfold bind at 1.
  rewrite record_transfers_spec. cbv zeta. cbn [app].
  unfold bind at 1, add_all_batches at 1, modify at 1.
  unfold bind at 1. rewrite try_commit_unfold.
  cbn [session database logged query_faults commit_faults queues transfers
       file_rows batch_rows].
  destruct (hd None (commit_faults s)); [done|].
  by rewrite for_each_put.
Qed.

(** *** [_update_files] *)

Lemma update_file_unfold item s :
  update_file item s =
    match hd None (query_faults s) with
    | Some msg => (Raise (SQLAlchemyError msg), after_queries 1 s)
    | None =>
        match first (λ f, File.relpath f = FileMsg.tail item
                          ∧ File.filename f = FileMsg.name item)
                    (file_rows (session s)) with
        | Some (i, _) =>
            (Ok tt,
             State (Tables (alter (File.set_held_on
                                     (fromtimestamp (FileMsg.timestamp item)))
                                  i (file_rows (session s)))
                           (batch_rows (session s)))
                   (database s) (logged s) (drop 1 (query_faults s))
                   (commit_faults s) (queues s) (transfers s))
        | None => (Ok tt, after_queries 1 s)
        end
    end.
Proof.
  unfold update_file, bind. rewrite query_unfold.
  destruct (hd None (query_faults s)); [done|].
  by destruct (first _ _) as [[i f]|].
Qed.

Lemma update_file_frame item s r s' :
  update_file item s = (r, s') →
  queues s' = queues s ∧ transfers s' = transfers s ∧ logged s' = logged s
  ∧ database s' = database s ∧ commit_faults s' = commit_faults s.
Proof.
  rewrite update_file_unfold.
  destruct (hd None (query_faults s)); [by intros [= <- <-]|].
  destruct (first _ _) as [[i f]|]; by intros [= <- <-].
Qed.

Lemma for_each_update_file_frame items s r s' :
  for_each items update_file s = (r, s') →
  queues s' = queues s ∧ transfers s' = transfers s ∧ logged s' = logged s
  ∧ database s' = database s ∧ commit_faults s' = commit_faults s.
Proof.
  revert s. induction items as [|item items IH]; intros s.
  - by intros [= <- <-].
  - cbn [for_each]. unfold bind.
    destruct (update_file item s) as [r1 s1] eqn:E.
    apply update_file_frame in E as (E1 & E2 & E3 & E4 & E5).
    destruct r1 as [[]|e|].
    + intros Hrest. apply IH in Hrest. by rewrite <- E1, <- E2, <- E3, <- E4, <- E5.
    + by intros [= <- <-].
    + by intros [= <- <-].
Qed.

Lemma update_files_chunk_queues items s r s' :
  update_files_chunk items s = (r, s') → queues s' = queues s.
Proof.
  unfold update_files_chunk. unfold bind at 1.
  destruct (for_each items update_file s) as [r1 s1] eqn:E.
  apply for_each_update_file_frame in E as (E & _). rewrite <- E.
  destruct r1; [|by intros [= <- <-]..].
  unfold bind. rewrite try_commit_unfold.
  destruct (hd None (commit_faults s1)); by intros [= <- <-].
Qed.

Lemma upcoming_nil n : Forall (λ x, x = None) (upcoming n []).
Proof. induction n as [|n IH]; [constructor|]. cbn. by constructor. Qed.

Lemma _update_files_unfold fuel inp chunk_size s :
  _update_files (S fuel) inp chunk_size s =
    match get_queue inp (queues s) with
    | [] => (Ok tt, s)
    | _ =>
        let n := Z.to_nat chunk_size in
        let s1 := State (session s) (database s) (logged s) (query_faults s)
                        (commit_faults s)
                        (set_queue inp (drop n (get_queue inp (queues s))) (queues s))
                        (transfers s) in
        match update_files_chunk (take n (get_queue inp (queues s))) s1 with
        | (Ok _, s2) => _update_files fuel inp chunk_size s2
        | (Raise e, s2) => (Raise e, s2)
        | (OutOfFuel, s2) => (OutOfFuel, s2)
        end
    end.
Proof.
  cbn [_update_files]. unfold bind at 1, empty at 1, gets at 1.
  destruct (get_queue inp (queues s)) eqn:E; [done|].
  unfold bind at 1, get_chunk at 1. rewrite E. done.
Qed.

End manager_facts.

Section manager_properties.
Context `{Externals}.
Import manager manager_spec.
Implicit Types (s : state) (rows : list File.t).

Lemma alter_as_insert {A} (f : A → A) (l : list A) i x :
  l !! i = Some x → alter f i l = <[i:=f x]> l.
Proof.
  revert i. induction l as [|y l IH]; intros [|i] Hi; try done.
  - by injection Hi as ->.
  - cbn. f_equal. by apply IH.
Qed.

(** C3, corrected: a chunk's commit gates what goes downstream.  For
    [_add_files]: nothing is forwarded when the commit fails, and when it
    succeeds every item of the chunk is appended once to the output queue
    (the chunk is processed to its end when no lookup fails).  For
    [_add_transfers]: nothing is forwarded when the commit fails, and when
    it succeeds what is appended is, for each transfer item whose lookup
    found at least one record and whose status is 0, one message per file
    it covers.  [_update_files] forwards nothing: it leaves every queue as
    the chunk's pull left it. *)
Theorem C3_commit_gates_forwarding :
  (∀ out items s,
     ∃ r s', add_files_chunk out items s = (r, s')
       ∧ (Forall (λ x, x = None) (upcoming (length items) (query_faults s)) →
          r = Ok tt)
       ∧ (is_Some (hd None (commit_faults s)) ∨ r ≠ Ok tt → queues s' = queues s)
       ∧ (hd None (commit_faults s) = None → r = Ok tt →
          queues s' = set_queue out (get_queue out (queues s) ++ items) (queues s)))
  ∧ (∀ files items s,
       ∃ s', add_transfers_chunk files items s = (Ok tt, s')
         ∧ (is_Some (hd None (commit_faults s)) → queues s' = queues s)
         ∧ (hd None (commit_faults s) = None →
            queues s'
            = set_queue files
                (get_queue files (queues s)
                 ++ (zip items (upcoming (length items) (query_faults s))
                       ≫= forwards (file_rows (session s))))
                (queues s)))
  ∧ (∀ items s r s', update_files_chunk items s = (r, s') → queues s' = queues s).
Proof.
  split_and!.
  - intros out items s.
    destruct (add_files_chunk_spec out items s) as (r & k & _ & Hall & ->).
    destruct r as [files|e|].
    + destruct (hd None (commit_faults s)) as [msg|] eqn:Hc; eexists _, _;
        (split; [done|]); split_and!; try done.
      * intros [[? [=]]|?]; done.
    + eexists _, _. split; [done|]. split_and!; try done.
      intros Hq. by specialize (Hall Hq).
    + eexists _, _. split; [done|]. split_and!; try done.
      intros Hq. by specialize (Hall Hq).
  - intros files items s. rewrite add_transfers_chunk_spec. cbv zeta.
    eexists. split; [done|].
    destruct (hd None (commit_faults s)) as [msg|]; by split.
  - apply update_files_chunk_queues.
Qed.

(** C4, corrected: an item whose key (relativePath, filename, checksum) a
    record of the session already has stages no record; and a run of
    [_add_files] leaves no two records with the same key, provided none
    were there before and no two items pulled in one chunk share their
    key.  The run ends when the chunk size is positive. *)
Theorem C4_known_files_are_not_recorded_again :
  (∀ files item s,
     hd None (query_faults s) = None →
     item_key item ∈ File.key <$> file_rows (session s) →
     stage_file files item s = (Ok files, after_queries 1 s))
  ∧ (∀ fuel inp out chunk_size s,
       inp ≠ out →
       no_duplicate_keys s →
       chunks_distinct fuel (Z.to_nat chunk_size) (get_queue inp (queues s)) →
       no_duplicate_keys (_add_files fuel inp out chunk_size s).2
       ∧ ((0 < chunk_size)%Z → length (get_queue inp (queues s)) < fuel →
          (_add_files fuel inp out chunk_size s).1 ≠ OutOfFuel)).
Proof.
  split.
  - intros files item s Hq Hin. rewrite stage_file_unfold, Hq.
    unfold staged. rewrite filter_cons_False by naive_solver.
    by rewrite filter_nil, app_nil_r.
  - intros fuel inp out chunk_size s Hne Hinv Hchunks. split.
    + destruct (_add_files fuel inp out chunk_size s) as [r s'] eqn:Hrun.
      by eapply _add_files_keys.
    + intros Hsize Hlen. by apply _add_files_fuel.
Qed.

(** C8, corrected: in a chunk of [_add_transfers] whose commit succeeds,
    a transfer item whose lookup finds at least one record gives one
    batch, and its files are forwarded if and only if its status is 0; a
    transfer item whose lookup finds no record gives no batch and no
    forwarded file, and nothing is logged for it; an error is logged only
    for an item whose lookup the database fails, and that item is dropped
    in the same way. *)
Theorem C8_forwarded_iff_status_zero (files : queue_id)
    (items : list TransferMsg.t) s :
  let rows := file_rows (session s) in
  let script := zip items (upcoming (length items) (query_faults s)) in
  hd None (commit_faults s) = None →
  ∃ s', add_transfers_chunk files items s = (Ok tt, s')
    ∧ get_queue files (queues s')
      = get_queue files (queues s) ++ (script ≫= forwards rows)
    ∧ batch_rows (database s')
      = batch_rows (session s) ++ (script ≫= batch_of rows)
    ∧ logged s' = logged s ++ (script ≫= errors_of)
    ∧ (∀ x, x.2 = None → matched rows x.1 ≠ [] →
         batch_of rows x = [new_batch x.1 (matched rows x.1)]
         ∧ errors_of x = []
         ∧ (TransferMsg.status x.1 = 0%Z → forwards rows x = file_msgs x.1)
         ∧ (TransferMsg.status x.1 ≠ 0%Z → forwards rows x = []))
    ∧ (∀ x, x.2 = None → matched rows x.1 = [] →
         batch_of rows x = [] ∧ forwards rows x = [] ∧ errors_of x = [])
    ∧ (∀ x ex, x.2 = Some ex →
         batch_of rows x = [] ∧ forwards rows x = []
         ∧ errors_of x
           = [(ERROR, "retrieving database records of files in a batch failed: "
                      +:+ ex)]).
Proof.
  intros rows script Hc. rewrite add_transfers_chunk_spec, Hc. cbv zeta.
  eexists. split; [done|]. cbn [queues database batch_rows logged].
  rewrite get_set_queue. split_and!; try done.
  - intros [item fault] Hx Hm. cbn [fst snd] in *. subst fault.
    unfold batch_of, forwards, errors_of. cbn [fst snd].
    destruct (matched rows item) as [|i records]; [done|].
    split_and!; try done.
    + intros Hst. by rewrite decide_True.
    + intros Hst. by rewrite decide_False.
  - intros [item fault] Hx Hm. cbn [fst snd] in *. subst fault.
    unfold batch_of, forwards, errors_of. cbn [fst snd]. by rewrite Hm.
  - intros [item fault] ex Hx. cbn [fst snd] in *. subst fault.
    unfold batch_of, forwards, errors_of. by cbn [fst snd].
Qed.

Lemma held_all_app items items' rows rows1 rows2 :
  held_all items rows rows1 → held_all items' rows1 rows2 →
  held_all (items ++ items') rows rows2.
Proof.
  induction 1 as [|item items rows rows0 rows1 Hheld _ IH]; [done|].
  intros Hrest. econstructor; [exact Hheld|]. by apply IH.
Qed.

(** An item whose lookup is answered, seen at the File table of the
    session. *)
Lemma update_file_held item s :
  hd None (query_faults s) = None →
  ∃ rows',
    update_file item s
    = (Ok tt, State (Tables rows' (batch_rows (session s))) (database s)
                    (logged s) (drop 1 (query_faults s)) (commit_faults s)
                    (queues s) (transfers s))
    ∧ held item (file_rows (session s)) rows'.
Proof.
  intros Hq. rewrite update_file_unfold, Hq.
  destruct (first _ _) as [[i f]|] eqn:Hfind; unfold first in Hfind.
  - apply list_find_Some in Hfind as (Hi & [Hrel Hname] & Hfirst).
    eexists. split; [done|].
    rewrite (alter_as_insert _ _ _ _ Hi). unfold File.set_held_on.
    apply held_first_match; try done.
    intros j g Hlt Hj. by apply (Hfirst j g).
  - apply list_find_None in Hfind. exists (file_rows (session s)). split.
    + unfold after_queries. by destruct (session s).
    + apply held_no_match. intros f Hin.
      by eapply Forall_forall in Hfind.
Qed.

Lemma for_each_update_file_held items s :
  Forall (λ x, x = None) (upcoming (length items) (query_faults s)) →
  ∃ rows',
    for_each items update_file s
    = (Ok tt, State (Tables rows' (batch_rows (session s))) (database s)
                    (logged s) (drop (length items) (query_faults s))
                    (commit_faults s) (queues s) (transfers s))
    ∧ held_all items (file_rows (session s)) rows'.
Proof.
  revert s. induction items as [|item items IH]; intros s Hq.
  - exists (file_rows (session s)). split; [|constructor].
    cbn. rewrite drop_0. by destruct s as [[] ? ? ? ? ? ?].
  - cbn [length upcoming] in Hq. apply Forall_cons in Hq as [Hq Hrest].
    destruct (update_file_held item s Hq) as (rows1 & Hrun & Hheld).
    cbn [for_each]. rewrite (bind_Ok _ _ _ _ _ Hrun).
    edestruct IH as (rows2 & -> & Hall); [exact Hrest|].
    cbn [session database logged query_faults commit_faults queues transfers
         file_rows batch_rows] in *.
    exists rows2. split; [by rewrite drop_drop|].
    by econstructor.
Qed.

(** A chunk whose lookups are answered and whose commit succeeds. *)
Lemma update_files_chunk_held (items : list FileMsg.t) s :
  Forall (λ x, x = None) (upcoming (length items) (query_faults s)) →
  hd None (commit_faults s) = None →
  ∃ rows',
    update_files_chunk items s
    = (Ok tt, State (Tables rows' (batch_rows (session s)))
                    (Tables rows' (batch_rows (session s)))
                    (logged s) (drop (length items) (query_faults s))
                    (drop 1 (commit_faults s)) (queues s) (transfers s))
    ∧ held_all items (file_rows (session s)) rows'.
Proof.
  intros Hq Hc.
  destruct (for_each_update_file_held items s Hq) as (rows' & Hrun & Hall).
  exists rows'. split; [|done].
  unfold update_files_chunk. rewrite (bind_Ok _ _ _ _ _ Hrun).
  unfold bind. rewrite try_commit_unfold.
  cbn [session database logged query_faults commit_faults queues transfers].
  by rewrite Hc.
Qed.

(** A run on a database that fails nothing. *)
Lemma _update_files_sound fuel inp chunk_size s :
  manager_more.sound s → (0 < chunk_size)%Z →
  length (get_queue inp (queues s)) < fuel →
  ∃ s', _update_files fuel inp chunk_size s = (Ok tt, s')
        ∧ logged s' = logged s.
Proof.
  intros [Hqf Hcf] Hsize. revert s Hqf Hcf.
  induction fuel as [|fuel IH]; intros s Hqf Hcf Hlen; [lia|].
  rewrite _update_files_unfold.
  destruct (get_queue inp (queues s)) as [|x q] eqn:Hq; [by exists s|].
  cbv zeta. set (n := Z.to_nat chunk_size).
  set (s1 := State _ _ _ _ _ _ _).
  destruct (update_files_chunk_held (take n (x :: q)) s1) as (rows1 & -> & _).
  { subst s1. cbn [query_faults]. rewrite Hqf. apply upcoming_nil. }
  { subst s1. cbn [commit_faults]. by rewrite Hcf. }
  subst s1.
  cbn [session database logged query_faults commit_faults queues transfers].
  edestruct IH as (s' & -> & Hlog).
  - cbn [query_faults]. by rewrite Hqf, drop_nil.
  - cbn [commit_faults]. by rewrite Hcf.
  - cbn [queues]. rewrite get_set_queue, length_drop. cbn [length] in *. lia.
  - by exists s'.
Qed.

(** C10: what [_update_files] does to the store for the completed items
    it handles.  Of a chunk whose lookups are answered and whose commit
    succeeds, the body of the loop returns without raising and without
    logging, and the File table it commits is that of the session with
    the items handled one after the other: an item whose (relativePath,
    filename) no record has changes nothing, and for an item that some
    record matches the first such record gets its held time, with every
    other field of it and every other record unchanged; batches and
    queues are not touched.  A run of [_update_files] on a database that
    fails nothing commits this for the whole input queue, which it
    empties. *)
Theorem C10_update_sets_first_match_only :
  (∀ (items : list FileMsg.t) s,
     Forall (λ x, x = None) (upcoming (length items) (query_faults s)) →
     hd None (commit_faults s) = None →
     ∃ s', update_files_chunk items s = (Ok tt, s')
       ∧ logged s' = logged s ∧ queues s' = queues s
       ∧ session s' = database s'
       ∧ batch_rows (database s') = batch_rows (session s)
       ∧ held_all items (file_rows (session s)) (file_rows (database s')))
  ∧ (∀ (fuel : nat) (inp : queue_id) (chunk_size : Z) s,
       manager_more.sound s → manager_more.clean s → (0 < chunk_size)%Z →
       length (get_queue inp (queues s)) < fuel →
       ∃ s', _update_files fuel inp chunk_size s = (Ok tt, s')
         ∧ logged s' = logged s
         ∧ get_queue inp (queues s') = []
         ∧ session s' = database s'
         ∧ batch_rows (database s') = batch_rows (database s)
         ∧ held_all (get_queue inp (queues s))
                    (file_rows (database s)) (file_rows (database s'))).
Proof.
  pose proof update_files_chunk_held as Hchunk.
  split.
  - intros items s Hq Hc.
    destruct (Hchunk items s Hq Hc) as (rows' & -> & Hall).
    eexists. split; [done|]. by split_and!.
  - intros fuel inp chunk_size s [Hqf Hcf] Hclean Hsize. revert s Hqf Hcf Hclean.
    induction fuel as [|fuel IH]; intros s Hqf Hcf Hclean Hlen; [lia|].
    rewrite _update_files_unfold.
    destruct (get_queue inp (queues s)) as [|x q] eqn:Hq.
    { exists s. split_and!; try done. constructor. }
    cbv zeta. set (n := Z.to_nat chunk_size).
    set (s1 := State _ _ _ _ _ _ _).
    destruct (Hchunk (take n (x :: q)) s1) as (rows1 & -> & Hall1).
    { subst s1. cbn [query_faults]. rewrite Hqf. apply upcoming_nil. }
    { subst s1. cbn [commit_faults]. by rewrite Hcf. }
    subst s1.
    cbn [session database logged query_faults commit_faults queues transfers].
    edestruct IH as (s' & -> & Hlog & Hempty & Hclean' & Hbatches & Hall2).
    + cbn [query_faults]. by rewrite Hqf, drop_nil.
    + cbn [commit_faults]. by rewrite Hcf.
    + done.
    + cbn [queues]. rewrite get_set_queue, length_drop. cbn [length] in *. lia.
    + cbn [session database logged queues file_rows batch_rows] in *.
      rewrite get_set_queue in Hall2.
      exists s'. split_and!; try done.
      * by rewrite Hbatches, Hclean.
      * rewrite <- (take_drop n (x :: q)). rewrite <- Hclean.
        by eapply held_all_app.
Qed.

End manager_properties.

(** ** The manager and its timeouts *)

Section manager_init.
Context `{Externals} {World : Type} `{!Host World} `{!Hashing}.
Import endpoint manager.
Implicit Types s : site World.

Lemma Porter_init_time config chunk_size timeout s p s' :
  Porter_init config chunk_size timeout s = (Ok p, s') → time p = timeout.
Proof.
  unfold Porter_init. case_decide; [|by unfold bind, logger, modify, raise].
  unfold bind, getitem, ret, raise.
  repeat (destruct (config !! _); [|done]). by intros [= <- _].
Qed.

Lemma Wiper_init_time config timeout s wp s' :
  Wiper_init config timeout s = (Ok wp, s') → wiper_time wp = timeout.
Proof.
  unfold Wiper_init. case_decide; [|by unfold bind, logger, modify, raise].
  unfold bind, getitem, ret, raise.
  repeat (destruct (config !! _); [|done]). by intros [= <- _].
Qed.

(** C9: whatever configuration the manager accepts, the [Wiper] it builds
    has no timeout, so the child process of the staging sweep is started
    with timeout [None]; the [Porter] built from the same configuration
    has the timeout of the general settings. *)
Theorem C9_wiper_runs_without_timeout (defaults : Settings.t)
    (configuration : Configuration) s (m : Manager) s' :
  Manager_init defaults configuration s = (Ok m, s') →
  wiper_time (wiper m) = None
  ∧ time (porter m)
    = Settings.timeout (match cfg_general configuration with
                        | Some config => update defaults config
                        | None => defaults
                        end)
  ∧ ∀ st user host path args,
      wiper_dest (wiper m) = (user, host, path) →
      shlex.split (find_cmd user host path) = Ok args →
      world (Wiper_run (wiper m) st).2 = (spawn args None (world st)).2.
Proof.
  unfold Manager_init, bind, getkey, lift, ret, raise.
  destruct (cfg_database configuration) as [db|]; [|done].
  destruct (setup_db_conn db) as [eng|?|]; [|done..].
  destruct (cfg_handoff configuration) as [handoff|]; [|done].
  destruct (Finder_init handoff) as [fd|?|]; [|done..].
  destruct (cleaner_init handoff _) as [cl|?|]; [|done..].
  destruct (cfg_endpoint configuration) as [ep|]; [|done].
  destruct (Porter_init ep _ _ s) as [[p| |] s1] eqn:Hp; [|done..].
  destruct (Wiper_init ep None s1) as [[wp| |] s2] eqn:Hw; [|done..].
  intros [= <- <-]. cbn [wiper porter].
  apply Porter_init_time in Hp. apply Wiper_init_time in Hw.
  split_and!; [done..|].
  intros st user host path args Hdest Hsplit.
  unfold Wiper_run. rewrite Hdest, Hw. unfold bind.
  rewrite execute_unfold, Hsplit. cbv zeta.
  destruct (spawn args None (world st)) as [[rc out err|out err|msg|e] w']; cbn [snd];
    [destruct (rc =? 0)%Z eqn:Hrc|..]; try done.
  by rewrite Hrc.
Qed.

End manager_init.

(** ** Examples *)

Section endpoint_examples.
Import endpoint porter_spec samples more_samples.

(** C1, on a host where the first three processes started exit with 0
    and the next one would fail: the run of the Porter of the scenario
    starts three processes and puts exactly (/data, groupA, data.fits) on
    the output queue. *)
Lemma C1_scenario_on_a_scripted_host :
  let s := idle three_good_commands [("/data", "groupA", "data.fits")] in
  Porter_init endpoint_config 1 None s = (Ok porter, s)
  ∧ (run 2 porter s).1 = Ok tt
  ∧ world (run 2 porter s).2
    = [Exited 1 (Some (Text "")) (Some (Text "Connection refused"))]
  ∧ completed (run 2 porter s).2 = [("/data", "groupA", "data.fits")].
Proof.
  epose proof (C1_single_file_scenario (World:=list child) endpoint_config
                 "user" "host" "/data" 1 None
                 (idle three_good_commands [("/data", "groupA", "data.fits")])
                 _ _ _ _ _ _ _ _ _) as HC.
  edestruct HC as (p & Hinit & Hrun).
  - reflexivity.
  - reflexivity.
  - reflexivity.
  - reflexivity.
  - reflexivity.
  - reflexivity.
  - vm_compute. reflexivity.
  - vm_compute. reflexivity.
  - vm_compute. reflexivity.
  - assert (p = porter) as -> by (vm_compute in Hinit; injection Hinit as <-; reflexivity).
    split; [exact Hinit|]. rewrite (Hrun 2%nat (le_n 2)). split_and!; reflexivity.
Defined.

(** C2, on a child that exits with 255 within a timeout of 30 seconds. *)
Lemma C2_exit_255_is_remote_io_error :
  (execute "ssh user@host mkdir -p /buf/groupA /stage/groupA" (Some 30%Z)
     (idle [Exited 255 (Some (Text "")) (Some (Text "Connection refused"))] [])).1
  = Ok (errno.EREMOTEIO, Some (Text ""), Some (Text "Connection refused")).
Proof.
  destruct (C2_process_runner_status_mapping (World:=list child)
              "ssh user@host mkdir -p /buf/groupA /stage/groupA" (Some 30%Z)
              (idle [Exited 255 (Some (Text "")) (Some (Text "Connection refused"))] [])
              ["ssh"; "user@host"; "mkdir"; "-p"; "/buf/groupA"; "/stage/groupA"]
              (Exited 255 (Some (Text "")) (Some (Text "Connection refused"))) [])
    as (status & out & err & s' & Hrun & _ & _ & _ & (-> & -> & _ & Hst) & _).
  - reflexivity.
  - reflexivity.
  - discriminate.
  - discriminate.
  - rewrite Hrun, Hst; [reflexivity|discriminate].
Defined.

(** C2 as stated fails: a command line with an unclosed quote, here from a
    file name with an apostrophe, makes [execute] raise, on any host; and
    so does a child that is started and writes what is not text, here the
    contents of a binary file. *)
Lemma C2_execute_can_raise :
  execute "scp -BCpq /data/groupA/it's.fits user@host:/stage/groupA" None
          (idle tt [])
  = (Raise (ValueError "No closing quotation"),
     Site tt [(DEBUG, "Executing scp -BCpq /data/groupA/it's.fits user@host:/stage/groupA.")]
          [] [])
  ∧ execute "ssh user@host cat /buf/groupA/data.fits" None
            (idle [Undecodable "'utf-8' codec can't decode byte 0xff in position 0: invalid start byte"] [])
    = (Raise (UnicodeDecodeError "'utf-8' codec can't decode byte 0xff in position 0: invalid start byte"),
       Site [] [(DEBUG, "Executing ssh user@host cat /buf/groupA/data.fits.")]
            [] []).
Proof. split; reflexivity. Qed.

(** C5, on three requests at two locations, the second location first
    seen between the two requests of the first: the Porter deals with
    both files of the first location before it turns to the second. *)
Lemma C5_three_requests_two_locations :
  (group three_requests).*1 = [("/data", "groupA"); ("/data", "groupB")]
  ∧ (∀ files, (("/data", "groupA"), files) ∈ group three_requests →
       files = ["a.fits"; "c.fits"])
  ∧ filter (λ msg, String.prefix "Executing" msg = true)
           (logged (run 2 roomy (idle tt three_requests)).2).*2
    = ["Executing ssh user@host mkdir -p /buf/groupA /stage/groupA.";
       "Executing scp -BCpq /data/groupA/a.fits /data/groupA/c.fits user@host:/stage/groupA.";
       "Executing ssh user@host mv /stage/groupA/a.fits /buf/groupA/a.fits.";
       "Executing ssh user@host mv /stage/groupA/c.fits /buf/groupA/c.fits.";
       "Executing ssh user@host mkdir -p /buf/groupB /stage/groupB.";
       "Executing scp -BCpq /data/groupB/b.fits user@host:/stage/groupB.";
       "Executing ssh user@host mv /stage/groupB/b.fits /buf/groupB/b.fits."].
Proof.
  destruct (C5_grouping_is_exact_partition (World:=unit) three_requests)
    as (_ & Hentries & _ & _ & Hkeys & Hrun).
  split_and!.
  - rewrite Hkeys. reflexivity.
  - intros files Hin. apply Hentries in Hin as [_ ->]. reflexivity.
  - rewrite (Hrun roomy 1%nat (idle tt three_requests)).
    + vm_compute. reflexivity.
    + reflexivity.
    + discriminate.
Defined.

(** C6, on a group of three files whose second move fails. *)
Lemma C6_second_move_fails :
  completed (transfer porter (("/data", "groupA"), ["a.fits"; "b.fits"; "c.fits"])
               (idle second_move_fails [])).2
  = [("/data", "groupA", "a.fits"); ("/data", "groupA", "c.fits")].
Proof.
  epose proof (C6_group_failure_handling (World:=list child) porter "/data" "groupA"
                 ["a.fits"; "b.fits"; "c.fits"] (idle second_move_fails [])
                 0%Z _ _ _ 0%Z _ _ _ [0%Z; errno.EREMOTEIO; 0%Z] _) as HC.
  edestruct HC as (s' & Hrun & _ & Hdone).
  - vm_compute. reflexivity.
  - intros _. vm_compute. reflexivity.
  - intros _ _.
    eapply moves_cons; [vm_compute; reflexivity..|].
    eapply moves_cons; [vm_compute; reflexivity..|].
    eapply moves_cons; [vm_compute; reflexivity..|].
    apply moves_nil.
  - rewrite Hrun. cbn [snd]. rewrite Hdone. reflexivity.
Defined.

End endpoint_examples.

Section manager_examples.
Import manager manager_spec samples.

(** C3, on one discovered file and a commit that succeeds. *)
Lemma C3_committed_file_is_forwarded :
  get_queue pending
    (queues (add_files_chunk pending [data_fits]
               (store [] (Queues [data_fits] [] [] []) [])).2)
  = [data_fits].
Proof.
  destruct C3_commit_gates_forwarding as (Hadd & _ & _).
  destruct (Hadd pending [data_fits] (store [] (Queues [data_fits] [] [] []) []))
    as (r & s' & Hrun & Hok & _ & Hfwd).
  rewrite Hrun. cbn [snd]. rewrite Hfwd.
  - reflexivity.
  - reflexivity.
  - apply Hok. repeat constructor.
Defined.

(** C3 as stated fails for [_add_transfers]: the chunk holds one transfer
    item, for a recorded file, whose status is not 0; the commit succeeds
    and records the batch, and nothing is forwarded. *)
Lemma C3_failed_transfer_is_committed_not_forwarded :
  (add_transfers_chunk processed [failed] (store [data_fits_row] no_queues [])).1
  = Ok tt
  ∧ hd None (commit_faults (store [data_fits_row] no_queues [])) = None
  ∧ batch_rows (database (add_transfers_chunk processed [failed]
                            (store [data_fits_row] no_queues [])).2)
    = [new_batch failed [0%nat]]
  ∧ get_queue processed
      (queues (add_transfers_chunk processed [failed]
                 (store [data_fits_row] no_queues [])).2)
    = [].
Proof. by vm_compute. Qed.

(** C4, on a file that is discovered again, unchanged. *)
Lemma C4_rediscovered_file :
  stage_file [] data_fits (store [data_fits_row] (Queues [data_fits] [] [] []) [])
  = (Ok [], after_queries 1 (store [data_fits_row] (Queues [data_fits] [] [] []) []))
  ∧ no_duplicate_keys
      (_add_files 2 discovered pending 10
         (store [data_fits_row] (Queues [data_fits] [] [] []) [])).2.
Proof.
  destruct C4_known_files_are_not_recorded_again as [Hstage Hrun]. split.
  - apply Hstage; [reflexivity|]. apply list_elem_of_here.
  - apply (Hrun 2%nat discovered pending 10%Z).
    + discriminate.
    + split; apply NoDup_singleton.
    + split; [apply NoDup_singleton|exact I].
Defined.

(** C4 as stated fails: two items of one chunk with the same key, none of
    them recorded yet, are both recorded. *)
Lemma C4_same_key_twice_in_a_chunk :
  no_duplicate_keys (store [] (Queues [data_fits; data_fits] [] [] []) [])
  ∧ (_add_files 2 discovered pending 10
       (store [] (Queues [data_fits; data_fits] [] [] []) [])).1 = Ok tt
  ∧ ¬ no_duplicate_keys
        (_add_files 2 discovered pending 10
           (store [] (Queues [data_fits; data_fits] [] [] []) [])).2.
Proof.
  split_and!.
  - split; constructor.
  - reflexivity.
  - intros [Hs _].
    change (NoDup [item_key data_fits; item_key data_fits]) in Hs.
    apply NoDup_cons in Hs as [Hin _]. apply Hin, list_elem_of_here.
Qed.

(** C7 fails on the code: for a transfer item with pre/trans/post start
    times 1, 2, 3 and durations 10, 20, 30, the batch that
    [_add_transfers] commits has the pre time and the pre duration in all
    three pairs of columns. *)
Theorem C7_batch_times_are_all_the_pre_times :
  batch_rows (database (add_transfers_chunk processed [transferred]
                          (store [data_fits_row] no_queues [])).2)
  = [Batch.mk 1%Z 10%Z 1%Z 10%Z 1%Z 10%Z 2880 5%Z 0 "" [0%nat]]
  ∧ fromtimestamp (TransferMsg.trans_start transferred) = 2%Z
  ∧ timedelta_seconds (TransferMsg.trans_duration transferred) = 20%Z
  ∧ fromtimestamp (TransferMsg.post_start transferred) = 3%Z
  ∧ timedelta_seconds (TransferMsg.post_duration transferred) = 30%Z.
Proof. by vm_compute. Qed.

(** C8, on a chunk with a successful and a failed transfer of a recorded
    file: only the files of the successful one are forwarded. *)
Lemma C8_only_the_successful_transfer_is_forwarded :
  get_queue processed
    (queues (add_transfers_chunk processed [transferred; failed]
               (store [data_fits_row] no_queues [])).2)
  = file_msgs transferred.
Proof.
  destruct (C8_forwarded_iff_status_zero processed [transferred; failed]
              (store [data_fits_row] no_queues []) eq_refl)
    as (s' & Hrun & Hq & _).
  rewrite Hrun. cbn [snd]. rewrite Hq. reflexivity.
Defined.

(** C8 as stated fails: a transfer item that matches no record is dropped
    without any error being logged. *)
Lemma C8_unmatched_transfer_logs_nothing :
  matched [] transferred = []
  ∧ (add_transfers_chunk processed [transferred] (store [] no_queues [])).1 = Ok tt
  ∧ logged (add_transfers_chunk processed [transferred] (store [] no_queues [])).2
    = []
  ∧ batch_rows (database (add_transfers_chunk processed [transferred]
                            (store [] no_queues [])).2) = []
  ∧ get_queue processed
      (queues (add_transfers_chunk processed [transferred]
                 (store [] no_queues [])).2) = [].
Proof. by vm_compute. Qed.

(** C9, on a configuration that sets a timeout of 30 seconds. *)
Lemma C9_timeout_reaches_the_porter_only :
  ∃ m, Manager_init defaults configuration (idle tt []) = (Ok m, idle tt [])
       ∧ endpoint.wiper_time (wiper m) = None
       ∧ endpoint.time (manager.porter m) = Some 30%Z.
Proof.
  destruct (Manager_init (World:=unit) defaults configuration (idle tt []))
    as [[m| |] s'] eqn:Hinit; try discriminate Hinit.
  destruct (C9_wiper_runs_without_timeout defaults configuration (idle tt []) m s' Hinit)
    as (Hw & Hp & _).
  exists m. vm_compute in Hinit. injection Hinit as <- <-. split_and!; reflexivity.
Defined.

(** C10, on two records of the same file and one completed item for it:
    the run commits the held time of the first record only. *)
Lemma C10_first_of_two_records :
  let s := store [data_fits_row; data_fits_row] (Queues [] [] [] [data_fits]) [] in
  (_update_files 2 completed 10 s).1 = Ok tt
  ∧ logged (_update_files 2 completed 10 s).2 = []
  ∧ File.held_on <$> file_rows (database (_update_files 2 completed 10 s).2)
    = [Some 1600000000%Z; None].
Proof.
  destruct C10_update_sets_first_match_only as [_ Hrun].
  destruct (Hrun 2%nat completed 10%Z
              (store [data_fits_row; data_fits_row] (Queues [] [] [] [data_fits]) []))
    as (s' & Hrun' & Hlog & _).
  - split; reflexivity.
  - reflexivity.
  - reflexivity.
  - simpl. lia.
  - cbv zeta. rewrite Hrun'. cbn [fst snd]. split; [reflexivity|].
    split; [exact Hlog|].
    vm_compute in Hrun'. injection Hrun' as <-. reflexivity.
Defined.

End manager_examples.

(** * Further properties *)

(** ** Strings and words *)

Lemma append_cons c s t : String c s +:+ t = String c (s +:+ t).
Proof. reflexivity. Qed.

Lemma append_nil_r s : s +:+ "" = s.
Proof. induction s as [|c s IH]; [done|]. by rewrite append_cons, IH. Qed.

Lemma append_assoc s t u : (s +:+ t) +:+ u = s +:+ t +:+ u.
Proof. induction s as [|c s IH]; [done|]. by rewrite !append_cons, IH. Qed.

Lemma append_nil_inv s t : s +:+ t = "" → s = "" ∧ t = "".
Proof. by destruct s. Qed.

Section word_facts.
Import words.

Lemma wordy_append s t : wordy (s +:+ t) = wordy s && wordy t.
Proof.
  induction s as [|c s IH]; [done|].
  rewrite append_cons. cbn [wordy]. by rewrite IH, andb_assoc.
Qed.

Lemma token_append s t : token s → wordy t = true → token (s +:+ t).
Proof.
  intros [Hne Hs] Ht. split.
  - intros [? _]%append_nil_inv. done.
  - by rewrite wordy_append, Hs, Ht.
Qed.

Lemma token_append_r s t : wordy s = true → token t → token (s +:+ t).
Proof.
  intros Hs [Hne Ht]. split.
  - intros [_ ?]%append_nil_inv. done.
  - by rewrite wordy_append, Hs, Ht.
Qed.

Lemma token_wordy s : token s → wordy s = true.
Proof. by intros [_ ?]. Qed.

Lemma wordy_join_step a b :
  wordy a = true → wordy b = true → wordy (posixpath.join_step a b) = true.
Proof.
  intros Ha Hb. unfold posixpath.join_step.
  destruct (posixpath.startswith b posixpath.sep); [done|].
  destruct (_ || _); rewrite !wordy_append, ?Ha, ?Hb; done.
Qed.

(** Joining a directory that is a token with a relative name gives a
    token. *)
Lemma token_join a b :
  token a → wordy b = true → token (posixpath.join a [b]).
Proof.
  intros [Hne Ha] Hb. split; [|by apply wordy_join_step].
  cbn [posixpath.join fold_left]. unfold posixpath.join_step.
  destruct (posixpath.startswith b posixpath.sep) eqn:Hs.
  - by destruct b.
  - destruct (_ || _); intros [? _]%append_nil_inv; done.
Qed.

(** *** What the lexer does with words *)

Lemma word_char_inv c :
  word_char c = true →
  shlex.is_whitespace c = false ∧ shlex.is_quote c = false
  ∧ shlex.is_escape c = false.
Proof.
  unfold word_char. rewrite !andb_true_iff, !negb_true_iff. tauto.
Qed.

Lemma snoc_append tok c t : shlex.snoc tok c +:+ t = tok +:+ String c t.
Proof. unfold shlex.snoc. by rewrite append_assoc. Qed.

Lemma lex_word t cs st quoted tok acc :
  wordy t = true → t ≠ "" → st = shlex.White ∨ st = shlex.Word →
  shlex.lex (t +:+ cs) st quoted tok acc
  = shlex.lex cs shlex.Word quoted (tok +:+ t) acc.
Proof.
  revert st tok. induction t as [|c t IH]; intros st tok Hw Hne Hst; [done|].
  cbn [wordy] in Hw. apply andb_true_iff in Hw as [Hc Ht].
  apply word_char_inv in Hc as (Hws & Hq & He).
  rewrite append_cons.
  assert (shlex.lex (String c (t +:+ cs)) st quoted tok acc
          = shlex.lex (t +:+ cs) shlex.Word quoted (shlex.snoc tok c) acc) as ->.
  { destruct Hst as [-> | ->]; cbn [shlex.lex]; by rewrite Hws, Hq, He. }
  destruct t as [|c' t].
  - reflexivity.
  - rewrite IH by (done || by right). by rewrite snoc_append.
Qed.

Lemma lex_space cs quoted tok acc :
  tok ≠ "" →
  shlex.lex (String " " cs) shlex.Word quoted tok acc
  = shlex.lex cs shlex.White false "" (acc ++ [tok]).
Proof.
  intros Hne. cbn [shlex.lex]. change (shlex.is_whitespace " ") with true.
  cbv iota. apply String.eqb_neq in Hne as ->. done.
Qed.

(** Words joined by single spaces are split into these words. *)
Lemma lex_concat ts acc :
  Forall token ts →
  shlex.lex (String.concat " " ts) shlex.White false "" acc = Ok (acc ++ ts).
Proof.
  intros Hts. revert acc. induction Hts as [|t ts [Hne Hw] _ IH]; intros acc.
  - by rewrite app_nil_r.
  - destruct ts as [|t' ts].
    + cbn [String.concat]. rewrite <- (append_nil_r t) at 1.
      rewrite lex_word by (done || by left). cbn [shlex.lex].
      change ("" +:+ t) with t. apply String.eqb_neq in Hne as ->. done.
    + change (String.concat " " (t :: t' :: ts))
        with (t +:+ String " " (String.concat " " (t' :: ts))).
      rewrite lex_word by (done || by left). change ("" +:+ t) with t.
      rewrite lex_space by done. rewrite IH. by rewrite <- app_assoc.
Qed.

Lemma split_concat ts :
  Forall token ts → shlex.split (String.concat " " ts) = Ok ts.
Proof. intros Hts. unfold shlex.split. by rewrite lex_concat. Qed.

Lemma split_total s : shlex.split s ≠ OutOfFuel.
Proof.
  unfold shlex.split. generalize shlex.White, false, "", (@nil string).
  induction s as [|c s IH]; intros st q tok acc.
  - cbn [shlex.lex]. destruct st; try done; by destruct (_ || _).
  - cbn [shlex.lex].
    destruct st; repeat (match goal with |- context [if ?b then _ else _] =>
                           destruct b end); apply IH.
Qed.

Lemma concat_app_tokens (l k : list string) :
  l ≠ [] → k ≠ [] →
  String.concat " " (l ++ k) = String.concat " " l +:+ " " +:+ String.concat " " k.
Proof.
  intros Hl Hk. induction l as [|x l IH]; [done|].
  destruct l as [|y l].
  - destruct k; done.
  - change (String.concat " " ((x :: y :: l) ++ k))
      with (x +:+ " " +:+ String.concat " " ((y :: l) ++ k)).
    rewrite IH by done.
    change (String.concat " " (x :: y :: l))
      with (x +:+ " " +:+ String.concat " " (y :: l)).
    by rewrite !append_assoc.
Qed.

End word_facts.

(** ** The command lines and their argument vectors *)

Section commands.
Import words endpoint.

Lemma mkdir_cmd_concat user host dst tmp :
  mkdir_cmd user host dst tmp
  = String.concat " " ["ssh"; user +:+ "@" +:+ host; "mkdir"; "-p"; dst; tmp].
Proof. unfold mkdir_cmd. cbn [String.concat]. by rewrite !append_assoc. Qed.

Lemma mv_cmd_concat user host s d :
  mv_cmd user host s d
  = String.concat " " ["ssh"; user +:+ "@" +:+ host; "mv"; s; d].
Proof. unfold mv_cmd. cbn [String.concat]. by rewrite !append_assoc. Qed.

Lemma find_cmd_concat user host path :
  find_cmd user host path
  = String.concat " " ["ssh"; user +:+ "@" +:+ host; "find"; path; "-type"; "d";
                       "-empty"; "-mindepth"; "1"; "-delete"].
Proof. unfold find_cmd. cbn [String.concat]. by rewrite !append_assoc. Qed.

Lemma scp_cmd_concat sources user host tmp :
  sources ≠ [] →
  scp_cmd sources user host tmp
  = String.concat " " (["scp"; "-BCpq"] ++ sources
                       ++ [user +:+ "@" +:+ host +:+ ":" +:+ tmp]).
Proof.
  intros Hne. unfold scp_cmd.
  change (["scp"; "-BCpq"] ++ sources ++ [user +:+ "@" +:+ host +:+ ":" +:+ tmp])
    with ("scp" :: "-BCpq" :: (sources ++ [user +:+ "@" +:+ host +:+ ":" +:+ tmp])).
  destruct (sources ++ [_]) as [|x l] eqn:E; [by destruct sources|].
  change (String.concat " " ("scp" :: "-BCpq" :: x :: l))
    with ("scp -BCpq " +:+ String.concat " " (x :: l)).
  rewrite <- E, concat_app_tokens by done. cbn [String.concat].
  by rewrite ?append_assoc.
Qed.

Lemma token_login user host : token user → token host → token (user +:+ "@" +:+ host).
Proof.
  intros Hu Hh. apply token_append; [done|].
  rewrite wordy_append. by rewrite (token_wordy host).
Qed.

Lemma token_remote user host path :
  token user → token host → wordy path = true →
  token (user +:+ "@" +:+ host +:+ ":" +:+ path).
Proof.
  intros Hu Hh Hp. apply token_append; [done|].
  rewrite !wordy_append. by rewrite (token_wordy host), Hp.
Qed.

Lemma token_literal s : s ≠ "" → wordy s = true → token s.
Proof. by split. Qed.

End commands.

(** ** More on [execute], [Porter] and [Wiper] *)

Section porter_more.
Context {World : Type} `{!Host World} `{!Hashing}.
Import words endpoint porter_spec.
Implicit Types s : site World.

#[local] Ltac nothing_new :=
  exists []; rewrite app_nil_r; split; [congruence|apply sublist_nil_l].

Lemma execute_result cmd t s :
  (execute cmd t s).1 ≠ OutOfFuel
  ∧ awaiting (execute cmd t s).2 = awaiting s
  ∧ completed (execute cmd t s).2 = completed s.
Proof.
  destruct (execute cmd t s) as [r s'] eqn:E. cbn [fst snd].
  split; [|by eapply execute_queues].
  rewrite execute_unfold in E. cbv zeta in E. pose proof (split_total cmd) as Hs.
  destruct (shlex.split cmd) as [args|e|]; [|by injection E as <- _|done].
  destruct (spawn args t (world s)) as [[rc out err|out err|msg|e] w'];
    [destruct (rc =? 0)%Z|..]; by injection E as <- _.
Qed.

Lemma move_frame p head tail dst tmp fn s r s' :
  move p head tail dst tmp fn s = (r, s') →
  r ≠ OutOfFuel ∧ awaiting s' = awaiting s
  ∧ ∃ l, completed s' = completed s ++ l ∧ l `sublist_of` [(head, tail, fn)].
Proof.
  unfold move. destruct (dest p) as [[user host] root]. unfold bind.
  pose proof (execute_result (mv_cmd user host (posixpath.join tmp [fn])
                                (posixpath.join dst [fn])) (time p) s)
    as (Hf & Ha & Hc).
  destruct (execute _ _ s) as [[[[status out] err]|e|] s1]; cbn [fst snd] in *;
    [|intros [= <- <-]; split_and!; [done..|nothing_new]|done].
  destruct (negb _); intros [= <- <-]; cbn [awaiting completed];
    (split; [done|]); (split; [done|]); rewrite Hc.
  - nothing_new.
  - by exists [(head, tail, fn)].
Qed.

Lemma moves_frame p head tail dst tmp files s r s' :
  for_each files (move p head tail dst tmp) s = (r, s') →
  r ≠ OutOfFuel ∧ awaiting s' = awaiting s
  ∧ ∃ l, completed s' = completed s ++ l
         ∧ l `sublist_of` ((λ fn, (head, tail, fn)) <$> files).
Proof.
  revert s. induction files as [|fn files IH]; intros s.
  - intros [= <- <-]. split_and!; [done..|]. nothing_new.
  - cbn [for_each]. unfold bind.
    destruct (move p head tail dst tmp fn s) as [r1 s1] eqn:E.
    apply move_frame in E as (Hf & Ha & l1 & Hc & Hl).
    destruct r1 as [[]|e|]; [|intros [= <- <-]|done].
    + intros (Hf2 & Ha2 & l2 & Hc2 & Hl2)%IH. split_and!; [done|congruence|].
      exists (l1 ++ l2). rewrite Hc2, Hc, <- app_assoc. split; [done|].
      rewrite fmap_cons. change ((head, tail, fn) :: ?k) with ([(head, tail, fn)] ++ k).
      by apply sublist_app.
    + split_and!; [done..|]. exists l1. split; [done|].
      rewrite fmap_cons. etrans; [exact Hl|]. apply sublist_skip, sublist_nil_l.
Qed.

Lemma transfer_frame p entry s r s' :
  transfer p entry s = (r, s') →
  r ≠ OutOfFuel ∧ awaiting s' = awaiting s
  ∧ ∃ l, completed s' = completed s ++ l ∧ l `sublist_of` members entry.
Proof.
  destruct entry as [[head tail] files]. unfold transfer.
  destruct (dest p) as [[user host] root]. unfold bind at 1.
  set (cmd1 := mkdir_cmd _ _ _ _).
  pose proof (execute_result cmd1 (time p) s) as (Hf1 & Ha1 & Hc1).
  destruct (execute cmd1 (time p) s) as [[[[st1 o1] e1]|e|] s1]; cbn [fst snd] in *;
    [|intros [= <- <-]; split_and!; [done..|nothing_new]|done].
  destruct (negb (st1 =? 0)%Z).
  { intros [= <- <-]. cbn [awaiting completed]. split_and!; [done..|].
    nothing_new. }
  unfold bind at 1. set (cmd2 := scp_cmd _ _ _ _).
  pose proof (execute_result cmd2 (time p) s1) as (Hf2 & Ha2 & Hc2).
  destruct (execute cmd2 (time p) s1) as [[[[st2 o2] e2]|e|] s2]; cbn [fst snd] in *;
    [|intros [= <- <-]; split_and!; [done|congruence|];
      nothing_new|done].
  destruct (negb (st2 =? 0)%Z).
  { intros [= <- <-]. cbn [awaiting completed]. split_and!; [done|congruence|].
    nothing_new. }
  intros (Hf & Ha & l & Hc & Hl)%moves_frame. split_and!; [done|congruence|].
  exists l. split; [congruence|done].
Qed.

Lemma groups_frame p (groups : list (Location * list string)) s r s' :
  for_each groups (transfer p) s = (r, s') →
  r ≠ OutOfFuel ∧ awaiting s' = awaiting s
  ∧ ∃ l, completed s' = completed s ++ l ∧ l `sublist_of` (groups ≫= members).
Proof.
  revert s. induction groups as [|entry groups IH]; intros s.
  - intros [= <- <-]. split_and!; [done..|]. nothing_new.
  - cbn [for_each]. unfold bind.
    destruct (transfer p entry s) as [r1 s1] eqn:E.
    apply transfer_frame in E as (Hf & Ha & l1 & Hc & Hl).
    destruct r1 as [[]|e|]; [|intros [= <- <-]|done].
    + intros (Hf2 & Ha2 & l2 & Hc2 & Hl2)%IH. split_and!; [done|congruence|].
      exists (l1 ++ l2). rewrite Hc2, Hc, <- app_assoc. split; [done|].
      cbn [mbind list_bind]. by apply sublist_app.
    + split_and!; [done..|]. exists l1. split; [done|].
      cbn [mbind list_bind]. by apply sublist_inserts_r.
Qed.


(** X1: whatever happens during a run of the Porter (failed commands,
    exceptions, the loop cut short), it takes requests from the front of
    its input queue and never puts one back, and what it adds to the
    output queue are requests it has taken, each at most as often as it
    was taken. *)
Theorem Porter_run_transfers_only_what_it_took (fuel : nat) (p : Porter) s :
  ∃ k l,
    awaiting (run fuel p s).2 = drop k (awaiting s)
    ∧ completed (run fuel p s).2 = completed s ++ l
    ∧ l ⊆+ take k (awaiting s).
Proof.
  revert s. induction fuel as [|fuel IH]; intros s.
  - exists 0%nat, []. cbn. by rewrite app_nil_r.
  - rewrite run_unfold. destruct (awaiting s) as [|x q] eqn:Hq.
    + exists 0%nat, []. cbn. by rewrite Hq, app_nil_r.
    + cbv zeta. set (n := Z.to_nat (size p)).
      set (s1 := Site (world s) (logged s) (drop n (x :: q)) (completed s)).
      destruct (take n (x :: q)) as [|y chunk] eqn:Hchunk.
      * destruct (IH s1) as (k & l & Ha & Hc & Hl). exists (n + k)%nat, l.
        rewrite Ha, Hc. subst s1. cbn [awaiting completed] in *. rewrite drop_drop.
        split_and!; [done..|]. rewrite <- take_take_drop, Hchunk. done.
      * destruct (for_each (group (y :: chunk)) (transfer p) s1) as [r s2] eqn:Hrun.
        apply groups_frame in Hrun as (Hf & Ha2 & l1 & Hc2 & Hl1).
        assert (l1 ⊆+ take n (x :: q)) as Hsub.
        { rewrite Hchunk, <- (group_members (y :: chunk)).
          by apply sublist_submseteq. }
        subst s1. cbn [awaiting completed] in Ha2, Hc2.
        destruct r as [[]|e|]; [|cbn [snd]|done].
        -- destruct (IH s2) as (k & l & Ha & Hc & Hl). exists (n + k)%nat, (l1 ++ l).
           rewrite Ha, Hc, Ha2, Hc2, drop_drop, <- app_assoc.
           split_and!; [done..|]. rewrite <- take_take_drop.
           apply submseteq_app; [done|]. by rewrite <- Ha2.
        -- exists n, l1. by rewrite Ha2, Hc2.
Qed.

(** X2: with a chunk size of at least 1 the loop of the Porter ends within
    as many rounds as requests are waiting (plus one), and when the run
    returns normally the input queue is empty. *)
Theorem Porter_run_drains_the_queue (fuel : nat) (p : Porter) s :
  (0 < size p)%Z →
  length (awaiting s) < fuel →
  (run fuel p s).1 ≠ OutOfFuel
  ∧ ((run fuel p s).1 = Ok tt → awaiting (run fuel p s).2 = []).
Proof.
  intros Hsize. revert s. induction fuel as [|fuel IH]; intros s Hlen; [lia|].
  rewrite run_unfold. destruct (awaiting s) as [|x q] eqn:Hq; [by split|].
  cbv zeta. set (n := Z.to_nat (size p)).
  set (s1 := Site (world s) (logged s) (drop n (x :: q)) (completed s)).
  assert (0 < n) as Hn by lia. clearbody n.
  destruct n as [|m]; [lia|]. cbn [take].
  destruct (for_each _ (transfer p) s1) as [r s2] eqn:Hrun.
  apply groups_frame in Hrun as (Hf & Ha2 & _).
  destruct r as [[]|e|]; [|done..].
  apply IH. rewrite Ha2. subst s1. cbn [awaiting drop length] in *.
  rewrite length_drop. lia.
Qed.

(** X3: with a chunk size of 0 or less and a request waiting, the Porter
    never gets anywhere: every round pulls an empty chunk and starts
    over, so the run does not end, transfers nothing and leaves the
    queues as they are. *)
Theorem Porter_run_spins_on_empty_chunks (fuel : nat) (p : Porter) s :
  (size p ≤ 0)%Z → awaiting s ≠ [] → run fuel p s = (OutOfFuel, s).
Proof.
  intros Hsize Hq. induction fuel as [|fuel IH]; [done|].
  rewrite run_unfold. destruct (awaiting s) as [|x q] eqn:E; [done|].
  cbv zeta. replace (Z.to_nat (size p)) with 0%nat by lia. cbn [take drop].
  rewrite <- E. by destruct s.
Qed.

End porter_more.

Section obliging_host.
Context {World : Type} `{!Host World} `{!Hashing}.
Import words endpoint porter_spec.
Implicit Types s : site World.

(** Every process that is started exits with 0. *)
Hypothesis exits_0 :
  ∀ args t (w : World), ∃ out err w', spawn args t w = (Exited 0 out err, w').

Lemma execute_exit_0 cmd args t s :
  shlex.split cmd = Ok args →
  ∃ out err s', execute cmd t s = (Ok (0%Z, out, err), s')
                ∧ awaiting s' = awaiting s ∧ completed s' = completed s.
Proof.
  intros Hsplit. rewrite execute_unfold, Hsplit. cbv zeta.
  destruct (exits_0 args t (world s)) as (out & err & w' & ->).
  by eexists _, _, _.
Qed.

Lemma moves_all_good p head tail dst tmp files s :
  token (dest p).1.1 → token (dest p).1.2 → token dst → token tmp →
  Forall token files →
  ∃ s', for_each files (move p head tail dst tmp) s = (Ok tt, s')
        ∧ awaiting s' = awaiting s
        ∧ completed s' = completed s ++ ((λ fn, (head, tail, fn)) <$> files).
Proof.
  intros Hu Hh Hdst Htmp Hfiles. revert s.
  induction Hfiles as [|fn files Hfn _ IH]; intros s.
  - exists s. by rewrite app_nil_r.
  - destruct (execute_exit_0
                (mv_cmd (dest p).1.1 (dest p).1.2 (posixpath.join tmp [fn])
                        (posixpath.join dst [fn]))
                ["ssh"; (dest p).1.1 +:+ "@" +:+ (dest p).1.2; "mv";
                 posixpath.join tmp [fn]; posixpath.join dst [fn]] (time p) s)
      as (out & err & s1 & Hx & Ha & Hc).
    { rewrite mv_cmd_concat. apply split_concat.
      repeat first [apply Forall_nil_2 | apply Forall_cons_2]; try done; try by apply token_literal.
      - by apply token_login.
      - apply token_join; [done|by apply token_wordy].
      - apply token_join; [done|by apply token_wordy]. }
    cbn [for_each]. unfold bind at 1.
    rewrite (move_unfold _ _ _ _ _ _ _ _ _ _ _ Hx), decide_True by done.
    edestruct IH as (s' & -> & Ha' & Hc'). exists s'. split; [done|].
    cbn [awaiting completed] in *. rewrite Ha', Hc', Ha, Hc, fmap_cons.
    by rewrite <- app_assoc.
Qed.

Lemma transfer_all_good p head tail files s :
  token (dest p).1.1 → token (dest p).1.2 → token (dest p).2 → token (temp p) →
  token head → wordy tail = true → Forall token files → files ≠ [] →
  ∃ s', transfer p ((head, tail), files) s = (Ok tt, s')
        ∧ awaiting s' = awaiting s
        ∧ completed s' = completed s ++ members ((head, tail), files).
Proof.
  intros Hu Hh Hroot Htemp Hhead Htail Hfiles Hne.
  assert (token (posixpath.join (dest p).2 [tail])) as Hdst by by apply token_join.
  assert (token (posixpath.join (temp p) [tail])) as Htmp by by apply token_join.
  assert (token (posixpath.join head [tail])) as Hsrc by by apply token_join.
  edestruct (execute_exit_0 (mkdir_cmd (dest p).1.1 (dest p).1.2
                               (posixpath.join (dest p).2 [tail])
                               (posixpath.join (temp p) [tail])))
    as (o1 & e1 & s1 & H1 & Ha1 & Hc1).
  { rewrite mkdir_cmd_concat. apply split_concat.
    repeat first [apply Forall_nil_2 | apply Forall_cons_2]; try done; try by apply token_literal.
    by apply token_login. }
  erewrite transfer_unfold by exact H1. rewrite decide_True by done.
  edestruct (execute_exit_0
               (scp_cmd ((λ fn, posixpath.join (posixpath.join head [tail]) [fn]) <$> files)
                        (dest p).1.1 (dest p).1.2 (posixpath.join (temp p) [tail])))
    as (o2 & e2 & s2 & H2 & Ha2 & Hc2).
  { rewrite scp_cmd_concat by by destruct files. apply split_concat.
    apply Forall_app. split; [repeat first [apply Forall_nil_2 | apply Forall_cons_2]; try done; by apply token_literal|].
    apply Forall_app. split.
    - apply Forall_fmap. eapply Forall_impl; [exact Hfiles|].
      intros fn Hfn. apply token_join; [done|by apply token_wordy].
    - apply Forall_cons. split; [|done].
      apply token_remote; [done..|by apply token_wordy]. }
  erewrite bind_Ok by exact H2. cbn [fst snd Z.eqb negb].
  edestruct (moves_all_good p head tail) as (s' & -> & Ha3 & Hc3); [done..|].
  exists s'. split; [done|]. unfold members. cbn [fst snd].
  by rewrite Ha3, Hc3, Ha2, Hc2, Ha1, Hc1.
Qed.

Lemma group_plain (chunk : list item) loc files :
  Forall plain chunk → (loc, files) ∈ group chunk →
  token loc.1 ∧ wordy loc.2 = true ∧ Forall token files ∧ files ≠ [].
Proof.
  intros Hchunk Hin. rewrite Forall_forall in Hchunk.
  assert (loc ∈ (group chunk).*1) as Hk
    by (apply list_elem_of_fmap; by exists (loc, files)).
  rewrite group_keys, elem_of_first_seen in Hk.
  apply list_elem_of_fmap in Hk as (x & -> & Hx).
  apply group_entries in Hin as [-> Hne].
  destruct (Hchunk x Hx) as (Hhead & Htail & _). split_and!; [done|done| |done].
  unfold files_at. apply Forall_forall. intros fn (y & -> & Hy)%list_elem_of_fmap.
  apply list_elem_of_filter in Hy as [_ Hy]. by destruct (Hchunk y Hy) as (_ & _ & ?).
Qed.

Lemma groups_all_good p (groups : list (Location * list string)) s :
  token (dest p).1.1 → token (dest p).1.2 → token (dest p).2 → token (temp p) →
  (∀ loc files, (loc, files) ∈ groups →
     token loc.1 ∧ wordy loc.2 = true ∧ Forall token files ∧ files ≠ []) →
  ∃ s', for_each groups (transfer p) s = (Ok tt, s')
        ∧ awaiting s' = awaiting s
        ∧ completed s' = completed s ++ (groups ≫= members).
Proof.
  intros Hu Hh Hroot Htemp. revert s.
  induction groups as [|[[head tail] files] groups IH]; intros s Hgood.
  - exists s. by rewrite app_nil_r.
  - destruct (Hgood (head, tail) files) as (Hhead & Htail & Hfiles & Hne); [by left|].
    destruct (transfer_all_good p head tail files s) as (s1 & H1 & Ha1 & Hc1);
      [done..|].
    destruct (IH s1) as (s' & H' & Ha' & Hc').
    { intros loc fs Hin. apply Hgood. by right. }
    exists s'. cbn [for_each]. rewrite (bind_Ok _ _ _ _ _ H1).
    split; [done|]. cbn [mbind list_bind]. by rewrite Ha', Hc', Ha1, Hc1, <- app_assoc.
Qed.

(** X4: on a host where every process that is started exits with 0, a
    Porter whose endpoint names and requests need no quoting and whose
    chunk size is at least 1 transfers everything: the run returns
    normally, the input queue is empty, and the output queue has gained
    exactly the requests that were waiting, up to their order. *)
Theorem Porter_run_transfers_everything (fuel : nat) (p : Porter) s :
  token (dest p).1.1 → token (dest p).1.2 → token (dest p).2 → token (temp p) →
  Forall plain (awaiting s) →
  (0 < size p)%Z →
  length (awaiting s) < fuel →
  ∃ s', run fuel p s = (Ok tt, s')
        ∧ awaiting s' = []
        ∧ completed s' ≡ₚ completed s ++ awaiting s.
Proof.
  intros Hu Hh Hroot Htemp Hplain Hsize. revert s Hplain.
  induction fuel as [|fuel IH]; intros s Hplain Hlen; [lia|].
  rewrite run_unfold. destruct (awaiting s) as [|x q] eqn:Hq.
  { exists s. by rewrite app_nil_r. }
  cbv zeta. set (n := Z.to_nat (size p)).
  assert (0 < n) as Hn by lia. clearbody n.
  set (s1 := Site (world s) (logged s) (drop n (x :: q)) (completed s)).
  destruct (take n (x :: q)) as [|y chunk] eqn:Hchunk;
    [exfalso; destruct n; [lia|discriminate Hchunk]|].
  destruct (groups_all_good p (group (y :: chunk)) s1) as (s2 & -> & Ha2 & Hc2);
    [done..| |].
  { intros loc files. apply group_plain. rewrite <- Hchunk. by apply Forall_take. }
  subst s1. cbn [awaiting completed] in Ha2, Hc2.
  destruct (IH s2) as (s' & -> & Ha' & Hc').
  - rewrite Ha2. by apply Forall_drop.
  - rewrite Ha2, length_drop. cbn [length] in *. lia.
  - exists s'. split_and!; [done..|].
    rewrite Hc', Hc2, Ha2, group_members, <- Hchunk, <- app_assoc.
    by rewrite take_drop.
Qed.

End obliging_host.

Section commands_of_a_group.
Import words endpoint.

(** X5: when the names involved need no quoting, the three command lines
    of a location group split into the intended argument vectors: the
    directories created are the final and the staging directory, the copy
    has the files of the source directory as sources and the staging
    directory, never the buffer, as its target, and each move goes from
    the staging to the final directory. *)
Theorem group_commands_argv (p : Porter) (head tail : string) (files : list string) :
  let user := (dest p).1.1 in
  let host := (dest p).1.2 in
  let dst := posixpath.join (dest p).2 [tail] in
  let tmp := posixpath.join (temp p) [tail] in
  let src := posixpath.join head [tail] in
  token user → token host → token (dest p).2 → token (temp p) →
  token head → wordy tail = true → Forall token files → files ≠ [] →
  shlex.split (mkdir_cmd user host dst tmp)
  = Ok ["ssh"; user +:+ "@" +:+ host; "mkdir"; "-p"; dst; tmp]
  ∧ shlex.split (scp_cmd ((λ fn, posixpath.join src [fn]) <$> files) user host tmp)
    = Ok (["scp"; "-BCpq"] ++ ((λ fn, posixpath.join src [fn]) <$> files)
          ++ [user +:+ "@" +:+ host +:+ ":" +:+ tmp])
  ∧ ∀ fn, fn ∈ files →
      shlex.split (mv_cmd user host (posixpath.join tmp [fn]) (posixpath.join dst [fn]))
      = Ok ["ssh"; user +:+ "@" +:+ host; "mv";
            posixpath.join tmp [fn]; posixpath.join dst [fn]].
Proof.
  intros user host dst tmp src Hu Hh Hroot Htemp Hhead Htail Hfiles Hne.
  assert (token dst) as Hdst by by apply token_join.
  assert (token tmp) as Htmp by by apply token_join.
  assert (token src) as Hsrc by by apply token_join.
  split_and!.
  - rewrite mkdir_cmd_concat. apply split_concat.
    repeat first [apply Forall_nil_2 | apply Forall_cons_2]; try done; try by apply token_literal.
    by apply token_login.
  - rewrite scp_cmd_concat by by destruct files. apply split_concat.
    apply Forall_app. split; [repeat first [apply Forall_nil_2 | apply Forall_cons_2]; try done; by apply token_literal|].
    apply Forall_app. split.
    + apply Forall_fmap. eapply Forall_impl; [exact Hfiles|].
      intros fn Hfn. apply token_join; [done|by apply token_wordy].
    + apply Forall_cons. split; [|done].
      apply token_remote; [done..|by apply token_wordy].
  - intros fn Hfn. rewrite Forall_forall in Hfiles. specialize (Hfiles fn Hfn).
    rewrite mv_cmd_concat. apply split_concat.
    repeat first [apply Forall_nil_2 | apply Forall_cons_2]; try done; try by apply token_literal.
    + by apply token_login.
    + apply token_join; [done|by apply token_wordy].
    + apply token_join; [done|by apply token_wordy].
Qed.

End commands_of_a_group.

Section execute_more.
Context {World : Type} `{!Host World} `{!Hashing}.
Import words endpoint.
Implicit Types s : site World.

(** X6: [execute] starts one child process, with the tokens of the
    command line as its arguments and with the timeout it was given, when
    the command line can be split; when it cannot, no process is started
    and the error of the split is raised.  Either way the first thing
    logged is the command line. *)
Theorem execute_starts_one_child (cmd : string) (t : option Z) s :
  (∀ args, shlex.split cmd = Ok args →
     world (execute cmd t s).2 = (spawn args t (world s)).2)
  ∧ (∀ e, shlex.split cmd = Raise e →
       (execute cmd t s).1 = Raise e ∧ world (execute cmd t s).2 = world s)
  ∧ ∃ l, logged (execute cmd t s).2
         = logged s ++ (DEBUG, "Executing " +:+ cmd +:+ ".") :: l
         ∧ (List.length l ≤ 1)%nat.
Proof.
  rewrite execute_unfold. cbv zeta. split_and!.
  - intros args ->.
    destruct (spawn args t (world s)) as [[rc out err|out err|msg|e] w'];
      [destruct (rc =? 0)%Z|..]; done.
  - by intros e ->.
  - destruct (shlex.split cmd) as [args|e|];
      [|exists []; split; [done|cbn; lia]..].
    destruct (spawn args t (world s)) as [[rc out err|out err|msg|e] w'];
      [destruct (rc =? 0)%Z|..]; cbn [snd logged];
      try (eexists [_]; split; [by rewrite <- app_assoc|cbn; lia]).
    all: exists []; split; [done|cbn; lia].
Qed.

(** X7: from what [execute] returns one can tell what became of the
    child: status 0 means that it exited with 0, the remote I/O error
    status that it exited with another code, the timed-out status that it
    ran out of time; no other status is returned, and the captured
    streams are those of the child. *)
Theorem execute_status_tells_the_outcome (cmd : string) (t : option Z) s
    (status : Z) (out err : captured) s' :
  execute cmd t s = (Ok (status, out, err), s') →
  ∃ args, shlex.split cmd = Ok args
    ∧ ((status = 0%Z ∧ (spawn args t (world s)).1 = Exited 0 out err)
       ∨ (status = errno.EREMOTEIO
          ∧ ∃ rc, rc ≠ 0%Z ∧ (spawn args t (world s)).1 = Exited rc out err)
       ∨ (status = errno.ETIME ∧ (spawn args t (world s)).1 = TimedOut out err)).
Proof.
  rewrite execute_unfold. cbv zeta.
  destruct (shlex.split cmd) as [args|e|]; [|done..].
  intros Hx. exists args. split; [done|].
  destruct (spawn args t (world s)) as [[rc o e|o e|msg|e] w']; cbn [fst].
  - destruct (rc =? 0)%Z eqn:Hrc; injection Hx as <- <- <- _.
    + apply Z.eqb_eq in Hrc as ->. by left.
    + apply Z.eqb_neq in Hrc. right. left. split; [done|]. by exists rc.
  - injection Hx as <- <- <- _. by right; right.
  - done.
  - done.
Qed.

(** X8: the staging sweep survives a failing command: when the names need
    no quoting, [Wiper.run] starts [find <staging> -type d -empty
    -mindepth 1 -delete] over ssh with the Wiper's timeout; when the child
    is started and what it writes can be decoded, the run returns normally
    whether the child exits with 0, exits with another code or is killed
    on the timeout, leaves the queues alone, and logs one warning exactly
    when the child did not exit with 0.  The warning shows the error
    stream as [execute] returned it: the text of a child that exited, the
    [repr] of the bytes of a child that timed out. *)
Theorem Wiper_run_survives_failures (wp : Wiper) s (c : child) (w' : World) :
  let user := (wiper_dest wp).1.1 in
  let host := (wiper_dest wp).1.2 in
  let path := (wiper_dest wp).2 in
  token user → token host → token path →
  spawn ["ssh"; user +:+ "@" +:+ host; "find"; path; "-type"; "d"; "-empty";
         "-mindepth"; "1"; "-delete"] (wiper_time wp) (world s) = (c, w') →
  (∀ e, c ≠ NotStarted e) →
  (∀ msg, c ≠ Undecodable msg) →
  ∃ s' l, Wiper_run wp s = (Ok tt, s')
    ∧ world s' = w' ∧ awaiting s' = awaiting s ∧ completed s' = completed s
    ∧ logged s' = logged s ++ l
    ∧ filter (λ r, r.1 = WARNING) l
      = match c with
        | Exited 0 _ _ => []
        | Exited _ _ err | TimedOut _ err =>
            [(WARNING,
              "Command '" +:+ find_cmd user host path
              +:+ "' failed with error: '"
              +:+ match err with
                  | Some (Text s) => s
                  | Some (Bytes b) => bytes.repr b
                  | None => "None"
                  end +:+ "'")]
        | Undecodable _ | NotStarted _ => []
        end.
Proof.
  intros user host path Hu Hh Hp Hspawn Hstarted Hdecoded.
  unfold Wiper_run. subst user host path.
  destruct (wiper_dest wp) as [[user host] path]. cbn [fst snd] in *.
  unfold bind. rewrite execute_unfold, find_cmd_concat.
  rewrite split_concat.
  2:{ repeat first [apply Forall_nil_2 | apply Forall_cons_2]; try done; try by apply token_literal.
      by apply token_login. }
  rewrite <- find_cmd_concat. cbv zeta. rewrite Hspawn.
  destruct c as [rc out err|out err|msg|e];
    [| |by destruct (Hdecoded msg)|by destruct (Hstarted e)].
  - destruct (rc =? 0)%Z eqn:Hrc.
    + apply Z.eqb_eq in Hrc as ->. cbn [negb Z.eqb]. eexists _, [_; _].
      split; [done|].
      split_and!; [done|done|done|cbn [logged]; by rewrite <- app_assoc|].
      by rewrite !filter_cons_False, filter_nil by (by intros [=]).
    + cbn [negb Z.eqb errno.EREMOTEIO]. eexists _, [_; _; _].
      split; [done|].
      split_and!; [done|done|done|cbn [logged]; by rewrite <- !app_assoc|].
      rewrite !filter_cons_False, filter_cons_True, filter_nil
        by first [done|by intros [=]].
      apply Z.eqb_neq in Hrc. by destruct rc.
  - cbn [negb Z.eqb errno.ETIME]. eexists _, [_; _; _].
    split; [done|].
    split_and!; [done|done|done|cbn [logged]; by rewrite <- !app_assoc|].
    by rewrite !filter_cons_False, filter_cons_True, filter_nil
      by first [done|by intros [=]].
Qed.

(** X9: a Porter is built exactly from the configurations that have the
    keys user, host, buffer and staging, other keys do not matter, and it
    then holds their values, the chunk size and the timeout; building it
    changes nothing.  Any other configuration raises [ValueError], and
    the message of the error is logged as critical. *)
Theorem Porter_init_accepts_iff (config : gmap string string) (chunk_size : Z)
    (timeout : option Z) s :
  (∀ p s', Porter_init config chunk_size timeout s = (Ok p, s') ↔
     s' = s
     ∧ ∃ user host buffer staging,
         config !! "user" = Some user ∧ config !! "host" = Some host
         ∧ config !! "buffer" = Some buffer ∧ config !! "staging" = Some staging
         ∧ p = {| dest := (user, host, buffer); temp := staging;
                  size := chunk_size; time := timeout |})
  ∧ (∀ key, key ∈ ["user"; "host"; "buffer"; "staging"] → config !! key = None →
       ∃ msg, Porter_init config chunk_size timeout s
              = (Raise (ValueError msg),
                 Site (world s) (logged s ++ [(CRITICAL, msg)])
                      (awaiting s) (completed s))).
Proof.
  split.
  - intros p s'. split.
    + unfold Porter_init. case_decide as Hm; [|by unfold bind, logger, modify, raise].
      unfold bind, getitem, ret, raise.
      destruct (config !! "user") as [user|]; [|done].
      destruct (config !! "host") as [host|]; [|done].
      destruct (config !! "buffer") as [buffer|]; [|done].
      destruct (config !! "staging") as [staging|]; [|done].
      intros [= <- <-]. split; [done|]. by eexists _, _, _, _.
    + intros (-> & user & host & buffer & staging & Hu & Hh & Hb & Hs & ->).
      by apply Porter_init_ok.
  - intros key Hkey Hnone. unfold Porter_init. rewrite decide_False.
    + by eexists.
    + apply (not_elem_of_dom (D:=gset string)) in Hnone.
      intros Hm. assert (key ∈ ({["user"; "host"; "buffer"; "staging"]} ∖ dom config
                                 : gset string)) as Hin by set_solver.
      rewrite Hm in Hin. set_solver.
Qed.

(** X10: a Wiper is built exactly from the configurations that have the
    keys user, host and staging; any other configuration, the empty one
    among them, raises [ValueError] and logs its message as critical. *)
Theorem Wiper_init_accepts_iff (config : gmap string string)
    (timeout : option Z) s :
  (∀ wp s', Wiper_init config timeout s = (Ok wp, s') ↔
     s' = s
     ∧ ∃ user host staging,
         config !! "user" = Some user ∧ config !! "host" = Some host
         ∧ config !! "staging" = Some staging
         ∧ wp = {| wiper_dest := (user, host, staging); wiper_time := timeout |})
  ∧ (∀ key, key ∈ ["user"; "host"; "staging"] → config !! key = None →
       ∃ msg, Wiper_init config timeout s
              = (Raise (ValueError msg),
                 Site (world s) (logged s ++ [(CRITICAL, msg)])
                      (awaiting s) (completed s))).
Proof.
  split.
  - intros wp s'. unfold Wiper_init. split.
    + case_decide as Hm; [|by unfold bind, logger, modify, raise].
      unfold bind, getitem, ret, raise.
      destruct (config !! "user") as [user|]; [|done].
      destruct (config !! "host") as [host|]; [|done].
      destruct (config !! "staging") as [staging|]; [|done].
      intros [= <- <-]. split; [done|]. by eexists _, _, _.
    + intros (-> & user & host & staging & Hu & Hh & Hs & ->).
      rewrite decide_True.
      * unfold bind, getitem, ret. by rewrite Hu, Hh, Hs.
      * apply (elem_of_dom_2 (D:=gset string)) in Hu, Hh, Hs. set_solver.
  - intros key Hkey Hnone. unfold Wiper_init. rewrite decide_False.
    + by eexists.
    + apply (not_elem_of_dom (D:=gset string)) in Hnone.
      intros Hm. assert (key ∈ ({["user"; "host"; "staging"]} ∖ dom config
                                 : gset string)) as Hin by set_solver.
      rewrite Hm in Hin. set_solver.
Qed.

(** X11: a configuration from which a Porter can be built is one from
    which a Wiper can be built, for the same user and host, and the Wiper
    sweeps the directory the Porter stages in. *)
Theorem Porter_config_suits_Wiper (config : gmap string string) (chunk_size : Z)
    (timeout timeout' : option Z) s (p : Porter) s1 s2 :
  Porter_init config chunk_size timeout s = (Ok p, s1) →
  Wiper_init config timeout' s2
  = (Ok {| wiper_dest := ((dest p).1.1, (dest p).1.2, temp p);
           wiper_time := timeout' |}, s2).
Proof.
  unfold Porter_init. case_decide as Hm; [|by unfold bind, logger, modify, raise].
  unfold bind, getitem, ret, raise.
  destruct (config !! "user") as [user|] eqn:Hu; [|done].
  destruct (config !! "host") as [host|] eqn:Hh; [|done].
  destruct (config !! "buffer") as [buffer|]; [|done].
  destruct (config !! "staging") as [staging|] eqn:Hs; [|done].
  intros [= <- _]. cbn [dest temp fst snd]. unfold Wiper_init.
  rewrite decide_True.
  - unfold bind, getitem, ret. by rewrite Hu, Hh, Hs.
  - apply (elem_of_dom_2 (D:=gset string)) in Hu, Hh, Hs. set_solver.
Qed.

End execute_more.

(** ** More on the bookkeeping transactions *)

Section manager_more_facts.
Context `{Externals}.
Import manager manager_spec manager_more.
Implicit Types (s : state) (rows : list File.t).

Lemma staged_app rows items items' :
  staged rows (items ++ items') = staged rows items ++ staged rows items'.
Proof. unfold staged. by rewrite filter_app, fmap_app. Qed.

Lemma elem_of_staged rows items f :
  (f ∈ staged rows items) ↔
    ∃ item, item ∈ items ∧ (item_key item ∉ File.key <$> rows)
            ∧ f = new_file item (item_key item).2.
Proof.
  unfold staged. rewrite list_elem_of_fmap. split.
  - intros (item & -> & [? ?]%list_elem_of_filter). by exists item.
  - intros (item & ? & ? & ->). exists item. split; [done|].
    by apply list_elem_of_filter.
Qed.

(** A chunk of [_add_files] when the database fails nothing. *)
Lemma add_files_chunk_sound out items s :
  sound s →
  add_files_chunk out items s
  = (Ok tt,
     let t := Tables (file_rows (session s) ++ staged (file_rows (session s)) items)
                     (batch_rows (session s)) in
     State t t (logged s) [] []
           (set_queue out (get_queue out (queues s) ++ items) (queues s))
           (transfers s)).
Proof.
  intros [Hq Hc].
  destruct (add_files_chunk_spec out items s) as (r & k & _ & Hall & ->).
  rewrite Hq in Hall. rewrite (Hall (upcoming_nil _)), Hq, Hc.
  cbn [hd]. by rewrite !drop_nil.
Qed.

(** X12: when the database fails nothing, a run of [_add_files] with a
    positive chunk size ends normally with the input queue empty, has
    forwarded every item, in order, to the output queue, has logged
    nothing and left every committed record in place, and afterwards
    every discovered file has a committed record with its key. *)
Theorem _add_files_records_and_forwards_all (fuel : nat) (inp out : queue_id)
    (chunk_size : Z) s :
  sound s → clean s → inp ≠ out → (0 < chunk_size)%Z →
  length (get_queue inp (queues s)) < fuel →
  ∃ s', _add_files fuel inp out chunk_size s = (Ok tt, s')
    ∧ sound s' ∧ clean s'
    ∧ get_queue inp (queues s') = []
    ∧ get_queue out (queues s')
      = get_queue out (queues s) ++ get_queue inp (queues s)
    ∧ logged s' = logged s
    ∧ batch_rows (database s') = batch_rows (database s)
    ∧ file_rows (database s) `prefix_of` file_rows (database s')
    ∧ ∀ item, item ∈ get_queue inp (queues s) →
        item_key item ∈ File.key <$> file_rows (database s').
Proof.
  intros Hsound Hclean Hne Hsize. revert s Hsound Hclean.
  induction fuel as [|fuel IH]; intros s Hsound Hclean Hlen; [lia|].
  rewrite _add_files_unfold.
  destruct (get_queue inp (queues s)) as [|x q] eqn:Hq.
  { exists s. rewrite Hq, app_nil_r. split_and!; try done.
    intros item Hin. by apply elem_of_nil in Hin. }
  cbv zeta. set (n := Z.to_nat chunk_size).
  set (s1 := State _ _ _ _ _ _ _).
  assert (sound s1) as Hsound1 by done.
  rewrite (add_files_chunk_sound out _ s1 Hsound1). cbv zeta.
  set (s2 := State _ _ _ _ _ _ _).
  destruct (IH s2) as (s' & -> & Hs' & Hc' & Hinp & Hout & Hlog & Hb & Hpre & Hkeys).
  - done.
  - done.
  - subst s2 s1. cbn [queues]. rewrite get_set_queue_ne, get_set_queue by done.
    rewrite length_drop. cbn [length] in *. lia.
  - exists s'. split; [done|]. subst s2 s1.
    assert (out ≠ inp) as Hne' by done.
    cbn [queues database session file_rows batch_rows logged] in *.
    rewrite (get_set_queue_ne out inp), get_set_queue in Hkeys by done.
    rewrite (get_set_queue out), (get_set_queue_ne inp out),
      (get_set_queue_ne out inp), (get_set_queue inp) in Hout by done.
    rewrite <- Hclean in *.
    split_and!; try done.
    + by rewrite Hout, <- app_assoc, take_drop.
    + etrans; [|exact Hpre]. by apply prefix_app_r.
    + intros item Hin. rewrite <- (take_drop n (x :: q)) in Hin.
      apply elem_of_app in Hin as [Hin|Hin]; [|by apply Hkeys].
      destruct (decide (item_key item ∈ File.key <$> file_rows (session s)))
        as [Hold|Hnew].
      * apply list_elem_of_fmap in Hold as (f & -> & Hf).
        apply list_elem_of_fmap_2. eapply elem_of_prefix; [|exact Hpre].
        apply elem_of_app. by left.
      * apply list_elem_of_fmap. exists (new_file item (item_key item).2).
        split; [done|]. eapply elem_of_prefix; [|exact Hpre].
        apply elem_of_app. right. apply elem_of_staged. by exists item.
Qed.


Lemma staged_recorded rows items :
  Forall (λ item, item_key item ∈ File.key <$> rows) items → staged rows items = [].
Proof.
  intros Hall. unfold staged. induction Hall as [|item items Hin _ IH]; [done|].
  by rewrite filter_cons_False by naive_solver.
Qed.

(** X13: a chunk of [_add_files] whose files are all recorded already,
    with their present checksums, adds no record, and yet forwards every
    item of the chunk to the output queue once the (empty) commit has
    succeeded: an unchanged file that is discovered again is handed on
    for transfer again. *)
Theorem add_files_forwards_recorded_files_again (out : queue_id)
    (items : list FileMsg.t) s :
  Forall (λ x, x = None) (upcoming (length items) (query_faults s)) →
  hd None (commit_faults s) = None →
  Forall (λ item, item_key item ∈ File.key <$> file_rows (session s)) items →
  ∃ s', add_files_chunk out items s = (Ok tt, s')
    ∧ session s' = session s ∧ database s' = session s
    ∧ logged s' = logged s
    ∧ get_queue out (queues s') = get_queue out (queues s) ++ items.
Proof.
  intros Hq Hc Hrec.
  destruct (add_files_chunk_spec out items s) as (r & k & _ & Hall & ->).
  rewrite (Hall Hq), Hc, (staged_recorded _ _ Hrec), app_nil_r. cbv zeta.
  eexists. split; [done|]. cbn [session database logged queues].
  rewrite get_set_queue. by destruct (session s).
Qed.

(** X14: [_add_files] does not handle a failing lookup: when the first
    lookup of a chunk fails, the run raises the database error; the chunk
    has left the input queue, nothing of it reaches the output queue, and
    nothing is recorded or logged. *)
Theorem _add_files_raises_when_a_lookup_fails (fuel : nat) (inp out : queue_id)
    (chunk_size : Z) s (msg : string) :
  hd None (query_faults s) = Some msg →
  get_queue inp (queues s) ≠ [] →
  (0 < chunk_size)%Z →
  _add_files (S fuel) inp out chunk_size s
  = (Raise (SQLAlchemyError msg),
     State (session s) (database s) (logged s) (drop 1 (query_faults s))
           (commit_faults s)
           (set_queue inp (drop (Z.to_nat chunk_size) (get_queue inp (queues s)))
                      (queues s))
           (transfers s)).
Proof.
  intros Hq Hne Hsize. rewrite _add_files_unfold.
  destruct (get_queue inp (queues s)) as [|x q]; [done|]. cbv zeta.
  destruct (Z.to_nat chunk_size) as [|n] eqn:Hn; [lia|]. cbn [take].
  unfold add_files_chunk. cbn [stage_files]. unfold bind.
  rewrite stage_file_unfold. cbn [query_faults]. by rewrite Hq.
Qed.

Lemma staged_sublist rows items :
  staged rows items
  `sublist_of` ((λ item, new_file item (item_key item).2) <$> items).
Proof. unfold staged. apply fmap_sublist, sublist_filter. Qed.

Lemma add_files_chunk_appends out items s r s' :
  clean s → add_files_chunk out items s = (r, s') →
  (r = Ok tt → clean s')
  ∧ batch_rows (database s') = batch_rows (database s)
  ∧ (∃ new, file_rows (database s') = file_rows (database s) ++ new
            ∧ new `sublist_of` ((λ item, new_file item (item_key item).2) <$> items))
  ∧ ∃ l, queues s' = set_queue out (get_queue out (queues s) ++ l) (queues s)
         ∧ l `sublist_of` items.
Proof.
  intros Hclean. unfold clean in *.
  destruct (add_files_chunk_spec out items s) as (r0 & k & _ & _ & ->).
  destruct r0 as [files|e|].
  - destruct (hd None (commit_faults s)); intros [= <- <-];
      cbn [session database file_rows batch_rows queues].
    + split_and!; [done..| |].
      * exists []. rewrite app_nil_r. split; [done|apply sublist_nil_l].
      * exists []. rewrite app_nil_r, set_get_queue. split; [done|apply sublist_nil_l].
    + rewrite <- Hclean. split_and!; [done..| |].
      * eexists. split; [done|]. apply staged_sublist.
      * by exists items.
  - intros [= <- <-]. cbn [after_queries session database queues].
    split_and!; [done..| |].
    + exists []. rewrite app_nil_r. split; [done|apply sublist_nil_l].
    + exists []. rewrite app_nil_r, set_get_queue. split; [done|apply sublist_nil_l].
  - intros [= <- <-]. cbn [after_queries session database queues].
    split_and!; [done..| |].
    + exists []. rewrite app_nil_r. split; [done|apply sublist_nil_l].
    + exists []. rewrite app_nil_r, set_get_queue. split; [done|apply sublist_nil_l].
Qed.

(** X15: whatever a run of [_add_files] meets, it only takes items from
    the front of its input queue and only appends: what it adds to the
    output queue are items it has pulled, in their order; the committed
    records stay as they are and in place, and each record added to them
    is the fresh record, without held time, of a pulled item; no batch is
    added. *)
Theorem _add_files_only_appends (fuel : nat) (inp out : queue_id)
    (chunk_size : Z) s :
  clean s → inp ≠ out →
  ∃ k new l,
    get_queue inp (queues (_add_files fuel inp out chunk_size s).2)
    = drop k (get_queue inp (queues s))
    ∧ get_queue out (queues (_add_files fuel inp out chunk_size s).2)
      = get_queue out (queues s) ++ l
    ∧ l `sublist_of` take k (get_queue inp (queues s))
    ∧ file_rows (database (_add_files fuel inp out chunk_size s).2)
      = file_rows (database s) ++ new
    ∧ new `sublist_of` ((λ item, new_file item (item_key item).2)
                          <$> take k (get_queue inp (queues s)))
    ∧ batch_rows (database (_add_files fuel inp out chunk_size s).2)
      = batch_rows (database s).
Proof.
  intros Hclean Hne. assert (out ≠ inp) as Hne' by done.
  revert s Hclean. induction fuel as [|fuel IH]; intros s Hclean.
  - exists 0%nat, [], []. cbn. by rewrite !app_nil_r.
  - rewrite _add_files_unfold.
    destruct (get_queue inp (queues s)) as [|x q] eqn:Hq.
    { exists 0%nat, [], []. cbn. by rewrite Hq, !app_nil_r. }
    cbv zeta. set (n := Z.to_nat chunk_size). set (s1 := State _ _ _ _ _ _ _).
    destruct (add_files_chunk out (take n (x :: q)) s1) as [r s2] eqn:Hchunk.
    apply add_files_chunk_appends in Hchunk
      as (Hc2 & Hb2 & (new1 & Hrows2 & Hnew1) & l1 & Hqs2 & Hl1); [|done].
    subst s1. cbn [database queues] in Hb2, Hrows2, Hqs2.
    rewrite (get_set_queue_ne inp out) in Hqs2 by done.
    assert (get_queue inp (queues s2) = drop n (x :: q)) as Hinp2
      by (rewrite Hqs2; by rewrite (get_set_queue_ne out inp), get_set_queue).
    assert (get_queue out (queues s2) = get_queue out (queues s) ++ l1) as Hout2
      by (rewrite Hqs2; by rewrite get_set_queue).
    destruct r as [[]|e|]; cbn [snd].
    + destruct (IH s2 (Hc2 eq_refl)) as (k & new & l & Hi & Ho & Hl & Hr & Hn & Hb).
      exists (n + k)%nat, (new1 ++ new), (l1 ++ l).
      rewrite Hi, Ho, Hr, Hb, Hinp2, Hout2, Hrows2, Hb2, drop_drop, <- !app_assoc.
      rewrite Hinp2 in Hl, Hn. rewrite <- !take_take_drop, fmap_app.
      split_and!; try done; by apply sublist_app.
    + exists n, new1, l1. by rewrite Hinp2, Hout2, Hrows2, Hb2.
    + exists n, new1, l1. by rewrite Hinp2, Hout2, Hrows2, Hb2.
Qed.

(** *** [_add_transfers] *)

Lemma _add_transfers_unfold fuel files chunk_size s :
  _add_transfers (S fuel) files chunk_size s =
    match transfers s with
    | [] => (Ok tt, s)
    | _ =>
        let n := Z.to_nat chunk_size in
        let s1 := State (session s) (database s) (logged s) (query_faults s)
                        (commit_faults s) (queues s) (drop n (transfers s)) in
        match add_transfers_chunk files (take n (transfers s)) s1 with
        | (Ok _, s2) => _add_transfers fuel files chunk_size s2
        | (Raise e, s2) => (Raise e, s2)
        | (OutOfFuel, s2) => (OutOfFuel, s2)
        end
    end.
Proof.
  cbn [_add_transfers]. unfold bind at 1, transfers_empty at 1, gets at 1.
  destruct (transfers s) eqn:E; [done|].
  unfold bind at 1, get_chunk_transfers at 1. rewrite E. done.
Qed.

(** X16: [_add_transfers] handles every database error itself: with a
    positive chunk size it always returns normally, whatever lookups and
    commits fail, having emptied the queue of transfer items; it only
    appends to its output queue and leaves the other queues alone. *)
Theorem _add_transfers_never_raises (fuel : nat) (files : queue_id)
    (chunk_size : Z) s :
  (0 < chunk_size)%Z →
  length (transfers s) < fuel →
  ∃ s', _add_transfers fuel files chunk_size s = (Ok tt, s')
    ∧ transfers s' = []
    ∧ get_queue files (queues s) `prefix_of` get_queue files (queues s')
    ∧ ∀ q, q ≠ files → get_queue q (queues s') = get_queue q (queues s).
Proof.
  intros Hsize. revert s. induction fuel as [|fuel IH]; intros s Hlen; [lia|].
  rewrite _add_transfers_unfold. destruct (transfers s) as [|x ts] eqn:Hts.
  { exists s. by rewrite Hts. }
  cbv zeta. rewrite add_transfers_chunk_spec. cbv zeta.
  destruct (Z.to_nat chunk_size) as [|n] eqn:Hn; [lia|].
  set (s2 := match hd None _ with Some _ => _ | None => _ end).
  destruct (IH s2) as (s' & -> & Hts' & Hpre & Hother).
  { subst s2. cbn [commit_faults].
    destruct (hd None (commit_faults s)); cbn [transfers drop];
      rewrite length_drop; cbn [length] in *; lia. }
  exists s'. split_and!; [done..| |].
  - etrans; [|exact Hpre]. subst s2. cbn [commit_faults].
    destruct (hd None (commit_faults s)); cbn [queues]; [done|].
    rewrite get_set_queue. by apply prefix_app_r.
  - intros q Hq. rewrite (Hother q Hq). subst s2. cbn [commit_faults].
    destruct (hd None (commit_faults s)); cbn [queues]; [done|].
    by rewrite get_set_queue_ne.
Qed.

Lemma elem_of_all (P : File.t → Prop) `{∀ f, Decision (P f)} rows i :
  i ∈ all P rows ↔ ∃ f, rows !! i = Some f ∧ P f.
Proof.
  unfold all. rewrite list_elem_of_fmap. split.
  - intros ([j f] & -> & [HP Hin]%list_elem_of_filter). cbn [fst snd] in *.
    apply elem_of_lookup_imap in Hin as (j' & f' & [= -> ->] & Hj). by exists f'.
  - intros (f & Hi & HP). exists (i, f). split; [done|].
    apply list_elem_of_filter. split; [done|]. by apply elem_of_lookup_imap_2.
Qed.

(** X17: the batch that [_add_transfers] builds for a transfer item links
    exactly the records whose (relpath, filename) is that of one of the
    item's files: the source root of the file and the checksum of the
    record play no part, so all recorded versions of a file are linked. *)
Theorem batch_links_records_by_name (item : TransferMsg.t) s
    (batches : list Batch.t) (transferred : list FileMsg.t) s' :
  record_transfer ([], []) item s = (Ok (batches, transferred), s') →
  ∀ b, b ∈ batches →
    Batch.files b ≠ []
    ∧ ∀ i, i ∈ Batch.files b ↔
        ∃ f, file_rows (session s) !! i = Some f
             ∧ ∃ head, (head, File.relpath f, File.filename f)
                         ∈ TransferMsg.files item.
Proof.
  rewrite record_transfer_unfold. cbv zeta. intros [= <- <- _] b.
  unfold batch_of, matched. cbn [fst snd app].
  destruct (hd None (query_faults s)); [by intros ?%elem_of_nil|].
  destruct (all _ _) as [|i0 records] eqn:Hall; [by intros ?%elem_of_nil|].
  intros ->%list_elem_of_singleton. cbn [Batch.files new_batch]. split; [done|].
  intros i. rewrite <- Hall, elem_of_all. unfold pairs.
  split; intros (f & Hi & Hf); exists f; (split; [done|]).
  - apply list_elem_of_fmap in Hf as ([[head p] n] & [= -> ->] & Hin). by exists head.
  - destruct Hf as (head & Hin). apply list_elem_of_fmap.
    by exists (head, File.relpath f, File.filename f).
Qed.


(** *** [_update_files] *)

Lemma keeps_records_refl rows : keeps_records rows rows.
Proof. split; [done|]. intros i f Hi Hh. by exists f. Qed.

Lemma keeps_records_trans rows1 rows2 rows3 :
  keeps_records rows1 rows2 → keeps_records rows2 rows3 → keeps_records rows1 rows3.
Proof.
  intros [Hf1 Hh1] [Hf2 Hh2]. split; [congruence|].
  intros i f Hi Hh. destruct (Hh1 i f Hi Hh) as (f' & Hi' & Hh'). eauto.
Qed.

Lemma keeps_records_alter rows i d :
  keeps_records rows (alter (File.set_held_on d) i rows).
Proof.
  split.
  - revert i. induction rows as [|f rows IH]; intros [|i]; try done.
    cbn. f_equal. apply IH.
  - intros j f Hj Hh. destruct (decide (i = j)) as [->|Hne].
    + exists (File.set_held_on d f). by rewrite list_lookup_alter_eq, Hj.
    + exists f. by rewrite list_lookup_alter_ne.
Qed.

Lemma update_file_keeps item s r s' :
  update_file item s = (r, s') →
  keeps_records (file_rows (session s)) (file_rows (session s'))
  ∧ batch_rows (session s') = batch_rows (session s).
Proof.
  rewrite update_file_unfold.
  destruct (hd None (query_faults s));
    [intros [= <- <-]; split; [apply keeps_records_refl|done]|].
  destruct (first _ _) as [[i f]|]; intros [= <- <-]; (split; [|done]).
  - apply keeps_records_alter.
  - apply keeps_records_refl.
Qed.

Lemma for_each_update_file_keeps items s r s' :
  for_each items update_file s = (r, s') →
  keeps_records (file_rows (session s)) (file_rows (session s'))
  ∧ batch_rows (session s') = batch_rows (session s).
Proof.
  revert s. induction items as [|item items IH]; intros s.
  - intros [= <- <-]. split; [apply keeps_records_refl|done].
  - cbn [for_each]. unfold bind.
    destruct (update_file item s) as [r1 s1] eqn:E.
    apply update_file_keeps in E as [Hk Hb].
    destruct r1 as [[]|e|]; [|by intros [= <- <-]..].
    intros [Hk' Hb']%IH. split; [by eapply keeps_records_trans|congruence].
Qed.

Lemma update_files_chunk_keeps items s r s' :
  clean s → update_files_chunk items s = (r, s') →
  keeps_records (file_rows (session s)) (file_rows (session s'))
  ∧ batch_rows (session s') = batch_rows (session s)
  ∧ (r = Ok tt → clean s').
Proof.
  intros Hclean. unfold update_files_chunk. unfold bind at 1.
  destruct (for_each items update_file s) as [r1 s1] eqn:E.
  pose proof (for_each_update_file_frame _ _ _ _ E) as (_ & _ & _ & Hdb & _).
  apply for_each_update_file_keeps in E as [Hk Hb].
  destruct r1 as [[]|e|]; [|by intros [= <- <-]..].
  unfold bind. rewrite try_commit_unfold.
  destruct (hd None (commit_faults s1)); intros [= <- <-];
    cbn [session database]; unfold clean; cbn [session database].
  - rewrite Hdb, <- Hclean. split_and!; [apply keeps_records_refl|done..].
  - done.
Qed.

(** X18: whatever a run of [_update_files] meets (lookups or commits that
    fail, the loop cut short), the File table keeps its records, in their
    order, with their path, name, checksum, size and creation time; only
    held times change, and a held time that was set is never removed.
    The batches and the other queues are not touched. *)
Theorem _update_files_only_sets_held_times (fuel : nat) (inp : queue_id)
    (chunk_size : Z) s :
  clean s →
  keeps_records (file_rows (session s))
                (file_rows (session (_update_files fuel inp chunk_size s).2))
  ∧ batch_rows (session (_update_files fuel inp chunk_size s).2)
    = batch_rows (session s)
  ∧ ∀ q, q ≠ inp →
      get_queue q (queues (_update_files fuel inp chunk_size s).2)
      = get_queue q (queues s).
Proof.
  revert s. induction fuel as [|fuel IH]; intros s Hclean.
  - split_and!; [apply keeps_records_refl|done..].
  - rewrite _update_files_unfold.
    destruct (get_queue inp (queues s)) as [|x q0] eqn:Hq.
    { split_and!; [apply keeps_records_refl|done..]. }
    cbv zeta. set (s1 := State _ _ _ _ _ _ _).
    destruct (update_files_chunk _ s1) as [r s2] eqn:Hchunk.
    pose proof (update_files_chunk_queues _ _ _ _ Hchunk) as Hqs.
    apply update_files_chunk_keeps in Hchunk as (Hk & Hb & Hc); [|done].
    assert (∀ q, q ≠ inp → get_queue q (queues s2) = get_queue q (queues s)) as Hother.
    { intros q Hne. rewrite Hqs. subst s1. cbn [queues].
      by rewrite get_set_queue_ne. }
    destruct r as [[]|e|]; [|done..].
    destruct (IH s2 (Hc eq_refl)) as (Hk' & Hb' & Hother').
    split_and!.
    + by eapply keeps_records_trans.
    + rewrite Hb', Hb. reflexivity.
    + intros q Hne. by rewrite Hother', Hother.
Qed.

Lemma first_alter (P : File.t → Prop) `{∀ f, Decision (P f)} (g : File.t → File.t)
    rows i f :
  (∀ x, P (g x) ↔ P x) →
  first P rows = Some (i, f) → first P (alter g i rows) = Some (i, g f).
Proof.
  intros Hg. unfold first. intros (Hi & HP & Hbefore)%list_find_Some.
  apply list_find_Some. split_and!.
  - by rewrite list_lookup_alter_eq, Hi.
  - by apply Hg.
  - intros j y Hj Hlt. rewrite list_lookup_alter_ne in Hj by lia. eauto.
Qed.

(** X19: updating the held time of a file is idempotent: when both
    lookups are answered, handling the same completed item twice leaves
    the File table as handling it once does. *)
Theorem update_file_twice (item : FileMsg.t) s :
  hd None (query_faults s) = None →
  hd None (drop 1 (query_faults s)) = None →
  session (bind (update_file item) (λ _, update_file item) s).2
  = session (update_file item s).2
  ∧ (bind (update_file item) (λ _, update_file item) s).1 = Ok tt.
Proof.
  intros Hq1 Hq2. unfold bind. rewrite update_file_unfold, Hq1.
  destruct (first _ (file_rows (session s))) as [[i f]|] eqn:Hfind.
  - rewrite update_file_unfold. cbn [query_faults session file_rows]. rewrite Hq2.
    erewrite first_alter; [|done|exact Hfind]. cbn [fst snd session].
    split; [|done]. f_equal.
    unfold first in Hfind. apply list_find_Some in Hfind as (Hi & _).
    rewrite (alter_as_insert _ _ _ _ Hi).
    erewrite alter_as_insert
      by (apply list_lookup_insert_eq; by eapply lookup_lt_Some).
    by rewrite list_insert_insert_eq.
  - rewrite update_file_unfold. cbn [after_queries query_faults session].
    rewrite Hq2, Hfind. done.
Qed.


Lemma update_files_chunk_result items s :
  (update_files_chunk items s).1 ≠ OutOfFuel.
Proof.
  unfold update_files_chunk. unfold bind at 1.
  assert ((for_each items update_file s).1 ≠ OutOfFuel) as Hf.
  { revert s. induction items as [|item items IH]; intros s; [done|].
    cbn [for_each]. unfold bind. rewrite update_file_unfold.
    destruct (hd None (query_faults s)); [done|].
    destruct (first _ _) as [[i f]|]; apply IH. }
  destruct (for_each items update_file s) as [[[]|e|] s1]; [|done..].
  unfold bind. rewrite try_commit_unfold.
  by destruct (hd None (commit_faults s1)).
Qed.

(** X20: with a positive chunk size the loop of [_update_files] ends
    within as many rounds as items are waiting (plus one), whatever
    lookups and commits fail; when the run returns normally the input
    queue is empty; and on a database that fails nothing the run returns
    normally and logs nothing. *)
Theorem _update_files_drains_the_queue (fuel : nat) (inp : queue_id)
    (chunk_size : Z) s :
  (0 < chunk_size)%Z →
  length (get_queue inp (queues s)) < fuel →
  (_update_files fuel inp chunk_size s).1 ≠ OutOfFuel
  ∧ ((_update_files fuel inp chunk_size s).1 = Ok tt →
     get_queue inp (queues (_update_files fuel inp chunk_size s).2) = [])
  ∧ (sound s →
     (_update_files fuel inp chunk_size s).1 = Ok tt
     ∧ logged (_update_files fuel inp chunk_size s).2 = logged s).
Proof.
  intros Hsize Hlen.
  assert ((_update_files fuel inp chunk_size s).1 ≠ OutOfFuel
          ∧ ((_update_files fuel inp chunk_size s).1 = Ok tt →
             get_queue inp (queues (_update_files fuel inp chunk_size s).2) = []))
    as [Hends Hdrained].
  { revert s Hlen. induction fuel as [|fuel IH]; intros s Hlen; [lia|].
    rewrite _update_files_unfold.
    destruct (get_queue inp (queues s)) as [|x q] eqn:Hq; [by split|].
    cbv zeta. set (s1 := State _ _ _ _ _ _ _).
    pose proof (update_files_chunk_result
                  (take (Z.to_nat chunk_size) (x :: q)) s1) as Hres.
    destruct (update_files_chunk _ s1) as [r s2] eqn:Hchunk. cbn [fst] in Hres.
    pose proof (update_files_chunk_queues _ _ _ _ Hchunk) as Hqs.
    destruct r as [[]|e|]; [|by split|done].
    apply IH. rewrite Hqs. subst s1. cbn [queues].
    rewrite get_set_queue, length_drop. cbn [length] in *. lia. }
  split_and!; [done..|].
  intros Hsound.
  destruct (_update_files_sound fuel inp chunk_size s Hsound Hsize Hlen)
    as (s' & -> & Hlog).
  done.
Qed.

End manager_more_facts.

(** ** More on [Manager.__init__] *)

Section manager_init_more.
Context `{Externals} {World : Type} `{!Host World} `{!Hashing}.
Import manager endpoint.
Implicit Types s : site World.

Lemma Porter_init_inv config chunk_size timeout s p s' :
  Porter_init config chunk_size timeout s = (Ok p, s') →
  s' = s
  ∧ ∃ user host buffer staging,
      config !! "user" = Some user ∧ config !! "host" = Some host
      ∧ config !! "buffer" = Some buffer ∧ config !! "staging" = Some staging
      ∧ p = {| dest := (user, host, buffer); temp := staging;
               size := chunk_size; time := timeout |}.
Proof.
  unfold Porter_init. case_decide as Hm; [|by unfold bind, logger, modify, raise].
  unfold bind, getitem, ret, raise.
  destruct (config !! "user") as [user|]; [|done].
  destruct (config !! "host") as [host|]; [|done].
  destruct (config !! "buffer") as [buffer|]; [|done].
  destruct (config !! "staging") as [staging|]; [|done].
  intros [= <- <-]. split; [done|]. by eexists _, _, _, _.
Qed.

Lemma Wiper_init_ok config timeout s user host staging :
  config !! "user" = Some user → config !! "host" = Some host →
  config !! "staging" = Some staging →
  Wiper_init config timeout s
  = (Ok {| wiper_dest := (user, host, staging); wiper_time := timeout |}, s).
Proof.
  intros Hu Hh Hs. unfold Wiper_init. rewrite decide_True.
  - unfold bind, getitem, ret. by rewrite Hu, Hh, Hs.
  - apply (elem_of_dom_2 (D:=gset string)) in Hu, Hh, Hs. set_solver.
Qed.

Lemma Porter_init_missing config chunk_size timeout s key :
  key ∈ ["user"; "host"; "buffer"; "staging"] → config !! key = None →
  ∃ msg, Porter_init config chunk_size timeout s
         = (Raise (ValueError msg),
            Site (world s) (logged s ++ [(CRITICAL, msg)]) (awaiting s) (completed s)).
Proof.
  intros Hkey Hnone. unfold Porter_init. rewrite decide_False; [by eexists|].
  apply (not_elem_of_dom (D:=gset string)) in Hnone.
  intros Hm. assert (key ∈ ({["user"; "host"; "buffer"; "staging"]} ∖ dom config
                             : gset string)) as Hin by set_solver.
  rewrite Hm in Hin. set_solver.
Qed.

(** X21: the manager is built exactly from the configurations that have a
    database, a handoff and an endpoint section, whose endpoint has the
    keys user, host, buffer and staging, and whose collaborators can be
    set up.  It then takes the number of threads, the pause, the chunk
    size and the timeout from the general section where it gives them and
    from the defaults where it does not; its Porter and its Wiper share
    user, host and staging directory; building it logs nothing. *)
Theorem Manager_init_accepts_iff (defaults : Settings.t)
    (configuration : Configuration) s (m : Manager) s' :
  let settings := match cfg_general configuration with
                  | Some config => update defaults config
                  | None => defaults
                  end in
  Manager_init defaults configuration s = (Ok m, s') ↔
    s' = s
    ∧ ∃ db handoff ep user host buffer staging,
        cfg_database configuration = Some db
        ∧ cfg_handoff configuration = Some handoff
        ∧ cfg_endpoint configuration = Some ep
        ∧ ep !! "user" = Some user ∧ ep !! "host" = Some host
        ∧ ep !! "buffer" = Some buffer ∧ ep !! "staging" = Some staging
        ∧ setup_db_conn db = Ok (db_engine m)
        ∧ Finder_init handoff = Ok (finder m)
        ∧ cleaner_init handoff (Settings.expiration_time settings) = Ok (cleaner m)
        ∧ num_threads m = Settings.num_threads settings
        ∧ pause m = Settings.pause settings
        ∧ porter m = {| dest := (user, host, buffer); temp := staging;
                        size := Settings.chunk_size settings;
                        time := Settings.timeout settings |}
        ∧ wiper m = {| wiper_dest := (user, host, staging); wiper_time := None |}.
Proof.
  intros settings. unfold Manager_init. fold settings. split.
  - unfold bind, getkey, lift, ret, raise.
    destruct (cfg_database configuration) as [db|]; [|done].
    destruct (setup_db_conn db) as [eng|?|] eqn:Hdb; [|done..].
    destruct (cfg_handoff configuration) as [handoff|]; [|done].
    destruct (Finder_init handoff) as [fd|?|] eqn:Hfd; [|done..].
    destruct (cleaner_init handoff _) as [cl|?|] eqn:Hcl; [|done..].
    destruct (cfg_endpoint configuration) as [ep|]; [|done].
    destruct (Porter_init ep _ _ s) as [[p| |] s1] eqn:Hp; [|done..].
    apply Porter_init_inv in Hp
      as (-> & user & host & buffer & staging & Hu & Hh & Hb & Hs & ->).
    rewrite (Wiper_init_ok ep None s user host staging) by done.
    intros [= <- <-]. split; [done|].
    by eexists db, handoff, ep, user, host, buffer, staging.
  - intros (-> & db & handoff & ep & user & host & buffer & staging
            & Hdb & Hho & Hep & Hu & Hh & Hb & Hs & Heng & Hfd & Hcl
            & Hn & Hpause & Hp & Hw).
    unfold bind, getkey, lift, ret.
    rewrite Hdb, Heng, Hho, Hfd, Hcl, Hep.
    rewrite (Porter_init_ok ep user host buffer staging) by done.
    rewrite (Wiper_init_ok ep None s user host staging) by done.
    destruct m. cbn in *. by subst.
Qed.

(** X22: a configuration without its database section makes the manager
    raise [KeyError] for it before anything else is looked at; with the
    collaborators set up, a missing handoff or endpoint section raises
    [KeyError] as well, and an endpoint section without one of its four
    keys raises [ValueError], which is the only failure that is logged. *)
Theorem Manager_init_rejects (defaults : Settings.t)
    (configuration : Configuration) s :
  (cfg_database configuration = None →
   Manager_init defaults configuration s = (Raise (KeyError "database"), s))
  ∧ (∀ db eng,
       cfg_database configuration = Some db → setup_db_conn db = Ok eng →
       cfg_handoff configuration = None →
       Manager_init defaults configuration s = (Raise (KeyError "handoff"), s))
  ∧ (∀ db eng handoff fd cl,
       cfg_database configuration = Some db → setup_db_conn db = Ok eng →
       cfg_handoff configuration = Some handoff →
       Finder_init handoff = Ok fd →
       cleaner_init handoff
         (Settings.expiration_time
            match cfg_general configuration with
            | Some config => update defaults config
            | None => defaults
            end) = Ok cl →
       (cfg_endpoint configuration = None →
        Manager_init defaults configuration s = (Raise (KeyError "endpoint"), s))
       ∧ (∀ ep key,
            cfg_endpoint configuration = Some ep →
            key ∈ ["user"; "host"; "buffer"; "staging"] → ep !! key = None →
            ∃ msg, Manager_init defaults configuration s
                   = (Raise (ValueError msg),
                      Site (world s) (logged s ++ [(CRITICAL, msg)])
                           (awaiting s) (completed s)))).
Proof.
  unfold Manager_init, bind, getkey, lift, ret, raise. split_and!.
  - by intros ->.
  - by intros db eng -> -> ->.
  - intros db eng handoff fd cl -> -> -> -> ->. split.
    + by intros ->.
    + intros ep key -> Hkey Hnone.
      destruct (Porter_init_missing ep
                  (Settings.chunk_size
                     match cfg_general configuration with
                     | Some config => update defaults config
                     | None => defaults
                     end)
                  (Settings.timeout
                     match cfg_general configuration with
                     | Some config => update defaults config
                     | None => defaults
                     end) s key Hkey Hnone) as (msg & ->).
      by exists msg.
Qed.

End manager_init_more.

(** ** The further properties on sample data *)

Section endpoint_more_examples.
Import words endpoint porter_spec samples more_samples.

(** X2, on three requests pulled one at a time on a host where every
    process exits with 0. *)
Lemma Porter_run_drains_three_requests :
  (run 4 porter (idle tt three_requests)).1 ≠ OutOfFuel
  ∧ ((run 4 porter (idle tt three_requests)).1 = Ok tt →
     awaiting (run 4 porter (idle tt three_requests)).2 = []).
Proof.
  apply (Porter_run_drains_the_queue (World:=unit) 4 porter (idle tt three_requests)).
  - reflexivity.
  - simpl. lia.
Defined.

(** X3, on three requests and a chunk size of 0. *)
Lemma Porter_run_stalls_on_chunk_size_0 :
  run 5 stalled (idle tt three_requests) = (OutOfFuel, idle tt three_requests).
Proof.
  apply (Porter_run_spins_on_empty_chunks (World:=unit) 5 stalled
           (idle tt three_requests)).
  - simpl. lia.
  - discriminate.
Defined.

(** X4, on three requests at two locations. *)
Lemma Porter_run_transfers_three_requests :
  ∃ s', run 4 porter (idle tt three_requests) = (Ok tt, s')
        ∧ awaiting s' = []
        ∧ completed s' ≡ₚ [] ++ three_requests.
Proof.
  apply (Porter_run_transfers_everything (World:=unit)).
  - intros args t w. eexists _, _, _. reflexivity.
  - split; [discriminate|reflexivity].
  - split; [discriminate|reflexivity].
  - split; [discriminate|reflexivity].
  - split; [discriminate|reflexivity].
  - repeat constructor; discriminate.
  - reflexivity.
  - simpl. lia.
Defined.

(** X5, on the group of two files of /data/groupA. *)
Lemma group_commands_of_two_files :
  shlex.split (mkdir_cmd "user" "host" "/buf/groupA" "/stage/groupA")
  = Ok ["ssh"; "user@host"; "mkdir"; "-p"; "/buf/groupA"; "/stage/groupA"]
  ∧ shlex.split (scp_cmd ["/data/groupA/a.fits"; "/data/groupA/c.fits"]
                         "user" "host" "/stage/groupA")
    = Ok ["scp"; "-BCpq"; "/data/groupA/a.fits"; "/data/groupA/c.fits";
          "user@host:/stage/groupA"]
  ∧ shlex.split (mv_cmd "user" "host" "/stage/groupA/c.fits" "/buf/groupA/c.fits")
    = Ok ["ssh"; "user@host"; "mv"; "/stage/groupA/c.fits"; "/buf/groupA/c.fits"].
Proof.
  destruct (group_commands_argv porter "/data" "groupA" ["a.fits"; "c.fits"])
    as (Hmkdir & Hscp & Hmv).
  - split; [discriminate|reflexivity].
  - split; [discriminate|reflexivity].
  - split; [discriminate|reflexivity].
  - split; [discriminate|reflexivity].
  - split; [discriminate|reflexivity].
  - reflexivity.
  - repeat constructor; discriminate.
  - discriminate.
  - split; [exact Hmkdir|]. split; [exact Hscp|].
    apply (Hmv "c.fits"). apply list_elem_of_further, list_elem_of_here.
Defined.

(** X6, on a script of two outcomes: the command meets the first one, and
    the second one is still to come. *)
Lemma execute_takes_one_outcome :
  world (execute "ssh user@host true" (Some 30%Z)
           (idle [TimedOut None None; Exited 0 None None] [])).2
  = [Exited 0 None None].
Proof.
  destruct (execute_starts_one_child (World:=list child) "ssh user@host true"
              (Some 30%Z) (idle [TimedOut None None; Exited 0 None None] []))
    as (Hstarted & _ & _).
  rewrite (Hstarted ["ssh"; "user@host"; "true"]); reflexivity.
Defined.

(** X7, on a command that ran out of time. *)
Lemma execute_timed_out_status :
  ∃ args, shlex.split "ssh user@host true" = Ok args
    ∧ ((errno.ETIME = 0%Z
        ∧ (spawn args (Some 30%Z) [TimedOut None (Some (Bytes "late"))]).1
          = Exited 0 None (Some (Bytes "late")))
       ∨ (errno.ETIME = errno.EREMOTEIO
          ∧ ∃ rc, rc ≠ 0%Z
              ∧ (spawn args (Some 30%Z) [TimedOut None (Some (Bytes "late"))]).1
                = Exited rc None (Some (Bytes "late")))
       ∨ (errno.ETIME = errno.ETIME
          ∧ (spawn args (Some 30%Z) [TimedOut None (Some (Bytes "late"))]).1
            = TimedOut None (Some (Bytes "late")))).
Proof.
  eapply (execute_status_tells_the_outcome (World:=list child) "ssh user@host true"
            (Some 30%Z) (idle [TimedOut None (Some (Bytes "late"))] [])).
  reflexivity.
Defined.

(** X8, on a sweep whose [find] is killed on the timeout after it has
    written to its error stream: the warning shows the bytes. *)
Lemma Wiper_run_logs_the_failed_sweep :
  ∃ s' l, Wiper_run sweeper (idle [TimedOut None (Some (Bytes "late"))] [])
          = (Ok tt, s')
    ∧ world s' = [] ∧ awaiting s' = [] ∧ completed s' = []
    ∧ logged s' = [] ++ l
    ∧ filter (λ r, r.1 = WARNING) l
      = [(WARNING,
          "Command 'ssh user@host find /stage -type d -empty -mindepth 1 -delete' failed with error: 'b'late''")].
Proof.
  apply (Wiper_run_survives_failures (World:=list child) sweeper
           (idle [TimedOut None (Some (Bytes "late"))] [])
           (TimedOut None (Some (Bytes "late"))) []).
  - split; [discriminate|reflexivity].
  - split; [discriminate|reflexivity].
  - split; [discriminate|reflexivity].
  - reflexivity.
  - discriminate.
  - discriminate.
Defined.

(** X9, on a configuration without host. *)
Lemma Porter_init_without_host :
  ∃ msg, Porter_init (delete "host" endpoint_config) 1 None (idle tt [])
         = (Raise (ValueError msg), Site tt ([] ++ [(CRITICAL, msg)]) [] []).
Proof.
  destruct (Porter_init_accepts_iff (World:=unit) (delete "host" endpoint_config)
              1 None (idle tt [])) as [_ Hrejects].
  apply (Hrejects "host").
  - apply list_elem_of_further, list_elem_of_here.
  - vm_compute. reflexivity.
Defined.

(** X10, on the empty configuration. *)
Lemma Wiper_init_of_empty_configuration :
  ∃ msg, Wiper_init ∅ None (idle tt [])
         = (Raise (ValueError msg), Site tt ([] ++ [(CRITICAL, msg)]) [] []).
Proof.
  destruct (Wiper_init_accepts_iff (World:=unit) ∅ None (idle tt []))
    as [_ Hrejects].
  apply (Hrejects "user").
  - apply list_elem_of_here.
  - vm_compute. reflexivity.
Defined.

(** X11, on the configuration of the samples. *)
Lemma Wiper_of_the_sample_configuration :
  Wiper_init endpoint_config (Some 30%Z) (idle tt [])
  = (Ok {| wiper_dest := ("user", "host", "/stage"); wiper_time := Some 30%Z |},
     idle tt []).
Proof.
  apply (Porter_config_suits_Wiper (World:=unit) endpoint_config 1 None (Some 30%Z)
           (idle tt []) porter (idle tt []) (idle tt [])).
  vm_compute. reflexivity.
Defined.

End endpoint_more_examples.

Section manager_more_examples.
Import manager manager_spec manager_more samples more_samples.

(** X12, on one discovered file and an empty database. *)
Lemma add_files_of_one_new_file :
  ∃ s', _add_files 2 discovered pending 10 (store [] (Queues [data_fits] [] [] []) [])
        = (Ok tt, s')
    ∧ get_queue discovered (queues s') = []
    ∧ get_queue pending (queues s') = [data_fits]
    ∧ item_key data_fits ∈ File.key <$> file_rows (database s').
Proof.
  destruct (_add_files_records_and_forwards_all 2 discovered pending 10
              (store [] (Queues [data_fits] [] [] []) []))
    as (s' & Hrun & _ & _ & Hin & Hout & _ & _ & _ & Hkeys).
  - split; reflexivity.
  - reflexivity.
  - discriminate.
  - reflexivity.
  - simpl. lia.
  - exists s'. split; [exact Hrun|]. split; [exact Hin|]. split; [exact Hout|].
    apply Hkeys. apply list_elem_of_here.
Defined.

(** X13, on a file that is discovered again, unchanged. *)
Lemma recorded_file_is_forwarded_again :
  ∃ s', add_files_chunk pending [data_fits]
          (store [data_fits_row] (Queues [data_fits] [] [] []) [])
        = (Ok tt, s')
    ∧ session s' = Tables [data_fits_row] []
    ∧ database s' = Tables [data_fits_row] []
    ∧ logged s' = []
    ∧ get_queue pending (queues s') = [] ++ [data_fits].
Proof.
  apply (add_files_forwards_recorded_files_again pending [data_fits]
           (store [data_fits_row] (Queues [data_fits] [] [] []) [])).
  - repeat constructor.
  - reflexivity.
  - constructor; [|constructor]. apply list_elem_of_here.
Defined.

(** X14, on a database that fails the first lookup. *)
Lemma add_files_on_a_locked_database :
  _add_files 2 discovered pending 10 (locked (Queues [data_fits] [] [] []))
  = (Raise (SQLAlchemyError "database is locked"),
     State (Tables [] []) (Tables [] []) [] [] [] (Queues [] [] [] []) []).
Proof.
  apply (_add_files_raises_when_a_lookup_fails 1 discovered pending 10
           (locked (Queues [data_fits] [] [] [])) "database is locked").
  - reflexivity.
  - discriminate.
  - reflexivity.
Defined.

(** X15, on one discovered file and an empty database. *)
Lemma add_files_appends_one_file :
  let s := store [] (Queues [data_fits] [] [] []) [] in
  let s' := (_add_files 2 discovered pending 10 s).2 in
  ∃ k new l,
    get_queue discovered (queues s') = drop k (get_queue discovered (queues s))
    ∧ get_queue pending (queues s') = get_queue pending (queues s) ++ l
    ∧ l `sublist_of` take k (get_queue discovered (queues s))
    ∧ file_rows (database s') = file_rows (database s) ++ new
    ∧ new `sublist_of` ((λ item, new_file item (item_key item).2)
                          <$> take k (get_queue discovered (queues s)))
    ∧ batch_rows (database s') = batch_rows (database s).
Proof.
  apply (_add_files_only_appends 2 discovered pending 10
           (store [] (Queues [data_fits] [] [] []) [])).
  - reflexivity.
  - discriminate.
Defined.

(** X16, on a transfer that succeeded and one that failed. *)
Lemma add_transfers_of_two_items :
  ∃ s', _add_transfers 3 processed 10
          (store [data_fits_row] no_queues [transferred; failed])
        = (Ok tt, s')
    ∧ transfers s' = []
    ∧ [] `prefix_of` get_queue processed (queues s')
    ∧ ∀ q, q ≠ processed → get_queue q (queues s') = get_queue q no_queues.
Proof.
  apply (_add_transfers_never_raises 3 processed 10
           (store [data_fits_row] no_queues [transferred; failed])).
  - reflexivity.
  - simpl. lia.
Defined.

(** X17, on two recorded versions of the transferred file: the batch links
    both. *)
Lemma batch_links_both_versions :
  Batch.files (new_batch transferred [0%nat; 1%nat]) ≠ []
  ∧ (1%nat ∈ Batch.files (new_batch transferred [0%nat; 1%nat]) ↔
       ∃ f, [data_fits_row; later_version] !! 1%nat = Some f
            ∧ ∃ head, (head, File.relpath f, File.filename f)
                        ∈ TransferMsg.files transferred).
Proof.
  pose proof (batch_links_records_by_name transferred
                (store [data_fits_row; later_version] no_queues [])
                [new_batch transferred [0%nat; 1%nat]] _ _ eq_refl
                (new_batch transferred [0%nat; 1%nat])
                (list_elem_of_here _ _)) as [Hfiles Hlinks].
  split; [exact Hfiles|exact (Hlinks 1%nat)].
Defined.

(** X18, on one completed file. *)
Lemma update_files_of_one_file :
  let s := store [data_fits_row] (Queues [] [] [] [data_fits]) [] in
  keeps_records (file_rows (session s))
                (file_rows (session (_update_files 2 completed 10 s).2))
  ∧ batch_rows (session (_update_files 2 completed 10 s).2)
    = batch_rows (session s)
  ∧ ∀ q, q ≠ completed →
      get_queue q (queues (_update_files 2 completed 10 s).2)
      = get_queue q (queues s).
Proof.
  apply (_update_files_only_sets_held_times 2 completed 10
           (store [data_fits_row] (Queues [] [] [] [data_fits]) [])).
  reflexivity.
Defined.

(** X19, on a recorded file. *)
Lemma update_file_twice_on_a_recorded_file :
  session (bind (update_file data_fits) (λ _, update_file data_fits)
             (store [data_fits_row] no_queues [])).2
  = session (update_file data_fits (store [data_fits_row] no_queues [])).2
  ∧ (bind (update_file data_fits) (λ _, update_file data_fits)
       (store [data_fits_row] no_queues [])).1 = Ok tt.
Proof.
  apply (update_file_twice data_fits (store [data_fits_row] no_queues [])).
  - reflexivity.
  - reflexivity.
Defined.

(** X20, on one completed file. *)
Lemma update_files_drains_one_file :
  let s := store [data_fits_row] (Queues [] [] [] [data_fits]) [] in
  (_update_files 2 completed 10 s).1 ≠ OutOfFuel
  ∧ ((_update_files 2 completed 10 s).1 = Ok tt →
     get_queue completed (queues (_update_files 2 completed 10 s).2) = [])
  ∧ (sound s →
     (_update_files 2 completed 10 s).1 = Ok tt
     ∧ logged (_update_files 2 completed 10 s).2 = logged s).
Proof.
  apply (_update_files_drains_the_queue 2 completed 10
           (store [data_fits_row] (Queues [] [] [] [data_fits]) [])).
  - reflexivity.
  - simpl. lia.
Defined.

End manager_more_examples.

Section manager_init_examples.
Import manager samples more_samples.

(** X21, on the configuration of the samples, which sets a timeout of 30
    seconds and nothing else. *)
Lemma Manager_of_the_sample_configuration :
  Manager_init defaults configuration (idle tt [])
  = (Ok {| db_engine := tt; num_threads := 1; pause := 1; finder := tt;
           cleaner := tt;
           manager.porter := {| endpoint.dest := ("user", "host", "/buf");
                        endpoint.temp := "/stage";
                        endpoint.size := 10;
                        endpoint.time := Some 30%Z |};
           wiper := {| endpoint.wiper_dest := ("user", "host", "/stage");
                       endpoint.wiper_time := None |} |},
     idle tt []).
Proof.
  apply (Manager_init_accepts_iff (World:=unit) defaults configuration (idle tt [])).
  split; [reflexivity|].
  exists tt, tt, endpoint_config, "user", "host", "/buf", "/stage".
  repeat split; vm_compute; reflexivity.
Defined.

(** X22, on a configuration without its database section. *)
Lemma Manager_init_without_database :
  Manager_init defaults no_database (idle tt [])
  = (Raise (KeyError "database"), idle tt []).
Proof.
  destruct (Manager_init_rejects (World:=unit) defaults no_database (idle tt []))
    as [Hdatabase _].
  apply Hdatabase. reflexivity.
Defined.

End manager_init_examples.
